(** * pixai: the text canonicalizer and the decision rule of the classifier

    A shallow embedding of [text_normalizer.py] (noise filtering, the
    replacement tables, the URL pattern, [normalize],
    [process_extracted_text]) and of the decision rule that ends [predict]
    in [model.py], followed by the properties the specification states
    about them.

    A Python string is a sequence of code points, a code point an [N].
    What the module takes from libraries (the interpreter's case tables,
    the character classes of [regex], [ftfy], [unicodedata], [emoji]) enters
    through interfaces: classes whose laws pin the rows this development
    computes with. *)

From Stdlib Require Import NArith ZArith Lia SpecFloat.
From stdpp Require Import base tactics option list strings gmap.

Local Open Scope N_scope.

(** ** Python strings *)

Abbreviation str := (list N).

(** An ASCII literal as a Python string. *)
Definition cps (s : string) : str :=
  (λ a, Ascii.N_of_ascii a) <$> String.list_ascii_of_string s.

Module PyStr.

Definition is_ascii_upper (c : N) : bool := (65 <=? c) && (c <=? 90).
Definition is_ascii_lower (c : N) : bool := (97 <=? c) && (c <=? 122).
Definition ascii_tolower (c : N) : N := if is_ascii_upper c then c + 32 else c.
Definition ascii_toupper (c : N) : N := if is_ascii_lower c then c - 32 else c.

(** The rows of the interpreter's character database that [str.lower]
    reads. The laws pin the ASCII rows and those of the Bengali block,
    which has no case. *)
Class UnicodeCase := {
  ToLowerFull : N → str;
  IsCased : N → bool;
  IsCaseIgnorable : N → bool;
  ToLowerFull_ascii : ∀ c, c < 128 → ToLowerFull c = [ascii_tolower c];
  ToLowerFull_bengali : ∀ c, 0x980 <= c <= 0x9FF → ToLowerFull c = [c]
}.

Section lower.
Context `{UC : UnicodeCase}.

(** First code point of [l] that is not case-ignorable. *)
Fixpoint skip_case_ignorable (l : str) : option N :=
  match l with
  | [] => None
  | c :: l' => if IsCaseIgnorable c then skip_case_ignorable l' else Some c
  end.

(** U+03A3 lowers to the final form U+03C2 when it follows a cased letter
    and no cased letter follows it, case-ignorable code points skipped on
    both sides. [before] is the text to the left, nearest code point
    first. *)
Definition handle_capital_sigma (before after : str) : N :=
  let final_sigma :=
    match skip_case_ignorable before with
    | Some c =>
        IsCased c &&
        match skip_case_ignorable after with
        | Some c' => negb (IsCased c')
        | None => true
        end
    | None => false
    end in
  if final_sigma then 0x3C2 else 0x3C3.

Definition lower_ucs4 (before after : str) (c : N) : str :=
  if c =? 0x3A3 then [handle_capital_sigma before after] else ToLowerFull c.

Fixpoint do_lower (before s : str) : str :=
  match s with
  | [] => []
  | c :: rest => lower_ucs4 before rest c ++ do_lower (c :: before) rest
  end.

(** [text.lower()] *)
Definition lower (text : str) : str := do_lower [] text.

End lower.

(** [text.replace(old, new)] for a one-character [old]. *)
Fixpoint replace (old : N) (new : str) (text : str) : str :=
  match text with
  | [] => []
  | c :: rest => (if c =? old then new else [c]) ++ replace old new rest
  end.

Fixpoint startswith (prefix text : str) : bool :=
  match prefix, text with
  | [], _ => true
  | _ :: _, [] => false
  | a :: prefix', b :: text' => (a =? b) && startswith prefix' text'
  end.

(** [needle in hay] *)
Fixpoint contains (needle hay : str) : bool :=
  startswith needle hay ||
  match hay with
  | [] => false
  | _ :: hay' => contains needle hay'
  end.

(** [sep.join(parts)] *)
Fixpoint join (sep : str) (parts : list str) : str :=
  match parts with
  | [] => []
  | [p] => p
  | p :: parts' => p ++ sep ++ join sep parts'
  end.

(** [str.isspace] on one code point. *)
Definition isspace (c : N) : bool :=
  ((9 <=? c) && (c <=? 13)) || ((28 <=? c) && (c <=? 32)) ||
  (c =? 0x85) || (c =? 0xA0) || (c =? 0x1680) ||
  ((0x2000 <=? c) && (c <=? 0x200A)) ||
  (c =? 0x2028) || (c =? 0x2029) || (c =? 0x202F) || (c =? 0x205F) ||
  (c =? 0x3000).

Fixpoint lstrip (text : str) : str :=
  match text with
  | [] => []
  | c :: rest => if isspace c then lstrip rest else text
  end.

(** [text.strip()] *)
Definition strip (text : str) : str := rev (lstrip (rev (lstrip text))).

(** [text.translate(table)]: a code point the table maps is replaced by its
    image, any other is kept. *)
Definition translate (table : list (N * str)) (text : str) : str :=
  c ← text; default [c] (snd <$> List.find (λ kv, kv.1 =? c) table).

(** The database cut down to ASCII: every code point from 128 on is
    caseless, as the interpreter's tables have it for the Bengali block.
    It serves to evaluate the code on ASCII and Bengali text. *)
Definition ascii_case_ignorable (c : N) : bool :=
  (c =? 39) || (c =? 46) || (c =? 58) || (c =? 94) || (c =? 96).

Definition ascii_rows : UnicodeCase.
Proof.
  refine {| ToLowerFull c := [ascii_tolower c];
            IsCased c := is_ascii_upper c || is_ascii_lower c;
            IsCaseIgnorable c := ascii_case_ignorable c |}.
  - reflexivity.
  - intros c [Hc _]. unfold ascii_tolower, is_ascii_upper.
    destruct (N.leb_spec c 90) as [H90|_]; [lia|].
    now rewrite andb_false_r.
Defined.

End PyStr.

(** ** Exceptions and the module's mutable tables

    The module keeps three mutable containers at top level. A call reads
    them where the source names them; a computation is a function of the
    containers that returns them with its result, or with the exception it
    raised. *)

Variant exn := ValueError (msg : string).

Variant result (A : Type) := Ok (a : A) | Raise (e : exn).
Arguments Ok {A} a.
Arguments Raise {A} e.

Record globals := Globals {
  g_CHAR_REPLACEMENTS : list (N * str);
  g_UNICODE_REPLACEMENTS : list (str * str);
  g_NOISE_KEYWORDS : list str
}.

Definition Py (A : Type) : Type := globals → result A * globals.

Definition py_ret {A} (a : A) : Py A := λ g, (Ok a, g).

Definition py_bind {A B} (m : Py A) (f : A → Py B) : Py B :=
  λ g, match m g with
       | (Ok a, g') => f a g'
       | (Raise e, g') => (Raise e, g')
       end.

Definition py_raise {A} (e : exn) : Py A := λ g, (Raise e, g).

(** Reading a module-level name. *)
Definition global {A} (name : globals → A) : Py A := λ g, (Ok (name g), g).

Definition lift {A} (r : result A) : Py A := λ g, (r, g).

#[global] Instance Py_ret : MRet Py := @py_ret.
#[global] Instance Py_bind : MBind Py := λ A B f m, py_bind m f.

(** ** Noise filtering *)

Module Noise.
Import PyStr.

(** Known watermark and branding strings. *)
Definition NOISE_KEYWORDS : list str := [
  cps "dailyhunt";
  cps "Download";
  cps "Google Play";
  cps "Mr420.BD";
  cps "OFF JAA";
  cps "mairala";
  cps "memes";
  cps "MEME";
  cps "cringe";
  cps "seriously";
  cps "fakibaji";
  cps "faki";
  cps "sagormeme";
  cps "tangaila";
  cps "sarcasmbd";
  cps "Shanto";
  cps "ferdoush";
  cps "f /ferdoush.Shanto";
  cps "FB/FAKIBAJIBD";
  cps "Chorki ORIGINAL FILM";
  cps "Chorki";
  cps "NEWS24";
  cps "Bengali_thug_life";
  cps "BANGLA TROLL";
  cps "Koi Jaaasss";
  cps "niiladro.hridoy";
  cps "FB.COM/EtOKhushi";
  cps "f.memes";
  cps "BangleMeme";
  cps "KEU AMARE";
  cps "SAMAKAL.COM";
  cps "IndianOil";
  cps "junction" ++ [0x9AC; 0x9BE; 0x982; 0x9B2; 0x9BE];
  cps "LinkedIn";
  cps "Microsoft";
  cps "BANGLATROLL.COM";
  cps "jhakkasss";
  cps "Rahul Islam";
  cps "memefoxofficial";
  cps "Asraful Meme's";
  cps "imgflip.com";
  cps "Sarcozm";
  cps "Faizlam";
  cps "Faizlami";
  cps "Bamboo.vaiya";
  cps "RANTAGES";
  cps "GOATPOSING";
  cps ".com";
  cps "RGVzoomin";
  cps "Follow";
  cps "@charliekirk11";
  cps "Sajedul_Islam";
  cps "@Tamim";
  cps "judas";
  cps "almamunk";
  cps "@rxh";
  cps "@Atif";
  cps "Rimon Bro";
  cps "ab.memeposting";
  cps "@mahdi";
  cps "@rolexhalim";
  cps "@ash";
  cps "akhib";
  cps "fb.com"
].

Section filter.
Context `{UC : UnicodeCase}.

(** Normalized version for matching (lowercase, no spaces). *)
Definition get_norm (text : str) : str := replace 32 [] (lower text).

(** [d[k] = v] on a dict, kept in insertion order: an existing key keeps its
    place and takes the new value. *)
Fixpoint dict_set (d : list (str * str)) (k v : str) : list (str * str) :=
  match d with
  | [] => [(k, v)]
  | (k', v') :: d' =>
      if decide (k' = k) then (k', v) :: d' else (k', v') :: dict_set d' k v
  end.

(** [{k: get_norm(k) for k in keywords}] *)
Definition normalized_keywords (keywords : list str) : list (str * str) :=
  foldl (λ d k, dict_set d k (get_norm k)) [] keywords.

(** The inner loop: the first keyword, in the order of the dict, whose
    normalized form occurs in the normalized item. *)
Definition first_keyword (nk : list (str * str)) (norm_item : str) : option str :=
  fst <$> List.find (λ kv, contains kv.2 norm_item) nk.

(** One turn of the outer loop over [(cleaned_list, keyword_counts)]. A
    [Counter] reads a missing key as 0. *)
Definition filter_step (nk : list (str * str))
    (st : list str * gmap str nat) (item : str) : list str * gmap str nat :=
  let norm_item := get_norm item in
  match first_keyword nk norm_item with
  | Some original_kw => (st.1, <[original_kw := S (st.2 !!! original_kw)]> st.2)
  | None => (st.1 ++ [item], st.2)
  end.

Definition filter_noise_keywords (text_list : list str)
    : Py (list str * gmap str nat) :=
  keywords ← global g_NOISE_KEYWORDS;
  let nk := normalized_keywords keywords in
  mret (foldl (filter_step nk) ([], ∅) text_list).

(** The criterion of the specification for one item and one keyword: the
    normalized keyword occurs in the normalized item. *)
Definition matches_keyword (item kw : str) : bool :=
  contains (get_norm kw) (get_norm item).

Definition is_noise (keywords : list str) (item : str) : bool :=
  existsb (matches_keyword item) keywords.

(** The keyword an item is counted under: the first of the table that
    matches it. *)
Definition credited (keywords : list str) (item : str) : option str :=
  List.find (matches_keyword item) keywords.

(** The normalized form as the specification words it: lowercase, all
    whitespace removed. *)
Definition norm_without_whitespace (text : str) : str :=
  List.filter (λ c, negb (isspace c)) (lower text).

(** The number of items of [l] counted under [kw]. *)
Definition credits (keywords : list str) (kw : str) (l : list str) : nat :=
  length (List.filter (λ item, bool_decide (credited keywords item = Some kw)) l).

(** What the dict comprehension keeps true while it runs over a prefix of
    the keyword table: every entry pairs a keyword with its normalized
    form, every key comes from the prefix, and the first entry whose value
    occurs in a text belongs to the first keyword of the prefix that
    matches. *)
Definition dict_inv (d : list (str * str)) (seen : list str) : Prop :=
  Forall (λ kv, kv.2 = get_norm kv.1 ∧ kv.1 ∈ seen) d ∧
  ∀ n, first_keyword d n = List.find (λ kw, contains (get_norm kw) n) seen.

End filter.

(** Code points whose rows every [UnicodeCase] shares: ASCII and the
    Bengali block. *)
Definition pinned (c : N) : bool :=
  (c <? 128) || ((0x980 <=? c) && (c <=? 0x9FF)).

End Noise.

(** ** Alternations of fixed sequences

    [re.compile("|".join(keys))] for keys that are plain code points, or
    hold the one group the tables use, [([^c])]. *)

Module Alternation.

Variant atom :=
  | Lit (c : N)       (* the code point [c] *)
  | Capture (c : N).  (* [([^c])]: one code point other than [c], kept as group 1 *)

(** Code points the pattern syntax reads as operators. *)
Definition special (c : N) : bool :=
  bool_decide (c ∈ cps "\.^$*+?{}[]()|").

(** One alternative of the joined pattern. *)
Fixpoint compile_alt (key : str) : list atom :=
  match key with
  | [] => []
  | 40 :: 91 :: 94 :: c :: 93 :: 41 :: key' => Capture c :: compile_alt key'
  | c :: key' => Lit c :: compile_alt key'
  end.

(** [re.compile("|".join(keys))] *)
Definition compile (keys : list str) : list (list atom) := compile_alt <$> keys.

(** A match: the text matched ([group(0)]) and group 1, [None] when the
    alternative that matched has no group. *)
Fixpoint match_alt (p : list atom) (text : str) : option (str * option N) :=
  match p, text with
  | [], _ => Some ([], None)
  | _ :: _, [] => None
  | Lit c :: p', x :: text' =>
      if x =? c then (λ m, (x :: m.1, m.2)) <$> match_alt p' text' else None
  | Capture c :: p', x :: text' =>
      if x =? c then None else (λ m, (x :: m.1, Some x)) <$> match_alt p' text'
  end.

(** The match at the start of [text]: the first alternative that matches. *)
Fixpoint match_here (alts : list (list atom)) (text : str) : option (str * option N) :=
  match alts with
  | [] => None
  | p :: alts' =>
      match match_alt p text with
      | Some m => Some m
      | None => match_here alts' text
      end
  end.

(** [pattern.sub(repl, text)] with a callable [repl]: one scan from the
    left; where an alternative matches, the match is replaced and the scan
    resumes after it, elsewhere the code point is copied. [skip] counts the
    code points of the current match still to pass. An empty match leaves
    its replacement in front of the code point it stands at. *)
Fixpoint sub_from (alts : list (list atom)) (repl : str * option N → str)
    (skip : nat) (text : str) : str :=
  match text with
  | [] =>
      match skip, match_here alts [] with
      | O, Some m => repl m
      | _, _ => []
      end
  | c :: text' =>
      match skip with
      | S k => sub_from alts repl k text'
      | O =>
          match match_here alts text with
          | Some m =>
              match length m.1 with
              | O => repl m ++ c :: sub_from alts repl 0 text'
              | S k => repl m ++ sub_from alts repl k text'
              end
          | None => c :: sub_from alts repl 0 text'
          end
      end
  end.

Definition sub (alts : list (list atom)) (repl : str * option N → str)
    (text : str) : str := sub_from alts repl 0 text.

End Alternation.

(** ** The replacement tables *)

Module Tables.
Import Alternation.

(** Character replacements for normalization ([str.maketrans]). *)
Definition CHAR_REPLACEMENTS : list (N * str) := [
  (0xB9, cps "1"); (0xB2, cps "2"); (0xB3, cps "3"); (0xC0, cps "A"); (0xC1, cps "A");
  (0xC2, cps "A"); (0xC3, cps "A"); (0xC4, cps "A"); (0xC5, cps "A"); (0x100, cps "A");
  (0x102, cps "A"); (0x104, cps "A"); (0x1CD, cps "A"); (0x1DE, cps "A"); (0x1E0, cps "A");
  (0x1FA, cps "A"); (0x200, cps "A"); (0x202, cps "A"); (0x226, cps "A"); (0x1E00, cps "A");
  (0x1EA0, cps "A"); (0x1EA2, cps "A"); (0x1EA4, cps "A"); (0x1EA6, cps "A"); (0x1EA8, cps "A");
  (0x1EAA, cps "A"); (0x1EAC, cps "A"); (0x1EAE, cps "A"); (0x1EB0, cps "A"); (0x1EB2, cps "A");
  (0x1EB4, cps "A"); (0x1EB6, cps "A"); (0xE0, cps "a"); (0xE1, cps "a"); (0xE2, cps "a");
  (0xE3, cps "a"); (0xE4, cps "a"); (0xE5, cps "a"); (0xAA, cps "a"); (0x101, cps "a");
  (0x103, cps "a"); (0x105, cps "a"); (0x1CE, cps "a"); (0x1DF, cps "a"); (0x1E1, cps "a");
  (0x1FB, cps "a"); (0x201, cps "a"); (0x203, cps "a"); (0x227, cps "a"); (0x1E01, cps "a");
  (0x1EA1, cps "a"); (0x1EA3, cps "a"); (0x1EA5, cps "a"); (0x1EA7, cps "a"); (0x1EA9, cps "a");
  (0x1EAB, cps "a"); (0x1EAD, cps "a"); (0x1EAF, cps "a"); (0x1EB1, cps "a"); (0x1EB3, cps "a");
  (0x1EB5, cps "a"); (0x1EB7, cps "a"); (0x1E02, cps "B"); (0x1E04, cps "B"); (0x1E06, cps "B");
  (0x1E03, cps "b"); (0x1E05, cps "b"); (0x1E07, cps "b"); (0xC7, cps "C"); (0x106, cps "C");
  (0x108, cps "C"); (0x10A, cps "C"); (0x10C, cps "C"); (0x1E08, cps "C"); (0xE7, cps "c");
  (0x107, cps "c"); (0x109, cps "c"); (0x10B, cps "c"); (0x10D, cps "c"); (0x1E09, cps "c");
  (0xD0, cps "D"); (0x10E, cps "D"); (0x110, cps "D"); (0x1E0A, cps "D"); (0x1E0C, cps "D");
  (0x1E0E, cps "D"); (0x1E10, cps "D"); (0x1E12, cps "D"); (0x10F, cps "d"); (0x111, cps "d");
  (0x1E0B, cps "d"); (0x1E0D, cps "d"); (0x1E0F, cps "d"); (0x1E11, cps "d"); (0x1E13, cps "d");
  (0xC8, cps "E"); (0xC9, cps "E"); (0xCA, cps "E"); (0xCB, cps "E"); (0x112, cps "E");
  (0x114, cps "E"); (0x116, cps "E"); (0x118, cps "E"); (0x11A, cps "E"); (0x204, cps "E");
  (0x206, cps "E"); (0x228, cps "E"); (0x1E14, cps "E"); (0x1E16, cps "E"); (0x1E18, cps "E");
  (0x1E1A, cps "E"); (0x1E1C, cps "E"); (0x1EB8, cps "E"); (0x1EBA, cps "E"); (0x1EBC, cps "E");
  (0x1EBE, cps "E"); (0x1EC0, cps "E"); (0x1EC2, cps "E"); (0x1EC4, cps "E"); (0x1EC6, cps "E");
  (0xE8, cps "e"); (0xE9, cps "e"); (0xEA, cps "e"); (0xEB, cps "e"); (0x113, cps "e");
  (0x115, cps "e"); (0x117, cps "e"); (0x119, cps "e"); (0x11B, cps "e"); (0x205, cps "e");
  (0x207, cps "e"); (0x229, cps "e"); (0x1E15, cps "e"); (0x1E17, cps "e"); (0x1E19, cps "e");
  (0x1E1B, cps "e"); (0x1E1D, cps "e"); (0x1EB9, cps "e"); (0x1EBB, cps "e"); (0x1EBD, cps "e");
  (0x1EBF, cps "e"); (0x1EC1, cps "e"); (0x1EC3, cps "e"); (0x1EC5, cps "e"); (0x1EC7, cps "e");
  (0x1E1E, cps "F"); (0x1E1F, cps "f"); (0x11C, cps "G"); (0x11E, cps "G"); (0x120, cps "G");
  (0x122, cps "G"); (0x1E6, cps "G"); (0x1F4, cps "G"); (0x1E20, cps "G"); (0x11D, cps "g");
  (0x11F, cps "g"); (0x121, cps "g"); (0x123, cps "g"); (0x1E7, cps "g"); (0x1F5, cps "g");
  (0x1E21, cps "g"); (0x124, cps "H"); (0x126, cps "H"); (0x21E, cps "H"); (0x1E22, cps "H");
  (0x1E24, cps "H"); (0x1E26, cps "H"); (0x1E28, cps "H"); (0x1E2A, cps "H"); (0x125, cps "h");
  (0x127, cps "h"); (0x21F, cps "h"); (0x1E23, cps "h"); (0x1E25, cps "h"); (0x1E27, cps "h");
  (0x1E29, cps "h"); (0x1E2B, cps "h"); (0x1E96, cps "h"); (0xCC, cps "I"); (0xCD, cps "I");
  (0xCE, cps "I"); (0xCF, cps "I"); (0x128, cps "I"); (0x12A, cps "I"); (0x12C, cps "I");
  (0x12E, cps "I"); (0x130, cps "I"); (0x1CF, cps "I"); (0x208, cps "I"); (0x20A, cps "I");
  (0x1E2C, cps "I"); (0x1E2E, cps "I"); (0x1EC8, cps "I"); (0x1ECA, cps "I"); (0xEC, cps "i");
  (0xED, cps "i"); (0xEE, cps "i"); (0xEF, cps "i"); (0x129, cps "i"); (0x12B, cps "i");
  (0x12D, cps "i"); (0x12F, cps "i"); (0x131, cps "i"); (0x1D0, cps "i"); (0x209, cps "i");
  (0x20B, cps "i"); (0x1E2D, cps "i"); (0x1E2F, cps "i"); (0x1EC9, cps "i"); (0x1ECB, cps "i");
  (0x134, cps "J"); (0x135, cps "j"); (0x136, cps "K"); (0x1E8, cps "K"); (0x1E30, cps "K");
  (0x1E32, cps "K"); (0x1E34, cps "K"); (0x137, cps "k"); (0x1E9, cps "k"); (0x1E31, cps "k");
  (0x1E33, cps "k"); (0x1E35, cps "k"); (0x139, cps "L"); (0x13B, cps "L"); (0x13D, cps "L");
  (0x13F, cps "L"); (0x141, cps "L"); (0x1E36, cps "L"); (0x1E38, cps "L"); (0x1E3A, cps "L");
  (0x1E3C, cps "L"); (0x13A, cps "l"); (0x13C, cps "l"); (0x13E, cps "l"); (0x140, cps "l");
  (0x142, cps "l"); (0x1E37, cps "l"); (0x1E39, cps "l"); (0x1E3B, cps "l"); (0x1E3D, cps "l");
  (0x1E3E, cps "M"); (0x1E40, cps "M"); (0x1E42, cps "M"); (0x1E3F, cps "m"); (0x1E41, cps "m");
  (0x1E43, cps "m"); (0xD1, cps "N"); (0x143, cps "N"); (0x145, cps "N"); (0x147, cps "N");
  (0x1F8, cps "N"); (0x1E44, cps "N"); (0x1E46, cps "N"); (0x1E48, cps "N"); (0x1E4A, cps "N");
  (0xF1, cps "n"); (0x144, cps "n"); (0x146, cps "n"); (0x148, cps "n"); (0x1F9, cps "n");
  (0x1E45, cps "n"); (0x1E47, cps "n"); (0x1E49, cps "n"); (0x1E4B, cps "n"); (0xD2, cps "O");
  (0xD3, cps "O"); (0xD4, cps "O"); (0xD5, cps "O"); (0xD6, cps "O"); (0x14C, cps "O");
  (0x14E, cps "O"); (0x150, cps "O"); (0x1A0, cps "O"); (0x1D1, cps "O"); (0x1EA, cps "O");
  (0x1EC, cps "O"); (0x20C, cps "O"); (0x20E, cps "O"); (0x22A, cps "O"); (0x22C, cps "O");
  (0x22E, cps "O"); (0x230, cps "O"); (0x1E4C, cps "O"); (0x1E4E, cps "O"); (0x1E50, cps "O");
  (0x1E52, cps "O"); (0x1ECC, cps "O"); (0x1ECE, cps "O"); (0x1ED0, cps "O"); (0x1ED2, cps "O");
  (0x1ED4, cps "O"); (0x1ED6, cps "O"); (0x1ED8, cps "O"); (0x1EDA, cps "O"); (0x1EDC, cps "O");
  (0x1EDE, cps "O"); (0x1EE0, cps "O"); (0x1EE2, cps "O"); (0xF2, cps "o"); (0xF3, cps "o");
  (0xF4, cps "o"); (0xF5, cps "o"); (0xF6, cps "o"); (0x14D, cps "o"); (0x14F, cps "o");
  (0x151, cps "o"); (0x1A1, cps "o"); (0x1D2, cps "o"); (0x1EB, cps "o"); (0x1ED, cps "o");
  (0x20D, cps "o"); (0x20F, cps "o"); (0x22B, cps "o"); (0x22D, cps "o"); (0x22F, cps "o");
  (0x231, cps "o"); (0x1E4D, cps "o"); (0x1E4F, cps "o"); (0x1E51, cps "o"); (0x1E53, cps "o");
  (0x1ECD, cps "o"); (0x1ECF, cps "o"); (0x1ED1, cps "o"); (0x1ED3, cps "o"); (0x1ED5, cps "o");
  (0x1ED7, cps "o"); (0x1ED9, cps "o"); (0x1EDB, cps "o"); (0x1EDD, cps "o"); (0x1EDF, cps "o");
  (0x1EE1, cps "o"); (0x1EE3, cps "o"); (0x1E54, cps "P"); (0x1E56, cps "P"); (0x1E55, cps "p");
  (0x1E57, cps "p"); (0x154, cps "R"); (0x156, cps "R"); (0x158, cps "R"); (0x210, cps "R");
  (0x212, cps "R"); (0x1E58, cps "R"); (0x1E5A, cps "R"); (0x1E5C, cps "R"); (0x1E5E, cps "R");
  (0x155, cps "r"); (0x157, cps "r"); (0x159, cps "r"); (0x211, cps "r"); (0x213, cps "r");
  (0x1E59, cps "r"); (0x1E5B, cps "r"); (0x1E5D, cps "r"); (0x1E5F, cps "r"); (0x15A, cps "S");
  (0x15C, cps "S"); (0x15E, cps "S"); (0x160, cps "s"); (0x218, cps "S"); (0x1E60, cps "S");
  (0x1E62, cps "S"); (0x1E64, cps "S"); (0x1E66, cps "S"); (0x1E68, cps "S"); (0x15B, cps "s");
  (0x15D, cps "s"); (0x15F, cps "s"); (0x161, cps "s"); (0x219, cps "s"); (0x1E61, cps "s");
  (0x1E63, cps "s"); (0x1E65, cps "s"); (0x1E67, cps "s"); (0x1E69, cps "s"); (0x162, cps "T");
  (0x164, cps "T"); (0x166, cps "T"); (0x21A, cps "T"); (0x1E6A, cps "T"); (0x1E6C, cps "T");
  (0x1E6E, cps "T"); (0x1E70, cps "T"); (0x163, cps "t"); (0x165, cps "t"); (0x167, cps "t");
  (0x21B, cps "t"); (0x1E6B, cps "t"); (0x1E6D, cps "t"); (0x1E6F, cps "t"); (0x1E71, cps "t");
  (0x1E97, cps "t"); (0xD9, cps "U"); (0xDA, cps "U"); (0xDB, cps "U"); (0xDC, cps "U");
  (0x168, cps "U"); (0x16A, cps "U"); (0x16C, cps "U"); (0x16E, cps "U"); (0x170, cps "U");
  (0x172, cps "U"); (0x1AF, cps "U"); (0x1D3, cps "U"); (0x1D5, cps "U"); (0x1D7, cps "U");
  (0x1D9, cps "U"); (0x1DB, cps "U"); (0x214, cps "U"); (0x216, cps "U"); (0x1E72, cps "U");
  (0x1E74, cps "U"); (0x1E76, cps "U"); (0x1E78, cps "U"); (0x1E7A, cps "U"); (0x1EE4, cps "U");
  (0x1EE6, cps "U"); (0x1EE8, cps "U"); (0x1EEA, cps "U"); (0x1EEC, cps "U"); (0x1EEE, cps "U");
  (0x1EF0, cps "U"); (0xF9, cps "u"); (0xFA, cps "u"); (0xFB, cps "u"); (0xFC, cps "u");
  (0x169, cps "u"); (0x16B, cps "u"); (0x16D, cps "u"); (0x16F, cps "u"); (0x171, cps "u");
  (0x173, cps "u"); (0x1B0, cps "u"); (0x1D4, cps "u"); (0x1D6, cps "u"); (0x1D8, cps "u");
  (0x1DA, cps "u"); (0x1DC, cps "u"); (0x215, cps "u"); (0x217, cps "u"); (0x1E73, cps "u");
  (0x1E75, cps "u"); (0x1E77, cps "u"); (0x1E79, cps "u"); (0x1E7B, cps "u"); (0x1EE5, cps "u");
  (0x1EE7, cps "u"); (0x1EE9, cps "u"); (0x1EEB, cps "u"); (0x1EED, cps "u"); (0x1EEF, cps "u");
  (0x1EF1, cps "u"); (0x1E7C, cps "V"); (0x1E7E, cps "V"); (0x1E7D, cps "v"); (0x1E7F, cps "v");
  (0x174, cps "W"); (0x1E80, cps "W"); (0x1E82, cps "W"); (0x1E84, cps "W"); (0x1E86, cps "W");
  (0x1E88, cps "W"); (0x175, cps "w"); (0x1E81, cps "w"); (0x1E83, cps "w"); (0x1E85, cps "w");
  (0x1E87, cps "w"); (0x1E89, cps "w"); (0x1E98, cps "w"); (0x1E8A, cps "X"); (0x1E8C, cps "X");
  (0x1E8B, cps "x"); (0x1E8D, cps "x"); (0xDD, cps "y"); (0x176, cps "Y"); (0x178, cps "Y");
  (0x232, cps "Y"); (0x1E8E, cps "Y"); (0x1EF2, cps "Y"); (0x1EF4, cps "Y"); (0x1EF6, cps "Y");
  (0x1EF8, cps "Y"); (0xFD, cps "y"); (0xFF, cps "y"); (0x177, cps "y"); (0x233, cps "y");
  (0x1E8F, cps "y"); (0x1EF3, cps "y"); (0x1EF5, cps "y"); (0x1EF7, cps "y"); (0x1EF9, cps "y");
  (0x1E99, cps "y"); (0x179, cps "Z"); (0x17B, cps "Z"); (0x17D, cps "Z"); (0x1E90, cps "Z");
  (0x1E92, cps "Z"); (0x1E94, cps "Z"); (0x17A, cps "z"); (0x17C, cps "z"); (0x17E, cps "z");
  (0x1E91, cps "z"); (0x1E93, cps "z"); (0x1E95, cps "z"); (0x132, cps "IJ"); (0x133, cps "ij");
  (0xF8, cps "o"); (0xD8, cps "O"); (0x268, cps "i"); (0xF0, cps "d")
].

(** Unicode replacements: the keys are patterns, in the order of the dict. *)
Definition UNICODE_REPLACEMENTS : list (str * str) := [
  ([0xAD], []);
  ([0x9AF; 0x9BC], [0x9DF]);
  ([0x9A2; 0x9BC], [0x9DD]);
  ([0x9A1; 0x9BC], [0x9DC]);
  ([0x9AC; 0x9BC], [0x9B0]);
  ([0x9C7; 0x9BE], [0x9CB]);
  ([0x9C7; 0x9D7], [0x9CC]);
  ([0x985; 0x9BE], [0x986]);
  ([0x9C7; 0x981; 0x9D7], [0x9CC; 0x981]);
  ([0x9C7; 0x981; 0x9BE], [0x9CB; 0x981]);
  ([0x9C7; 40; 91; 94; 0x9D7; 93; 41; 0x9D7], [92; 103; 60; 49; 62; 0x9CC]);
  ([0xA0], cps " ");
  ([0x200B], []);
  ([0x2060], []);
  ([0x201E], [34]);
  ([0x201C], [34]);
  ([0x201D], [34]);
  ([0x2013], cps "-");
  ([0x2014], cps " - ");
  ([0xB4], cps "'");
  ([0x2018], cps "'");
  ([0x201A], cps "'");
  ([0x2019], cps "'");
  ([0xB4; 0xB4], [34]);
  ([0x2026], cps "...");
  ([0xA0; 0xAB; 0xA0], [34]);
  ([0xAB; 0xA0], [34]);
  ([0xAB], [34]);
  ([0xA0; 0xBB; 0xA0], [34]);
  ([0xA0; 0xBB], [34]);
  ([0xBB], [34]);
  ([0x9F7], [0x964]);
  ([0xFF0C], cps ",");
  ([0x3001], cps ",");
  ([0x2236], cps ":");
  ([0xFF1A], cps ":");
  ([0xFF1F], cps "?");
  ([0x300A], [34]);
  ([0x300B], [34]);
  ([0xFF09], cps ")");
  ([0xFF01], cps "!");
  ([0xFF08], cps "(");
  ([0xFF1B], cps ";");
  ([0x300D], [34]);
  ([0x300C], [34]);
  ([0xFF10], cps "0");
  ([0xFF11], cps "1");
  ([0xFF12], cps "2");
  ([0xFF13], cps "3");
  ([0xFF14], cps "4");
  ([0xFF15], cps "5");
  ([0xFF16], cps "6");
  ([0xFF17], cps "7");
  ([0xFF18], cps "8");
  ([0xFF19], cps "9");
  ([0xFF5E], cps "~");
  ([0x2501], cps "-");
  ([0x3008], cps "<");
  ([0x3009], cps ">");
  ([0x3010], cps "[");
  ([0x3011], cps "]");
  ([0xFF05], cps "%")
].

Definition UNICODE_REPLACEMENTS_REGEX : list (list atom) :=
  compile (fst <$> UNICODE_REPLACEMENTS).

(** Quote patterns, as the lists joined into the two patterns hold them. *)
Definition DOUBLE_QUOTES : list str := [
  [0xAB];
  [0x2039];
  [0xBB];
  [0x203A];
  [0x201E];
  [44; 32; 34; 0x201F; 34; 44; 32];
  [0x275D];
  [0x275E];
  [0x276E];
  [0x276F];
  [0x301D];
  [0x301E];
  [0x301F];
  [0xFF02]
].

Definition DOUBLE_QUOTE_REGEX : list (list atom) := compile DOUBLE_QUOTES.

Definition SINGLE_QUOTES : list str := [
  [39]; [0x201B]; [39]; [0x275B]; [0x275C]; [96]; [0xB4]; [39]; [39]
].

Definition SINGLE_QUOTE_REGEX : list (list atom) := compile SINGLE_QUOTES.

(** [d.get(k, default)] *)
Definition dict_get (d : list (str * str)) (k dflt : str) : str :=
  default dflt (snd <$> List.find (λ kv, bool_decide (kv.1 = k)) d).

(** [f"{match.group(1)}"]: a group that took no part prints as [None]. *)
Definition format_group (g : option N) : str :=
  match g with
  | Some c => [c]
  | None => cps "None"
  end.

(** The callable of the replacement pass:
    [lambda match: UNICODE_REPLACEMENTS.get(match.group(0), f"{match.group(1)}\u09cc")],
    reading the dict as it stands at the call. *)
Definition unicode_replacement (table : list (str * str)) (m : str * option N) : str :=
  dict_get table m.1 (format_group m.2 ++ [0x9CC]).

(** The replacement pass of [normalize] over the module's own table. *)
Definition unicode_replacements_pass (text : str) : str :=
  sub UNICODE_REPLACEMENTS_REGEX (unicode_replacement UNICODE_REPLACEMENTS) text.

(** Fix quote characters in text. *)
Definition fix_quotes (text : str) : str :=
  let text := sub SINGLE_QUOTE_REGEX (λ _, cps "'") text in
  let text := sub DOUBLE_QUOTE_REGEX (λ _, [34]) text in
  text.

End Tables.

(** ** Backtracking patterns

    The part of the pattern language the remaining patterns of the module
    use, with the matching order of a backtracking engine: the matches of
    a pattern at a position are listed in the order the engine would try
    them, so the first of the list is the match it reports. *)

Module Re.

Definition ascii_digit (c : N) : bool := (48 <=? c) && (c <=? 57).

Definition ascii_word (c : N) : bool :=
  PyStr.is_ascii_upper c || PyStr.is_ascii_lower c || ascii_digit c || (c =? 95).

Definition ascii_space (c : N) : bool := ((9 <=? c) && (c <=? 13)) || (c =? 32).

(** The character classes of [regex] under the [UNICODE] flag, and the
    case variants of a code point (itself apart) that [IGNORECASE]
    compares. The laws pin the ASCII rows of three classes. *)
Class RegexTables := {
  re_word : N → bool;      (* \w *)
  re_digit : N → bool;     (* \d *)
  re_space : N → bool;     (* \s *)
  re_punct : N → bool;     (* \p{punct} *)
  re_other_cases : N → list N;
  re_word_ascii : ∀ c, c < 128 → re_word c = ascii_word c;
  re_digit_ascii : ∀ c, c < 128 → re_digit c = ascii_digit c;
  re_space_ascii : ∀ c, c < 128 → re_space c = ascii_space c
}.

Variant item :=
  | IChar (c : N)
  | IRange (lo hi : N)
  | IWord
  | IDigit
  | ISpace
  | IPunct.

Inductive re :=
  | Eps
  | Chr (c : N)
  | Set_ (negated : bool) (items : list item)
  | Cat (r1 r2 : re)
  | Alt (r1 r2 : re)
  | Rep (r : re) (lo : nat) (hi : option nat)   (* greedy r{lo,hi} *)
  | Bol                                          (* ^ *)
  | NotAhead (r : re)                            (* (?!r) *)
  | NotAfter (items : list item)                 (* (?<![items]) *)
  | Group (r : re).                              (* (r) *)

Declare Scope re_scope.
Delimit Scope re_scope with re.
Bind Scope re_scope with re.
Infix "⋅" := Cat (at level 40, left associativity) : re_scope.
Infix "∣" := Alt (at level 50, left associativity) : re_scope.

(** A position in the subject: the code point before it, if any, and the
    text from it on. *)
Record pos := Pos { before : option N; rest : str }.

Definition opt (r : re) : re := Rep r 0 (Some 1%nat).
Definition star (r : re) : re := Rep r 0 None.
Definition plus (r : re) : re := Rep r 1 None.
Definition times (r : re) (n : nat) : re := Rep r n (Some n).
Definition between (r : re) (lo hi : nat) : re := Rep r lo (Some hi).
Definition at_least (r : re) (lo : nat) : re := Rep r lo None.

(** A run of literal code points. *)
Fixpoint lits (s : str) : re :=
  match s with
  | [] => Eps
  | [c] => Chr c
  | c :: s' => Cat (Chr c) (lits s')
  end.

Definition lit (s : string) : re := lits (cps s).
Definition chr (s : string) : re := lits (cps s).
Definition ichr (s : string) : item := IChar (default 0 (head (cps s))).
Definition irange (lo hi : string) : item :=
  IRange (default 0 (head (cps lo))) (default 0 (head (cps hi))).
Definition digit : re := Set_ false [IDigit].
Definition nonspace : re := Set_ true [ISpace].

Section matcher.
Context `{RT : RegexTables}.
Variable ignorecase : bool.

Definition in_item (x : N) (it : item) : bool :=
  match it with
  | IChar c => x =? c
  | IRange lo hi => (lo <=? x) && (x <=? hi)
  | IWord => re_word x
  | IDigit => re_digit x
  | ISpace => re_space x
  | IPunct => re_punct x
  end.

(** The code points [x] is compared as: itself, and under [IGNORECASE] its
    case variants. *)
Definition cases (x : N) : list N :=
  if ignorecase then x :: re_other_cases x else [x].

Definition chr_matches (c x : N) : bool := existsb (N.eqb c) (cases x).

Definition set_matches (negated : bool) (items : list item) (x : N) : bool :=
  xorb negated (existsb (λ y, existsb (in_item y) items) (cases x)).

(** One code point consumed when [ok] accepts it. *)
Definition step (ok : N → bool) (p : pos) : list pos :=
  match rest p with
  | x :: text' => if ok x then [Pos (Some x) text'] else []
  | [] => []
  end.

Definition progress (p p' : pos) : bool :=
  (length (rest p') <? length (rest p))%nat.

(** Greedy repetition: one more turn of [m] first, as long as the bound
    allows and the turn consumed something, then the way out if [lo]
    turns are done. [fuel] exceeds the length of the text left. *)
Fixpoint rep (m : pos → list pos) (fuel lo : nat) (hi : option nat) (p : pos)
    : list pos :=
  match fuel with
  | O => if decide (lo = 0%nat) then [p] else []
  | S fuel' =>
      (if decide (hi = Some 0%nat) then []
       else p' ← List.filter (progress p) (m p);
            rep m fuel' (pred lo) (pred <$> hi) p')
      ++ (if decide (lo = 0%nat) then [p] else [])
  end.

(** The positions after the matches of [r] at [p], most preferred first. *)
Fixpoint matches (r : re) (p : pos) : list pos :=
  match r with
  | Eps => [p]
  | Chr c => step (chr_matches c) p
  | Set_ negated items => step (set_matches negated items) p
  | Cat r1 r2 => p' ← matches r1 p; matches r2 p'
  | Alt r1 r2 => matches r1 p ++ matches r2 p
  | Rep r lo hi => rep (matches r) (S (length (rest p))) lo hi p
  | Bol => if before p is None then [p] else []
  | NotAhead r => if matches r p is [] then [p] else []
  | NotAfter items =>
      match before p with
      | Some x => if set_matches false items x then [] else [p]
      | None => [p]
      end
  | Group r => matches r p
  end.

(** The match the engine reports at [p]. *)
Definition match_at (r : re) (p : pos) : option pos := head (matches r p).

(** Whether some step of [r] takes the code point [x]: a pattern none of
    whose steps takes [x] has no match that runs over an [x]. *)
Fixpoint consumes (r : re) (x : N) : bool :=
  match r with
  | Chr c => chr_matches c x
  | Set_ negated items => set_matches negated items x
  | Cat r1 r2 | Alt r1 r2 => consumes r1 x || consumes r2 x
  | Rep r _ _ | Group r => consumes r x
  | Eps | Bol | NotAhead _ | NotAfter _ => false
  end.

(** [pattern.sub(repl, text)] with a string [repl] that holds no
    backslash: [regex] reads a string replacement as a template, and a
    template without a backslash stands for itself, as the default [' ']
    of [normalize] does. [skip] and the empty match as in
    [Alternation.sub_from], [prev] the code point before the text left. *)
Fixpoint sub_from (r : re) (repl : str) (skip : nat) (prev : option N)
    (text : str) : str :=
  match text with
  | [] =>
      match skip, match_at r (Pos prev []) with
      | O, Some _ => repl
      | _, _ => []
      end
  | c :: text' =>
      match skip with
      | S k => sub_from r repl k (Some c) text'
      | O =>
          match match_at r (Pos prev text) with
          | Some p' =>
              match (length text - length (rest p'))%nat with
              | O => repl ++ c :: sub_from r repl 0 (Some c) text'
              | S k => repl ++ sub_from r repl k (Some c) text'
              end
          | None => c :: sub_from r repl 0 (Some c) text'
          end
      end
  end.

Definition sub (r : re) (repl : str) (text : str) : str :=
  sub_from r repl 0 None text.

(** The positions of a text, from the one [prev] stands before to its end. *)
Fixpoint positions (prev : option N) (text : str) : list pos :=
  Pos prev text ::
  match text with
  | [] => []
  | c :: text' => positions (Some c) text'
  end.

(** [r] matches at no position of the text. *)
Definition matches_nowhere (r : re) (text : str) : bool :=
  forallb (λ p, if matches r p is [] then true else false) (positions None text).

End matcher.

(** The tables cut down to ASCII: a code point from 128 on is in no class
    and has no case variant. The variants outside ASCII of an ASCII letter
    (U+212A for k, U+017F for s) are left out: no pattern of the module
    names a code point outside ASCII, so they decide no match. It serves
    to evaluate the patterns on ASCII text. *)
Definition ascii_tables : RegexTables := {|
  re_word c := ascii_word c;
  re_digit c := ascii_digit c;
  re_space c := ascii_space c;
  re_punct c :=
    bool_decide (c ∈ cps "!#%&'()*,-./:;?@[\]_{}") || (c =? 34);
  re_other_cases c :=
    if PyStr.is_ascii_upper c then [c + 32]
    else if PyStr.is_ascii_lower c then [c - 32] else [];
  re_word_ascii _ _ := eq_refl;
  re_digit_ascii _ _ := eq_refl;
  re_space_ascii _ _ := eq_refl
|}.

End Re.

(** ** The patterns of [normalize] *)

Module Patterns.
Import Re.
Local Open Scope re_scope.

(** [[a-z\\u00a1-\\uffff0-9]] as the pattern syntax reads the source text:
    after the range a-z come an escaped backslash, the letters u, 0, 0, a,
    the range from 1 to a backslash, the letters u, f, f, f, f, and the
    range 0-9. *)
Definition label_set : re :=
  Set_ false [irange "a" "z"; ichr "\"; ichr "u"; ichr "0"; ichr "0"; ichr "a";
              irange "1" "\"; ichr "u"; ichr "f"; ichr "f"; ichr "f"; ichr "f";
              irange "0" "9"].

(** [[a-z\\u00a1-\\uffff]] *)
Definition tld_set : re :=
  Set_ false [irange "a" "z"; ichr "\"; ichr "u"; ichr "0"; ichr "0"; ichr "a";
              irange "1" "\"; ichr "u"; ichr "f"; ichr "f"; ichr "f"; ichr "f"].

(** [(?:^|(?<![\w\/\.]))] *)
Definition url_boundary : re := Bol ∣ NotAfter [IWord; ichr "/"; ichr "."].

(** [(?:(?:https?:\/\/|ftp:\/\/|www\d{0,3}\.))] *)
Definition url_prefix : re :=
  lit "http" ⋅ opt (chr "s") ⋅ lit "://"
  ∣ lit "ftp://"
  ∣ lit "www" ⋅ between digit 0 3 ⋅ chr ".".

(** The optional user part: [\S+], then optionally a colon and [\S]
    repeated, then [@]. *)
Definition url_userinfo : re :=
  opt (plus nonspace ⋅ opt (chr ":" ⋅ star nonspace) ⋅ chr "@").

(** The three exclusions of the branch for a dotted quad. *)
Definition private_10_127 : re :=
  (lit "10" ∣ lit "127") ⋅ times (chr "." ⋅ between digit 1 3) 3.

Definition private_169_192 : re :=
  (lit "169.254" ∣ lit "192.168") ⋅ times (chr "." ⋅ between digit 1 3) 2.

Definition private_172 : re :=
  lit "172." ⋅
  (chr "1" ⋅ Set_ false [irange "6" "9"] ∣ chr "2" ⋅ digit
   ∣ chr "3" ⋅ Set_ false [irange "0" "1"]) ⋅
  times (chr "." ⋅ between digit 1 3) 2.

(** The branch for a dotted quad, behind the three exclusions. *)
Definition url_ip : re :=
  NotAhead private_10_127 ⋅
  NotAhead private_169_192 ⋅
  NotAhead private_172 ⋅
  (Set_ false [irange "1" "9"] ⋅ opt digit ∣ chr "1" ⋅ digit ⋅ digit
   ∣ chr "2" ⋅ Set_ false [ichr "0"; ichr "1"] ⋅ digit
   ∣ lit "22" ⋅ Set_ false [irange "0" "3"]) ⋅
  times (chr "." ⋅
         (opt (chr "1") ⋅ between digit 1 2 ∣ chr "2" ⋅ Set_ false [irange "0" "4"] ⋅ digit
          ∣ lit "25" ⋅ Set_ false [irange "0" "5"])) 2 ⋅
  (chr "." ⋅
   (Set_ false [irange "1" "9"] ⋅ opt digit ∣ chr "1" ⋅ digit ⋅ digit
    ∣ chr "2" ⋅ Set_ false [irange "0" "4"] ⋅ digit
    ∣ lit "25" ⋅ Set_ false [irange "0" "4"])).

(** The branch for a host name that ends in a top-level domain. *)
Definition url_domain : re :=
  (star (label_set ⋅ opt (chr "-")) ⋅ plus label_set) ⋅
  star (chr "." ⋅ star (label_set ⋅ opt (chr "-")) ⋅ plus label_set) ⋅
  (chr "." ⋅ at_least tld_set 2).

Definition url_host : re := url_ip ∣ url_domain ∣ Group (lit "localhost").

(** [(?::\d{2,5})?] *)
Definition url_port : re := opt (chr ":" ⋅ between digit 2 5).

(** The optional path: a slash, then any run of code points other than a
    closing bracket of the three kinds and white space. *)
Definition url_path : re :=
  opt (chr "/" ⋅ star (Set_ true [ichr ")"; ichr "]"; ichr "}"; ISpace])).

(** Compiled with [re.UNICODE | re.IGNORECASE]. *)
Definition URL_HANDLER_REGEX : re :=
  url_boundary ⋅ url_prefix ⋅ url_userinfo ⋅ url_host ⋅ url_port ⋅ url_path.

(** Under [IGNORECASE], [r] has a match from [p] that ends where [t] is
    left. *)
Definition reaches `{RT : RegexTables} (r : re) (p : pos) (t : str) : Prop :=
  ∃ b, Pos b t ∈ matches true r p.

(** An octet as the exclusions read it: one to three decimal digits. *)
Definition octet `{RT : RegexTables} (o : str) : bool :=
  (1 <=? length o)%nat && (length o <=? 3)%nat && forallb re_digit o.

(** The first two octets of a dotted quad in the ranges 10.x, 127.x,
    169.254.x, 192.168.x and 172.16 to 172.31. *)
Definition private_range (o1 o2 : str) : bool :=
  bool_decide (o1 = cps "10") || bool_decide (o1 = cps "127") ||
  bool_decide (o1 = cps "169") && bool_decide (o2 = cps "254") ||
  bool_decide (o1 = cps "192") && bool_decide (o2 = cps "168") ||
  bool_decide (o1 = cps "172") &&
  match o2 with
  | [a; b] =>
      (a =? 49) && (54 <=? b) && (b <=? 57) ||
      (a =? 50) && ascii_digit b ||
      (a =? 51) && (48 <=? b) && (b <=? 49)
  | _ => false
  end.

(** [o1.o2.o3.o4] followed by [rest]. *)
Definition dotted_quad (o1 o2 o3 o4 rest : str) : str :=
  o1 ++ 46 :: o2 ++ 46 :: o3 ++ 46 :: o4 ++ rest.

(** *** URLs in parts

    A URL as the pattern takes it apart: one of the prefixes, an optional
    user part before an [@], a host, an optional port after a colon and
    an optional path after a slash. *)
Variant host :=
  | Localhost
  | HostName (label : str) (labels : list str) (tld : str).

Record url := Url {
  u_prefix : str;
  u_user : option str;
  u_host : host;
  u_port : option str;
  u_path : option str
}.

(** [label.labels.tld] *)
Definition host_text (h : host) : str :=
  match h with
  | Localhost => cps "localhost"
  | HostName label labels tld =>
      label ++ concat ((λ l, 46 :: l) <$> labels) ++ 46 :: tld
  end.

Definition user_text (user : option str) : str :=
  if user is Some s then s ++ [64] else [].

Definition port_text (port : option str) : str :=
  if port is Some digits then 58 :: digits else [].

Definition path_text (path : option str) : str :=
  if path is Some s then 47 :: s else [].

Definition url_text (u : url) : str :=
  u_prefix u ++ user_text (u_user u) ++ host_text (u_host u) ++
  port_text (u_port u) ++ path_text (u_path u).

Definition ascii_letter (x : N) : bool :=
  PyStr.is_ascii_upper x || PyStr.is_ascii_lower x.

Definition ascii_alnum (x : N) : bool := ascii_letter x || ascii_digit x.

(** A label: letters and digits of ASCII, at least one. *)
Definition label_ok (l : str) : bool :=
  if l is [] then false else forallb ascii_alnum l.

(** A host name starts with a letter; its top-level domain is two
    letters or more. *)
Definition host_ok (h : host) : bool :=
  match h with
  | Localhost => true
  | HostName label labels tld =>
      (if label is x :: _ then ascii_letter x else false) &&
      label_ok label && forallb label_ok labels &&
      forallb ascii_letter tld && (2 <=? length tld)%nat
  end.

(** The user part: printable ASCII code points other than the space, at
    least one. *)
Definition user_char (x : N) : bool := (33 <=? x) && (x <=? 126).

Definition user_ok (user : option str) : bool :=
  match user with
  | Some [] => false
  | Some s => forallb user_char s
  | None => true
  end.

(** Behind the user part stands no further [@]. *)
Definition rest_char (x : N) : bool := user_char x && negb (x =? 64).

(** The port: two to five digits. *)
Definition port_ok (port : option str) : bool :=
  match port with
  | Some digits =>
      forallb ascii_digit digits &&
      (2 <=? length digits)%nat && (length digits <=? 5)%nat
  | None => true
  end.

(** The path: printable ASCII code points other than the space, the
    three closing brackets and [@]. *)
Definition path_char (x : N) : bool :=
  rest_char x && negb (x =? 41) && negb (x =? 93) && negb (x =? 125).

Definition path_ok (path : option str) : bool :=
  if path is Some s then forallb path_char s else true.

Definition prefix_ok (prefix : str) : bool :=
  bool_decide (prefix ∈ [cps "http://"; cps "https://"; cps "ftp://"; cps "www."]).

Definition url_ok (u : url) : bool :=
  prefix_ok (u_prefix u) && user_ok (u_user u) && host_ok (u_host u) &&
  port_ok (u_port u) && path_ok (u_path u).

(** Where the pattern may start: at the start of the text, or behind an
    ASCII code point that is no word character, slash or dot. *)
Definition boundary_ok (prev : option N) : bool :=
  match prev with
  | Some x => (x <? 128) && negb (ascii_word x || (x =? 47) || (x =? 46))
  | None => true
  end.

(** What may follow a URL: the end of the text, or ASCII text that starts
    with white space. *)
Definition tail_ok (tail : str) : bool :=
  forallb (λ x, x <? 128) tail &&
  (if tail is w :: _ then ascii_space w else true).

(** [\s+] *)
Definition WHITESPACE_HANDLER_REGEX : re := plus (Set_ false [ISpace]).

(** [\p{punct}] *)
Definition PUNCT_HANDLER_REGEX : re := Set_ false [IPunct].

End Patterns.

(** ** [normalize] and [process_extracted_text] *)

Module Normalizer.
Import PyStr Tables Patterns.

Variant form := NFC | NFKC | NFD | NFKD.

(** What [normalize] takes from [ftfy], [unicodedata] and [emoji]. The
    laws say that each leaves the empty string empty. *)
Class TextLibs := {
  fix_text : str → str;        (* ftfy.fix_text(text, normalization="NFC", explain=False) *)
  normal_form : form → str → str;
  emoji_sub : str → str → str; (* EMOJI_HANDLER_REGEX.sub(repl, text) *)
  fix_text_empty : fix_text [] = [];
  normal_form_empty : ∀ f, normal_form f [] = [];
  emoji_sub_empty : ∀ repl, emoji_sub repl [] = []
}.

Definition parse_form (name : str) : option form :=
  if decide (name = cps "NFC") then Some NFC
  else if decide (name = cps "NFKC") then Some NFKC
  else if decide (name = cps "NFD") then Some NFD
  else if decide (name = cps "NFKD") then Some NFKD
  else None.

Section normalize.
Context `{UC : UnicodeCase} `{RT : Re.RegexTables} `{TL : TextLibs}.

(** [unicodedata.normalize(name, text)]: the empty string is handed back
    before the name of the form is looked at; on any other text a name
    that is none of the four forms raises. *)
Definition unicodedata_normalize (name : str) (text : str) : result str :=
  match text with
  | [] => Ok []
  | _ =>
      match parse_form name with
      | Some f => Ok (normal_form f text)
      | None => Raise (ValueError "invalid normalization form")
      end
  end.

(** Normalize text by fixing encoding, replacing special characters, and
    cleaning up. A replacement that is [None] skips its stage. *)
Definition normalize (text : str) (unicode_norm : str)
    (punct_replacement url_replacement emoji_replacement : option str)
    (apply_unicode_norm_last : bool) : Py str :=
  (* Fix encoding related issues first *)
  let text := fix_text text in
  (* Normalize variations of quotes *)
  let text := fix_quotes text in
  (* Replace URLs in text with specified replacement (if any) *)
  let text := match url_replacement with
              | Some r => Re.sub true URL_HANDLER_REGEX r text
              | None => text
              end in
  (* Replace punctuations with specified replacement (if any) *)
  let text := match punct_replacement with
              | Some r => Re.sub false PUNCT_HANDLER_REGEX r text
              | None => text
              end in
  (* Replace emojis in text with specified replacement (if any) *)
  let text := match emoji_replacement with
              | Some r => emoji_sub r text
              | None => text
              end in
  (* Apply char replacements *)
  table ← global g_CHAR_REPLACEMENTS;
  let text := translate table text in
  text ← (if apply_unicode_norm_last then mret text
          else lift (unicodedata_normalize unicode_norm text));
  (* Apply unicode replacements *)
  d ← global g_UNICODE_REPLACEMENTS;
  let text := Alternation.sub UNICODE_REPLACEMENTS_REGEX (unicode_replacement d) text in
  text ← (if apply_unicode_norm_last then lift (unicodedata_normalize unicode_norm text)
          else mret text);
  (* Finally clean up extra whitespaces *)
  let text := Re.sub false WHITESPACE_HANDLER_REGEX (cps " ") text in
  mret (strip text).

(** [normalize(text)] with the defaults of its signature. *)
Definition normalize_default (text : str) : Py str :=
  normalize text (cps "NFKC") (Some (cps " ")) (Some (cps " ")) (Some (cps " ")) true.

(** Full pipeline: filter noise keywords and normalize text. *)
Definition process_extracted_text (detected_text : list str) : Py str :=
  filtered ← Noise.filter_noise_keywords detected_text;
  let cleaned_corpus := join (cps " ") filtered.1 in
  normalize_default cleaned_corpus.

End normalize.

(** The module's containers once it is imported. *)
Definition module_globals : globals := {|
  g_CHAR_REPLACEMENTS := CHAR_REPLACEMENTS;
  g_UNICODE_REPLACEMENTS := UNICODE_REPLACEMENTS;
  g_NOISE_KEYWORDS := Noise.NOISE_KEYWORDS
|}.

(** Stand-ins for the three libraries that leave every text as it is: on
    text in normal form, free of mis-decoded bytes and of emoji, the
    libraries do the same. *)
Definition identity_libs : TextLibs := {|
  fix_text text := text;
  normal_form _ text := text;
  emoji_sub _ text := text;
  fix_text_empty := eq_refl;
  normal_form_empty _ := eq_refl;
  emoji_sub_empty _ := eq_refl
|}.

End Normalizer.

(** ** The decision rule of [predict] *)

Module Model.
Local Open Scope Z_scope.

(** A Python float is a binary64 number: 53 bits of precision, exponents
    below 1024. *)
Definition prec : Z := 53.
Definition emax : Z := 1024.

Definition zero : spec_float := S754_zero false.
Definition half : spec_float := S754_finite false (2 ^ 52) (-53).
Definition one : spec_float := S754_finite false (2 ^ 52) (-52).

(** [a > b] and [a - b] on floats. *)
Definition gt (a b : spec_float) : bool := SFltb b a.
Definition fsub (a b : spec_float) : spec_float := SFsub prec emax a b.

Variant label := Political | NonPolitical.

(** The dict that [predict] returns. *)
Record prediction_result := {
  prediction : label;
  confidence : spec_float;
  political_probability : spec_float;
  non_political_probability : spec_float
}.

(** The last lines of [predict], from the value [prob] of
    [torch.sigmoid(outputs).item()]. *)
Definition decide_prediction (prob : spec_float) : prediction_result :=
  let prediction := if gt prob half then Political else NonPolitical in
  let confidence := if gt prob half then prob else fsub one prob in
  {| prediction := prediction;
     confidence := confidence;
     political_probability := prob;
     non_political_probability := fsub one prob |}.

Section predict.
Context {Image Text : Type}.
(** Preprocessing, tokenizing, the forward pass and the sigmoid. *)
Variable sigmoid_of_forward : Image → Text → spec_float.

Definition predict (image : Image) (text : Text) : prediction_result :=
  let prob := sigmoid_of_forward image text in
  decide_prediction prob.

End predict.

(** The value of a float counted in units of 2^-1074, the spacing of the
    smallest binary64 numbers: an integer for every finite float. *)
Definition units (x : spec_float) : Z :=
  match x with
  | S754_finite s m e => cond_Zopp s (Zpos m * 2 ^ (e + 1074))
  | _ => 0
  end.

(** A probability: a binary64 number from 0 to 1. *)
Definition probability (p : spec_float) : Prop :=
  valid_binary prec emax p = true ∧ SFleb zero p = true ∧ SFleb p one = true.

End Model.

(** ** The [/predict] handler of [main.py] *)

Module Main.
Import PyStr.

(** [HTTPException(status_code=..., detail=...)], the one exception that
    leaves the handler. *)
Record http_exception := HTTPException { status_code : N; detail : str }.

(** The response model. *)
Record PredictionResponse := {
  success : bool;
  prediction : Model.label;
  confidence : spec_float;
  political_probability : spec_float;
  non_political_probability : spec_float;
  extracted_text : list str;
  normalized_text : str;
  message : option str
}.

(** A call into a library: the value it returns, or [str(e)] of the
    exception [e] it raises. *)
Variant outcome (A : Type) := Returns (a : A) | Raises (message : str).
Arguments Returns {A} a.
Arguments Raises {A} message.

(** A value that [json.loads] builds. [extract_text] hands on what it
    finds under [detected_text] without looking at it, so any of these can
    reach the handler. *)
#[local] Unset Elimination Schemes.
Inductive value :=
  | VNone
  | VBool (b : bool)
  | VInt (n : Z)
  | VFloat (x : spec_float)
  | VStr (s : str)
  | VList (items : list value)
  | VDict (items : list (str * value)).
#[local] Set Elimination Schemes.

(** [type(v).__name__] *)
Definition type_name (v : value) : str :=
  match v with
  | VNone => cps "NoneType"
  | VBool _ => cps "bool"
  | VInt _ => cps "int"
  | VFloat _ => cps "float"
  | VStr _ => cps "str"
  | VList _ => cps "list"
  | VDict _ => cps "dict"
  end.

(** [bool(v)]: [None], [False], a zero and an empty container count as
    false. *)
Definition truth (v : value) : bool :=
  match v with
  | VNone => false
  | VBool b => b
  | VInt n => negb (n =? 0)%Z
  | VFloat x => if x is S754_zero _ then false else true
  | VStr s => if s is [] then false else true
  | VList items => if items is [] then false else true
  | VDict items => if items is [] then false else true
  end.

(** [iter(v)], which the loop of [filter_noise_keywords] runs over: a
    string gives its code points as strings, a dict its keys. *)
Definition iterate (v : value) : outcome (list value) :=
  match v with
  | VStr s => Returns ((λ c, VStr [c]) <$> s)
  | VList items => Returns items
  | VDict items => Returns ((λ kv, VStr kv.1) <$> items)
  | _ => Raises (cps "'" ++ type_name v ++ cps "' object is not iterable")
  end.

(** The items as [get_norm] takes them: [item.lower()] raises
    [AttributeError] at the first item that is no string. *)
Fixpoint strings (items : list value) : outcome (list str) :=
  match items with
  | [] => Returns []
  | VStr s :: items =>
      match strings items with
      | Returns fragments => Returns (s :: fragments)
      | Raises e => Raises e
      end
  | v :: _ =>
      Raises (cps "'" ++ type_name v ++ cps "' object has no attribute 'lower'")
  end.

(** [except Exception as e: raise HTTPException(status_code=500, ...)] *)
Definition internal_error (message : str) : http_exception :=
  HTTPException 500 (cps "Internal server error: " ++ message).

Section predict_meme.
Context `{UC : UnicodeCase} `{RT : Re.RegexTables} `{TL : Normalizer.TextLibs}.
Context {Upload Image : Type}.
(** [Image.open(BytesIO(await file.read())).convert("RGB")] *)
Variable open_image : Upload → outcome Image.
(** [gemini_extractor.extract_text(image)]: it catches every exception of
    its own, and returns a list of its own making or the parsed
    [detected_text]. *)
Variable extract_text : Image → value.
(** The part of [predict] before the decision rule: preprocessing,
    tokenizing, the forward pass and the sigmoid. *)
Variable sigmoid_of_forward : Image → str → outcome spec_float.
(** [str(e)] of the [ValidationError] that the response model raises for
    an [extracted_text] that is no list. *)
Variable validation_error : value → str.

(** [process_extracted_text(extracted_text)] on whatever the extractor
    returned: the fragments the loop went over, and the normalized text. *)
Definition process_value (extracted_text : value)
    : globals → outcome (list str * str) * globals :=
  λ g,
  match iterate extracted_text with
  | Raises e => (Raises e, g)
  | Returns items =>
      match strings items with
      | Raises e => (Raises e, g)
      | Returns fragments =>
          match Normalizer.process_extracted_text fragments g with
          | (Raise (ValueError e), g') => (Raises (cps e), g')
          | (Ok normalized_text, g') => (Returns (fragments, normalized_text), g')
          end
      end
  end.

(** [predict_meme(file)], from the content type the upload declares
    ([None] where it declares none) and its body. *)
Definition predict_meme (content_type : option str) (file : Upload)
    : globals → (http_exception + PredictionResponse) * globals :=
  λ g,
  match content_type with
  | None =>
      (* file.content_type.startswith raises AttributeError *)
      (inl (internal_error
              (cps "'NoneType' object has no attribute 'startswith'")), g)
  | Some content_type =>
      (* Validate file type *)
      if negb (startswith (cps "image/") content_type) then
        (inl (HTTPException 400 (cps "Uploaded file must be an image")), g)
      else
        (* Read and open image *)
        match open_image file with
        | Raises e => (inl (internal_error e), g)
        | Returns image =>
            (* Step 1: Extract text using Gemini *)
            let extracted_text := extract_text image in
            let extracted_text :=
              if truth extracted_text then extracted_text else VList [] in
            (* Step 2: Clean and normalize text *)
            match process_value extracted_text g with
            | (Raises e, g') => (inl (internal_error e), g')
            | (Returns (fragments, normalized_text), g') =>
                (* If normalized text is empty, use a placeholder *)
                let normalized_text :=
                  match strip normalized_text with
                  | [] => cps "[no text detected]"
                  | _ => normalized_text
                  end in
                (* Step 3: Make prediction *)
                match sigmoid_of_forward image normalized_text with
                | Raises e => (inl (internal_error e), g')
                | Returns prob =>
                    let result := Model.decide_prediction prob in
                    (* Return response: the field extracted_text takes a list,
                       here the list of the fragments *)
                    match extracted_text with
                    | VList _ =>
                        (inr {| success := true;
                                prediction := Model.prediction result;
                                confidence := Model.confidence result;
                                political_probability :=
                                  Model.political_probability result;
                                non_political_probability :=
                                  Model.non_political_probability result;
                                extracted_text := fragments;
                                normalized_text := normalized_text;
                                message :=
                                  Some (cps "Prediction completed successfully") |},
                         g')
                    | _ =>
                        (inl (internal_error (validation_error extracted_text)), g')
                    end
                end
            end
        end
  end.

End predict_meme.

End Main.

(** * Properties *)

(** ** Strings *)

Section string_facts.
Import PyStr.

Lemma startswith_app (p t : str) : startswith p (p ++ t) = true.
Proof.
  induction p as [|a p IH]; simpl; [done|].
  by rewrite N.eqb_refl.
Qed.

Lemma startswith_prefix (p t : str) :
  startswith p t = true ↔ ∃ u, t = p ++ u.
Proof.
  revert t. induction p as [|a p IH]; intros t; simpl.
  - split; [eauto|done].
  - destruct t as [|b t]; simpl.
    + split; [done|]. by intros [u Hu].
    + rewrite andb_true_iff, N.eqb_eq, IH. split.
      * intros [-> [u ->]]. eauto.
      * intros [u Hu]. simplify_eq. eauto.
Qed.

Lemma contains_unfold (needle hay : str) :
  contains needle hay =
  startswith needle hay || match hay with [] => false | _ :: hay' => contains needle hay' end.
Proof. by destruct hay. Qed.

Lemma contains_app (needle a b : str) : contains needle (a ++ needle ++ b) = true.
Proof.
  induction a as [|c a IH]; simpl.
  - by rewrite contains_unfold, startswith_app.
  - rewrite IH. apply orb_true_r.
Qed.

(** [needle in hay] holds exactly when [hay] holds [needle] as a run of
    consecutive code points. *)
Lemma contains_infix (needle hay : str) :
  contains needle hay = true ↔ ∃ a b, hay = a ++ needle ++ b.
Proof.
  split.
  - induction hay as [|c hay IH]; simpl.
    + rewrite orb_false_r. intros H%startswith_prefix. destruct H as [u ->].
      by exists [], u.
    + rewrite orb_true_iff. intros [H%startswith_prefix|H].
      * destruct H as [u ->]. by exists [], u.
      * destruct (IH H) as (a & b & ->). by exists (c :: a), b.
  - intros (a & b & ->). apply contains_app.
Qed.

Lemma replace_app (old : N) (new a b : str) :
  replace old new (a ++ b) = replace old new a ++ replace old new b.
Proof.
  induction a as [|c a IH]; simpl; [done|]. by rewrite IH, app_assoc.
Qed.

Lemma join_nil (sep : str) : join sep [] = [].
Proof. done. Qed.

Section lower_facts.
Context `{UC : UnicodeCase}.

(** ASCII code points other than U+03A3 lower one by one, whatever stands
    around them. *)
Lemma do_lower_ascii (before s rest : str) :
  Forall (λ c, c < 128) s →
  do_lower before (s ++ rest) =
  (ascii_tolower <$> s) ++ do_lower (rev s ++ before) rest.
Proof.
  intros Hs. revert before. induction Hs as [|c s Hc Hs IH]; intros before; simpl.
  - done.
  - unfold lower_ucs4. destruct (N.eqb_spec c 0x3A3) as [->|_]; [lia|].
    rewrite (ToLowerFull_ascii c Hc), IH. simpl. by rewrite <- app_assoc.
Qed.

Lemma do_lower_infix (before a s b : str) :
  Forall (λ c, c < 128) s →
  ∃ x y, do_lower before (a ++ s ++ b) = x ++ (ascii_tolower <$> s) ++ y.
Proof.
  intros Hs. revert before. induction a as [|c a IH]; intros before; simpl.
  - exists [], (do_lower (rev s ++ before) b). by rewrite do_lower_ascii.
  - destruct (IH (c :: before)) as (x & y & ->).
    exists (lower_ucs4 before (a ++ s ++ b) c ++ x), y. by rewrite app_assoc.
Qed.

Lemma lower_ascii (s : str) :
  Forall (λ c, c < 128) s → lower s = ascii_tolower <$> s.
Proof.
  intros Hs. unfold lower. rewrite <- (app_nil_r s) at 1.
  rewrite do_lower_ascii by done. simpl. apply app_nil_r.
Qed.

End lower_facts.
End string_facts.

(** ** Noise filtering *)

Section noise_facts.
Import PyStr Noise.
Context `{UC : UnicodeCase}.

Lemma find_app_l {A} (f : A → bool) (l1 l2 : list A) :
  List.find f (l1 ++ l2) =
  match List.find f l1 with Some x => Some x | None => List.find f l2 end.
Proof. induction l1 as [|a l1 IH]; simpl; [done|]. by destruct (f a). Qed.

Lemma find_none_not_in {A} (f : A → bool) (l : list A) (x : A) :
  List.find f l = None → x ∈ l → f x = false.
Proof.
  induction l as [|a l IH]; simpl; [by intros _ ?%elem_of_nil|].
  destruct (f a) eqn:E; [done|].
  intros H [->|Hx]%elem_of_cons; auto.
Qed.

Lemma first_keyword_dict_set (d : list (str * str)) (k n : str) :
  Forall (λ kv, kv.2 = get_norm kv.1) d →
  first_keyword (dict_set d k (get_norm k)) n =
  match first_keyword d n with
  | Some x => Some x
  | None => if contains (get_norm k) n then Some k else None
  end.
Proof.
  unfold first_keyword. induction 1 as [|[k' v'] d Hkv Hd IH]; simpl in *.
  - by destruct (contains (get_norm k) n).
  - subst v'. case_decide as Hk; simpl.
    + subst k'. destruct (contains (get_norm k) n) eqn:E; simpl; [done|].
      destruct (List.find _ d) as [[? ?]|] eqn:F; simpl; [done|].
      done.
    + destruct (contains (get_norm k') n); simpl; [done|]. apply IH.
Qed.

Lemma dict_set_keys (d : list (str * str)) (k : str) (seen : list str) :
  Forall (λ kv, kv.2 = get_norm kv.1 ∧ kv.1 ∈ seen) d →
  Forall (λ kv, kv.2 = get_norm kv.1 ∧ kv.1 ∈ seen ++ [k]) (dict_set d k (get_norm k)).
Proof.
  induction 1 as [|[k' v'] d [Hv Hin] Hd IH]; simpl in *.
  - constructor; [|done]. split; [done|]. set_solver.
  - case_decide; constructor; simpl; try done.
    + subst. split; [done|]. set_solver.
    + eapply Forall_impl; [exact Hd|]. intros ? [? ?]. split; [done|]. set_solver.
    + split; [done|]. set_solver.
Qed.

Lemma dict_inv_step (d : list (str * str)) (seen : list str) (k : str) :
  dict_inv d seen → dict_inv (dict_set d k (get_norm k)) (seen ++ [k]).
Proof.
  intros [Hd Hfind]. split; [by apply dict_set_keys|].
  intros n. rewrite first_keyword_dict_set, Hfind, find_app_l.
  - simpl. done.
  - eapply Forall_impl; [exact Hd|]. by intros ? [? ?].
Qed.

Lemma dict_inv_foldl (keywords : list str) (d : list (str * str)) (seen : list str) :
  dict_inv d seen →
  dict_inv (foldl (λ d k, dict_set d k (get_norm k)) d keywords) (seen ++ keywords).
Proof.
  revert d seen. induction keywords as [|k keywords IH]; intros d seen Hd; simpl.
  - by rewrite app_nil_r.
  - replace (seen ++ k :: keywords) with ((seen ++ [k]) ++ keywords)
      by by rewrite <- app_assoc.
    by apply IH, dict_inv_step.
Qed.

(** The inner loop over the dict credits the first keyword of the table
    that matches, repeated keywords or not. *)
Lemma first_keyword_credited (keywords : list str) (item : str) :
  first_keyword (normalized_keywords keywords) (get_norm item) = credited keywords item.
Proof.
  destruct (dict_inv_foldl keywords [] []) as [_ H].
  - split; [constructor|]. done.
  - apply H.
Qed.

Lemma credited_is_noise (keywords : list str) (item : str) :
  is_noise keywords item = bool_decide (is_Some (credited keywords item)).
Proof.
  unfold is_noise, credited. induction keywords as [|k ks IH]; simpl; [done|].
  by destruct (matches_keyword item k).
Qed.

Lemma filter_step_credited (keywords : list str) (acc : list str)
    (counts : gmap str nat) (item : str) :
  filter_step (normalized_keywords keywords) (acc, counts) item =
  match credited keywords item with
  | Some kw => (acc, <[kw := S (counts !!! kw)]> counts)
  | None => (acc ++ [item], counts)
  end.
Proof. unfold filter_step. by rewrite first_keyword_credited. Qed.

Lemma filter_loop (keywords : list str) (l : list str) (acc : list str) (counts : gmap str nat) :
  let r := foldl (filter_step (normalized_keywords keywords)) (acc, counts) l in
  r.1 = acc ++ List.filter (λ item, negb (is_noise keywords item)) l ∧
  ∀ kw, r.2 !!! kw = (counts !!! kw + credits keywords kw l)%nat.
Proof.
  revert acc counts. induction l as [|item l IH]; intros acc counts; simpl.
  - rewrite app_nil_r. split; [done|]. intros kw. unfold credits. simpl. lia.
  - rewrite filter_step_credited, credited_is_noise.
    unfold credits. simpl.
    destruct (credited keywords item) as [k|] eqn:Hc; simpl.
    + destruct (IH acc (<[k:=S (counts !!! k)]> counts)) as [H1 H2].
      split; [done|]. intros kw. rewrite H2. unfold credits.
      destruct (decide (k = kw)) as [->|Hne].
      * rewrite lookup_total_insert_eq, bool_decide_eq_true_2 by done. simpl. lia.
      * rewrite lookup_total_insert_ne by done.
        rewrite bool_decide_eq_false_2 by congruence. done.
    + destruct (IH (acc ++ [item]) counts) as [H1 H2].
      split; [by rewrite H1, <- app_assoc|].
      intros kw. rewrite H2. done.
Qed.

(** The call returns the module's containers as it found them. *)
Lemma filter_noise_keywords_run (text_list : list str) (g : globals) :
  filter_noise_keywords text_list g =
  (Ok (foldl (filter_step (normalized_keywords (g_NOISE_KEYWORDS g))) ([], ∅) text_list), g).
Proof. done. Qed.

End noise_facts.

(** C2, as amended: the normalized form is the lowercase text without its
    space characters (U+0020); other whitespace stays in it. With that form,
    for every table of keywords and every list of fragments, the call
    returns the fragments that match no keyword, unchanged and in their
    order, so a fragment is dropped exactly when its normalized form
    contains the normalized form of some keyword; and the count of a
    keyword is the number of fragments whose first matching keyword, in the
    order of the table, it is. *)
Theorem filter_noise_keywords_spec `{UC : PyStr.UnicodeCase}
    (g : globals) (text_list : list str) :
  ∃ cleaned counts,
    Noise.filter_noise_keywords text_list g = (Ok (cleaned, counts), g) ∧
    cleaned = List.filter (λ item, negb (Noise.is_noise (g_NOISE_KEYWORDS g) item)) text_list ∧
    (∀ item, item ∈ text_list →
       item ∉ cleaned ↔
       ∃ kw, kw ∈ g_NOISE_KEYWORDS g ∧
             PyStr.contains (Noise.get_norm kw) (Noise.get_norm item) = true) ∧
    (∀ kw, counts !!! kw =
           length (List.filter
             (λ item, bool_decide (Noise.credited (g_NOISE_KEYWORDS g) item = Some kw))
             text_list)).
Proof.
  rewrite filter_noise_keywords_run.
  destruct (filter_loop (g_NOISE_KEYWORDS g) text_list [] ∅) as [H1 H2].
  simpl in H1.
  set (r := foldl _ _ _) in *. exists r.1, r.2. split; [by destruct r|].
  split; [done|]. split.
  - intros item Hin. rewrite H1, list_elem_of_In, filter_In, <- list_elem_of_In.
    unfold Noise.is_noise. split.
    + intros Hn. destruct (existsb _ _) eqn:E.
      * apply existsb_exists in E as (kw & Hkw & Hm).
        exists kw. by rewrite list_elem_of_In.
      * exfalso. apply Hn. done.
    + intros (kw & Hkw & Hm) [_ Hn]. apply negb_true_iff in Hn.
      assert (existsb (Noise.matches_keyword item) (g_NOISE_KEYWORDS g) = true) as E.
      { apply existsb_exists. exists kw. by rewrite <- list_elem_of_In. }
      congruence.
  - intros kw. rewrite H2, lookup_total_empty. done.
Qed.

(** *** Evaluating the filter on ASCII and Bengali text *)

Section pinned_facts.
Import PyStr Noise.
Context `{UC : UnicodeCase}.

Lemma pinned_lower (c : N) (before after : str) :
  pinned c = true →
  lower_ucs4 before after c = [ascii_tolower c].
Proof.
  unfold pinned, lower_ucs4. intros Hc.
  apply orb_true_iff in Hc as [Hc|Hc].
  - apply N.ltb_lt in Hc. destruct (N.eqb_spec c 0x3A3) as [->|_]; [lia|].
    by apply ToLowerFull_ascii.
  - apply andb_true_iff in Hc as [H1%N.leb_le H2%N.leb_le].
    destruct (N.eqb_spec c 0x3A3) as [->|_]; [lia|].
    rewrite ToLowerFull_bengali by lia.
    unfold ascii_tolower, is_ascii_upper.
    destruct (N.leb_spec c 90); [lia|]. by rewrite andb_false_r.
Qed.

Lemma do_lower_pinned (s before : str) :
  forallb pinned s = true → do_lower before s = ascii_tolower <$> s.
Proof.
  revert before. induction s as [|c s IH]; intros before; simpl; [done|].
  intros [Hc Hs]%andb_true_iff. by rewrite pinned_lower, IH.
Qed.

Lemma get_norm_pinned (s : str) :
  forallb pinned s = true → get_norm s = replace 32 [] (ascii_tolower <$> s).
Proof. intros Hs. unfold get_norm, lower. by rewrite do_lower_pinned. Qed.

End pinned_facts.

Section pinned_eval.
Import PyStr Noise.
Context `{UC : UnicodeCase}.

Lemma find_ext_in {A} (f f' : A → bool) (l : list A) :
  (∀ x, x ∈ l → f x = f' x) → List.find f l = List.find f' l.
Proof.
  induction l as [|a l IH]; intros H; simpl; [done|].
  rewrite <- (H a) by set_solver. destruct (f a); [done|].
  apply IH. intros x Hx. apply H. set_solver.
Qed.

Lemma credited_pinned (keywords : list str) (item : str) :
  forallb (forallb pinned) keywords = true →
  forallb pinned item = true →
  credited keywords item = credited (UC := ascii_rows) keywords item.
Proof.
  intros Hk Hi. unfold credited, matches_keyword. apply find_ext_in.
  intros kw Hkw. rewrite forallb_forall in Hk.
  rewrite !get_norm_pinned; try done.
  all: apply Hk; by apply list_elem_of_In.
Qed.

Lemma filter_fold_pinned (keywords : list str) (l : list str) (st : list str * gmap str nat) :
  forallb (forallb pinned) keywords = true →
  forallb (forallb pinned) l = true →
  foldl (filter_step (normalized_keywords keywords)) st l =
  foldl (filter_step (UC := ascii_rows) (normalized_keywords (UC := ascii_rows) keywords)) st l.
Proof.
  intros Hk. revert st. induction l as [|item l IH]; intros [acc counts]; simpl; [done|].
  intros [Hi Hl]%andb_true_iff.
  rewrite !filter_step_credited, (credited_pinned keywords item Hk Hi).
  by apply IH.
Qed.

(** On keywords and fragments written in ASCII and Bengali the filter does
    not depend on the rest of the case tables. *)
Lemma filter_noise_keywords_pinned (text_list : list str) (g : globals) :
  forallb (forallb pinned) (g_NOISE_KEYWORDS g) = true →
  forallb (forallb pinned) text_list = true →
  filter_noise_keywords text_list g =
  filter_noise_keywords (UC := ascii_rows) text_list g.
Proof.
  intros Hk Hl. rewrite !filter_noise_keywords_run. by rewrite filter_fold_pinned.
Qed.

End pinned_eval.

(** C2, as the specification words it, fails: with all whitespace removed
    the fragment Google, line feed, Play normalizes to googleplay, which
    holds the normalized keyword of Google Play; the code removes U+0020
    only, finds no keyword in the fragment, and keeps it. *)
Lemma filter_keeps_keyword_split_by_newline :
  let item := cps "Google" ++ [10] ++ cps "Play" in
  existsb
    (λ kw, PyStr.contains (Noise.norm_without_whitespace (UC := PyStr.ascii_rows) kw)
             (Noise.norm_without_whitespace (UC := PyStr.ascii_rows) item))
    Noise.NOISE_KEYWORDS = true ∧
  Noise.filter_noise_keywords (UC := PyStr.ascii_rows) [item] Normalizer.module_globals =
  (Ok ([item], ∅), Normalizer.module_globals).
Proof. split; vm_compute; reflexivity. Qed.

(** C4, as stated, fails: of the two fragments none is retained. The
    normalized form of the second, greatmemetoday, holds the normalized
    keyword MEME. *)
Lemma great_meme_today_is_dropped :
  Noise.credited (UC := PyStr.ascii_rows) Noise.NOISE_KEYWORDS (cps "Great meme today")
    = Some (cps "MEME") ∧
  Noise.filter_noise_keywords (UC := PyStr.ascii_rows)
    [cps "Follow us"; cps "Great meme today"] Normalizer.module_globals =
  (Ok ([], {[ cps "Follow" := 1%nat; cps "MEME" := 1%nat ]}), Normalizer.module_globals).
Proof. split; vm_compute; reflexivity. Qed.

(** ** The replacement pass *)

Section alternation_facts.
Import Alternation.

Lemma match_alt_length (p : list atom) (text : str) (m : str * option N) :
  match_alt p text = Some m → length m.1 = length p ∧ (length p ≤ length text)%nat.
Proof.
  revert text m. induction p as [|[c|c] p IH]; intros [|x text] m; simpl; try done.
  - intros [= <-]. simpl. lia.
  - intros [= <-]. simpl. lia.
  - destruct (x =? c); [|done].
    destruct (match_alt p text) as [m'|] eqn:E; [|done]. intros [= <-].
    destruct (IH _ _ E). simpl. lia.
  - destruct (x =? c); [done|].
    destruct (match_alt p text) as [m'|] eqn:E; [|done]. intros [= <-].
    destruct (IH _ _ E). simpl. lia.
Qed.

Lemma match_here_length (alts : list (list atom)) (text : str) (m : str * option N) :
  match_here alts text = Some m → (length m.1 ≤ length text)%nat.
Proof.
  induction alts as [|p alts IH]; simpl; [done|].
  destruct (match_alt p text) as [m'|] eqn:E; [|done].
  intros [= <-]. destruct (match_alt_length _ _ _ E). lia.
Qed.

(** A match reads no further than its alternative is long. *)
Lemma match_alt_take (n : nat) (p : list atom) (text : str) :
  (length p ≤ n)%nat → match_alt p (take n text) = match_alt p text.
Proof.
  revert n text. induction p as [|a p IH]; intros n text Hn.
  - by destruct (take n text), text.
  - destruct n as [|n]; [simpl in Hn; lia|].
    destruct text as [|x text]; [done|]. simpl in *.
    rewrite IH by lia. done.
Qed.

Lemma match_here_take (n : nat) (alts : list (list atom)) (text : str) :
  Forall (λ p, (length p ≤ n)%nat) alts →
  match_here alts (take n text) = match_here alts text.
Proof.
  induction 1 as [|p alts Hp Halts IH]; simpl; [done|].
  by rewrite match_alt_take, IH.
Qed.

(** Where no match that starts inside [pre] depends on the text after it,
    the pass over [pre ++ rest] is the pass over [pre] followed by the pass
    over [rest]. *)
Lemma sub_from_app (alts : list (list atom)) (repl : str * option N → str)
    (pre rest : str) (k : nat) :
  match_here alts [] = None →
  (∀ suf, suf ≠ [] → suf `suffix_of` pre →
     match_here alts (suf ++ rest) = match_here alts suf) →
  (k ≤ length pre)%nat →
  sub_from alts repl k (pre ++ rest) =
  sub_from alts repl k pre ++ sub_from alts repl 0 rest.
Proof.
  intros Hnil. revert k. induction pre as [|c pre IH]; intros k Hsuf Hk.
  - simpl in Hk. assert (k = 0%nat) as -> by lia. simpl. by rewrite Hnil.
  - assert (∀ suf, suf ≠ [] → suf `suffix_of` pre →
              match_here alts (suf ++ rest) = match_here alts suf) as Hsuf'.
    { intros suf Hne Hs. apply Hsuf; [done|]. by apply suffix_cons_r. }
    destruct k as [|k]; simpl.
    + pose proof (Hsuf (c :: pre) ltac:(done) ltac:(done)) as Hc.
      simpl in Hc. rewrite Hc.
      destruct (match_here alts (c :: pre)) as [m|] eqn:E.
      * pose proof (match_here_length _ _ _ E) as Hlen. simpl in Hlen.
        destruct (length m.1) as [|k]; rewrite IH by (done || lia).
        -- by rewrite <- app_assoc.
        -- by rewrite app_assoc.
      * by rewrite IH by (done || lia).
    + simpl in Hk. apply IH; [done|lia].
Qed.

End alternation_facts.

Section table_facts.
Import Alternation Tables.

Ltac case_eqb :=
  match goal with
  | |- context [N.eqb ?v ?c] => is_var v; destruct (N.eqb_spec v c) as [->|?]
  end.

Ltac unfold_regex :=
  let r := eval vm_compute in UNICODE_REPLACEMENTS_REGEX in
  change UNICODE_REPLACEMENTS_REGEX with r.

(** The keys hold no operator of the pattern syntax outside the one group,
    no key occurs twice, and no alternative is empty or longer than three
    code points. *)
Lemma UNICODE_REPLACEMENTS_keys :
  forallb (λ p, (1 <=? length p)%nat && (length p <=? 3)%nat)
    UNICODE_REPLACEMENTS_REGEX = true ∧
  NoDup (fst <$> UNICODE_REPLACEMENTS) ∧
  forallb (λ k, bool_decide (k = [0x9C7; 40; 91; 94; 0x9D7; 93; 41; 0x9D7]) ||
                forallb (λ c, negb (special c)) k)
    (fst <$> UNICODE_REPLACEMENTS) = true.
Proof.
  split; [|split].
  - by vm_compute.
  - apply (bool_decide_unpack _). by vm_compute.
  - by vm_compute.
Qed.

Lemma match_here_nil : match_here UNICODE_REPLACEMENTS_REGEX [] = None.
Proof. by vm_compute. Qed.

Lemma match_here_take3 (text : str) :
  match_here UNICODE_REPLACEMENTS_REGEX (take 3 text) =
  match_here UNICODE_REPLACEMENTS_REGEX text.
Proof.
  apply match_here_take. apply Forall_forall. intros p Hp.
  destruct UNICODE_REPLACEMENTS_keys as [H _].
  rewrite forallb_forall in H. apply list_elem_of_In, H in Hp.
  apply andb_true_iff in Hp as [_ Hp]. by apply Nat.leb_le.
Qed.

(** No match that starts before an occurrence of U+09C7, [x], U+09D7 with
    [x] other than U+09D7 reaches into it. *)
Lemma no_match_into_occurrence (suf post : str) (x : N) :
  x ≠ 0x9D7 → suf ≠ [] →
  match_here UNICODE_REPLACEMENTS_REGEX (suf ++ 0x9C7 :: x :: 0x9D7 :: post) =
  match_here UNICODE_REPLACEMENTS_REGEX suf.
Proof.
  intros Hx Hsuf.
  rewrite <- match_here_take3, <- (match_here_take3 suf).
  destruct suf as [|a [|b [|c suf]]]; [done| | |done]; simpl; unfold_regex; cbn.
  - repeat (case_eqb;
      [cbn; try (destruct (N.eqb_spec x 0x9D7); [done|]); reflexivity|]).
    reflexivity.
  - repeat (case_eqb; [cbn; repeat (case_eqb; [reflexivity|]); reflexivity|]).
    reflexivity.
Qed.

(** At such an occurrence the alternative with the group is the first that
    matches, unless [x] is U+09BE or U+0981, which earlier entries take. *)
Lemma group_alternative_matches (x : N) (post : str) :
  x ≠ 0x9D7 → x ≠ 0x9BE → x ≠ 0x981 →
  match_here UNICODE_REPLACEMENTS_REGEX (0x9C7 :: x :: 0x9D7 :: post) =
  Some ([0x9C7; x; 0x9D7], Some x).
Proof.
  intros H1 H2 H3. rewrite <- match_here_take3. simpl. unfold_regex. cbn.
  repeat (case_eqb; [done|]). reflexivity.
Qed.

Lemma dict_get_absent (d : list (str * str)) (k dflt : str) :
  Forall (λ kv, kv.1 ≠ k) d → dict_get d k dflt = dflt.
Proof.
  unfold dict_get. induction 1 as [|kv d Hkv Hd IH]; simpl; [done|].
  by rewrite bool_decide_eq_false_2.
Qed.

Lemma group_replacement (x : N) :
  x ≠ 0x981 →
  unicode_replacement UNICODE_REPLACEMENTS ([0x9C7; x; 0x9D7], Some x) = [x; 0x9CC].
Proof.
  intros Hx. unfold unicode_replacement. simpl. apply dict_get_absent.
  repeat constructor; simpl; intros [=]; done.
Qed.

(** No match ever reports one of these four entries: an entry before each
    of them matches wherever it would. *)
Lemma shadowed_entries (text : str) :
  match match_here UNICODE_REPLACEMENTS_REGEX text with
  | Some m =>
      negb (bool_decide (m.1 ∈ [[0xB4; 0xB4]; [0xA0; 0xAB; 0xA0];
                               [0xA0; 0xBB; 0xA0]; [0xA0; 0xBB]]))
  | None => true
  end = true.
Proof.
  rewrite <- match_here_take3.
  destruct text as [|a [|b [|c text]]]; simpl; unfold_regex; cbn; [done|..].
  all: repeat (case_eqb;
         [cbn; repeat (case_eqb; [cbn; repeat (case_eqb; [done|]); done|]); done|]).
  all: done.
Qed.

End table_facts.

(** C5, as stated, fails: with U+09BE as the second code point the entry
    for U+09C7 U+09BE comes first in the alternation and takes the first
    two code points; the rule with the group is not applied. *)
Lemma backreference_rule_preempted :
  Tables.unicode_replacements_pass [0x9C7; 0x9BE; 0x9D7] = [0x9CB; 0x9D7] ∧
  Tables.unicode_replacements_pass [0x9C7; 0x981; 0x9D7] = [0x9CC; 0x981].
Proof. split; vm_compute; reflexivity. Qed.

(** C5, as amended: wherever the text holds U+09C7, a code point [x] and
    U+09D7, with [x] none of U+09D7, U+09BE and U+0981, the pass replaces
    the three code points by [x], the code point the group captured,
    followed by U+09CC, and treats the text before and the text after as
    it would on their own. *)
Theorem backreference_rule (pre post : str) (x : N) :
  x ≠ 0x9D7 → x ≠ 0x9BE → x ≠ 0x981 →
  Tables.unicode_replacements_pass (pre ++ [0x9C7; x; 0x9D7] ++ post) =
  Tables.unicode_replacements_pass pre ++ [x; 0x9CC] ++
  Tables.unicode_replacements_pass post.
Proof.
  intros H1 H2 H3. unfold Tables.unicode_replacements_pass, Alternation.sub.
  rewrite sub_from_app; [|apply match_here_nil| |lia].
  - f_equal. cbn [app Alternation.sub_from].
    rewrite group_alternative_matches by done.
    cbn [fst length Alternation.sub_from]. by rewrite group_replacement.
  - intros suf Hne _. by apply no_match_into_occurrence.
Qed.

Lemma backreference_rule_witness :
  (0x995 ≠ 0x9D7 ∧ 0x995 ≠ 0x9BE ∧ 0x995 ≠ 0x981) ∧
  Tables.unicode_replacements_pass (cps "a" ++ [0x9C7; 0x995; 0x9D7] ++ cps "b") =
  Tables.unicode_replacements_pass (cps "a") ++ [0x995; 0x9CC] ++
  Tables.unicode_replacements_pass (cps "b").
Proof.
  split; [done|]. by apply (backreference_rule (cps "a") (cps "b") 0x995).
Defined.

(** C6 on the code: the entry for U+00B4 stands before the entry for U+00B4
    U+00B4, and the entry for U+00A0 before the three entries that start
    with U+00A0, so the longer entries never match. Two acute accents
    become two apostrophes, and a no-break space before a guillemet
    becomes a space. *)
Theorem longer_entries_shadowed :
  Tables.unicode_replacements_pass [0xB4; 0xB4] = cps "''" ∧
  Tables.unicode_replacements_pass [0xA0; 0xAB; 0xA0] = [32; 34] ∧
  Tables.unicode_replacements_pass [0xA0; 0xBB; 0xA0] = [32; 34; 32] ∧
  ∀ text m,
    Alternation.match_here Tables.UNICODE_REPLACEMENTS_REGEX text = Some m →
    m.1 ∉ [[0xB4; 0xB4]; [0xA0; 0xAB; 0xA0]; [0xA0; 0xBB; 0xA0]; [0xA0; 0xBB]].
Proof.
  repeat split; try (vm_compute; reflexivity).
  intros text m Hm. pose proof (shadowed_entries text) as H. rewrite Hm in H.
  apply negb_true_iff, bool_decide_eq_false in H. done.
Qed.

(** ** Backtracking patterns *)

Section re_facts.
Import Re.
Context `{RT : RegexTables}.
Variable ignorecase : bool.

Lemma bind_ext_in {A B} (f g : A → list B) (l : list A) :
  (∀ x, x ∈ l → f x = g x) → l ≫= f = l ≫= g.
Proof.
  induction l as [|a l IH]; intros H; simpl; [done|].
  rewrite (H a) by set_solver. f_equal. apply IH. intros x Hx. apply H. set_solver.
Qed.

Lemma bind_nonempty {A B} (f : A → list B) (l : list A) :
  l ≫= f ≠ [] → ∃ x, x ∈ l ∧ f x ≠ [].
Proof.
  induction l as [|a l IH]; simpl; [done|].
  destruct (f a) eqn:E; simpl.
  - intros (x & Hx & Hf)%IH. exists x. split; [set_solver|done].
  - intros _. exists a. split; [set_solver|]. by rewrite E.
Qed.

(** The fuel of a repetition never decides its result: any fuel above
    the length of the text left gives the same matches. *)
Lemma rep_fuel (m : pos → list pos) (f1 f2 lo : nat) (hi : option nat) (p : pos) :
  (length (rest p) < f1)%nat → (length (rest p) < f2)%nat →
  rep m f1 lo hi p = rep m f2 lo hi p.
Proof.
  revert f2 lo hi p. induction f1 as [|f1 IH]; intros f2 lo hi p H1 H2; [lia|].
  destruct f2 as [|f2]; [lia|]. simpl. f_equal.
  case_decide; [done|]. apply bind_ext_in. intros p' Hp'.
  apply list_elem_of_In, filter_In in Hp' as [_ Hp']. unfold progress in Hp'.
  apply Nat.ltb_lt in Hp'. apply IH; lia.
Qed.

(** Every match ends at or after the position it starts from. *)
Lemma rep_suffix (m : pos → list pos) (fuel lo : nat) (hi : option nat) (p p' : pos) :
  p' ∈ rep m fuel lo hi p → (length (rest p') ≤ length (rest p))%nat.
Proof.
  revert lo hi p. induction fuel as [|fuel IH]; intros lo hi p; simpl.
  - case_decide; [|by intros ?%elem_of_nil]. intros ->%list_elem_of_singleton. lia.
  - rewrite elem_of_app. intros [H|H].
    + case_decide; [by apply elem_of_nil in H|].
      apply list_elem_of_bind in H as (q & Hq & Hin).
      apply list_elem_of_In, filter_In in Hin as [_ Hin]. unfold progress in Hin.
      apply Nat.ltb_lt in Hin. apply IH in Hq. lia.
    + case_decide; [|by apply elem_of_nil in H].
      apply list_elem_of_singleton in H as ->. lia.
Qed.

Lemma step_suffix (ok : N → bool) (p p' : pos) :
  p' ∈ step ok p → (length (rest p') < length (rest p))%nat.
Proof.
  unfold step. destruct (rest p) as [|x text]; [by intros ?%elem_of_nil|].
  destruct (ok x); [|by intros ?%elem_of_nil].
  intros ->%list_elem_of_singleton. simpl. lia.
Qed.

Lemma matches_suffix (r : re) (p p' : pos) :
  p' ∈ matches ignorecase r p → (length (rest p') ≤ length (rest p))%nat.
Proof.
  revert p p'. induction r as [|c|neg items|r1 IH1 r2 IH2|r1 IH1 r2 IH2|r IH lo hi| |r IH|items|r IH];
    intros p p'; cbn [matches].
  - intros ->%list_elem_of_singleton. lia.
  - intros H%step_suffix. lia.
  - intros H%step_suffix. lia.
  - intros (q & Hq & Hin)%list_elem_of_bind. apply IH1 in Hin. apply IH2 in Hq. lia.
  - rewrite elem_of_app. intros [H|H]; eauto.
  - apply rep_suffix.
  - destruct (before p); [by intros ?%elem_of_nil|]. intros ->%list_elem_of_singleton. lia.
  - destruct (matches ignorecase r p); [|by intros ?%elem_of_nil].
    intros ->%list_elem_of_singleton. lia.
  - destruct (before p) as [x|].
    + destruct (set_matches ignorecase false items x); [by intros ?%elem_of_nil|].
      intros ->%list_elem_of_singleton. lia.
    + intros ->%list_elem_of_singleton. lia.
  - apply IH.
Qed.

(** A run of literals consumes at least one code point when it is not
    empty, and matches nothing at the end of the text. *)
Lemma matches_lits_nil (s : str) (b : option N) :
  s ≠ [] → matches ignorecase (lits s) (Pos b []) = [].
Proof.
  destruct s as [|c [|c' s]]; [done|done|]. done.
Qed.

Lemma matches_cat_nonempty (r1 r2 : re) (p : pos) :
  matches ignorecase (Cat r1 r2) p ≠ [] → matches ignorecase r1 p ≠ [].
Proof. simpl. by destruct (matches ignorecase r1 p). Qed.

End re_facts.

(** ** The URL pattern *)

Section url_facts.
Import Re Patterns.
Context `{RT : RegexTables}.

Lemma url_boundary_same (p p' : pos) :
  p' ∈ matches true url_boundary p → p' = p.
Proof.
  unfold url_boundary. cbn [matches]. rewrite elem_of_app. intros [H|H].
  - destruct (before p); [by apply elem_of_nil in H|].
    by apply list_elem_of_singleton in H.
  - destruct (before p) as [x|].
    + destruct (set_matches _ _ _ _); [by apply elem_of_nil in H|].
      by apply list_elem_of_singleton in H.
    + by apply list_elem_of_singleton in H.
Qed.

(** A match of the URL pattern starts with a match of its prefix: one of
    the two schemes or www. *)
Lemma url_match_has_prefix (p : pos) :
  matches true URL_HANDLER_REGEX p ≠ [] → matches true url_prefix p ≠ [].
Proof.
  unfold URL_HANDLER_REGEX. intros H.
  do 4 apply matches_cat_nonempty in H. cbn [matches] in H.
  apply bind_nonempty in H as (q & Hq & Hm).
  by apply url_boundary_same in Hq as ->.
Qed.

Lemma url_no_prefix_no_match (p : pos) :
  matches true url_prefix p = [] → match_at true URL_HANDLER_REGEX p = None.
Proof.
  intros H. unfold match_at.
  destruct (matches true URL_HANDLER_REGEX p) as [|q l] eqn:E; [done|].
  exfalso. apply (url_match_has_prefix p); [|done]. by rewrite E.
Qed.

Lemma url_sub_from_unchanged (repl : str) (prev : option N) (text : str) :
  forallb (λ p, if matches true url_prefix p is [] then true else false)
    (positions prev text) = true →
  sub_from true URL_HANDLER_REGEX repl 0 prev text = text.
Proof.
  revert prev. induction text as [|c text IH]; intros prev;
    cbn [positions forallb sub_from].
  - rewrite andb_true_r. intros H.
    rewrite url_no_prefix_no_match; [done|].
    by destruct (matches true url_prefix (Pos prev [])).
  - intros [H1 H2]%andb_true_iff.
    rewrite url_no_prefix_no_match.
    + f_equal. by apply IH.
    + by destruct (matches true url_prefix (Pos prev (c :: text))).
Qed.

End url_facts.

(** *** Matches that exist *)

Section path_facts.
Import Re Patterns.
Context `{RT : RegexTables}.

Lemma reaches_nonempty (r : re) (p : pos) (t : str) :
  reaches r p t → matches true r p ≠ [].
Proof. intros [b Hb] E. rewrite E in Hb. by apply elem_of_nil in Hb. Qed.

Lemma chr_matches_refl (c : N) : chr_matches true c c = true.
Proof. unfold chr_matches, cases. simpl. by rewrite N.eqb_refl. Qed.

Lemma reaches_chr (c : N) (b : option N) (t : str) :
  reaches (Chr c) (Pos b (c :: t)) t.
Proof. exists (Some c). cbn [matches]. unfold step. simpl. rewrite chr_matches_refl. set_solver. Qed.

Lemma reaches_set (negated : bool) (items : list item) (x : N) (b : option N) (t : str) :
  xorb negated (existsb (in_item x) items) = true →
  negated = false →
  reaches (Set_ negated items) (Pos b (x :: t)) t.
Proof.
  intros H ->. exists (Some x). cbn [matches]. unfold step, set_matches, cases. simpl in *.
  rewrite H. simpl. set_solver.
Qed.

Lemma reaches_cat (r1 r2 : re) (p : pos) (t1 t2 : str) :
  reaches r1 p t1 → (∀ b, reaches r2 (Pos b t1) t2) → reaches (Cat r1 r2) p t2.
Proof.
  intros [b1 H1] H2. destruct (H2 b1) as [b2 Hb2]. exists b2.
  cbn [matches]. apply list_elem_of_bind. eauto.
Qed.

Lemma reaches_alt_l (r1 r2 : re) (p : pos) (t : str) :
  reaches r1 p t → reaches (Alt r1 r2) p t.
Proof. intros [b H]. exists b. cbn [matches]. set_solver. Qed.

Lemma reaches_alt_r (r1 r2 : re) (p : pos) (t : str) :
  reaches r2 p t → reaches (Alt r1 r2) p t.
Proof. intros [b H]. exists b. cbn [matches]. set_solver. Qed.

Lemma reaches_lits (s : str) (b : option N) (t : str) :
  s ≠ [] → reaches (lits s) (Pos b (s ++ t)) t.
Proof.
  revert b. induction s as [|c s IH]; intros b Hs; [done|].
  destruct s as [|c' s].
  - apply reaches_chr.
  - change (lits (c :: c' :: s)) with (Cat (Chr c) (lits (c' :: s))).
    eapply reaches_cat; [apply reaches_chr|]. intros b'. by apply IH.
Qed.

Lemma reaches_rep_done (r : re) (hi : option nat) (b : option N) (t : str) :
  reaches (Rep r 0 hi) (Pos b t) t.
Proof.
  exists b. cbn [matches]. generalize (S (length (rest (Pos b t)))). intros [|fuel]; simpl.
  - set_solver.
  - rewrite elem_of_app. right. set_solver.
Qed.

(** One turn of a repetition that consumes something, followed by a
    match of what is left of the repetition. *)
Lemma reaches_rep_more (r : re) (lo : nat) (hi : option nat) (p : pos) (t1 t2 : str) :
  hi ≠ Some 0%nat →
  reaches r p t1 → (length t1 < length (rest p))%nat →
  (∀ b, reaches (Rep r (pred lo) (pred <$> hi)) (Pos b t1) t2) →
  reaches (Rep r lo hi) p t2.
Proof.
  intros Hhi [b1 H1] Hlen H2. destruct (H2 b1) as [b2 Hb2]. exists b2.
  cbn [matches] in *. cbn [rep]. rewrite elem_of_app. left.
  rewrite decide_False by done. apply list_elem_of_bind.
  exists (Pos b1 t1). split.
  - rewrite (rep_fuel _ (length (rest p)) (S (length t1))); [exact Hb2| |]; simpl; lia.
  - apply list_elem_of_In, filter_In. split; [by apply list_elem_of_In|].
    unfold progress. simpl. by apply Nat.ltb_lt.
Qed.

Lemma reaches_digit (x : N) (b : option N) (t : str) :
  re_digit x = true → reaches digit (Pos b (x :: t)) t.
Proof.
  intros Hx. apply reaches_set; [|done]. simpl. by rewrite Hx.
Qed.

(** A run of digits within the bounds of a repetition of [\d]. *)
Lemma reaches_digits (o : str) (lo hi : nat) (b : option N) (t : str) :
  forallb re_digit o = true → (lo ≤ length o ≤ hi)%nat →
  reaches (between digit lo hi) (Pos b (o ++ t)) t.
Proof.
  revert lo hi b. induction o as [|x o IH]; intros lo hi b Hd Hlen; simpl in *.
  - assert (lo = 0%nat) as -> by lia. apply reaches_rep_done.
  - apply andb_true_iff in Hd as [Hx Ho].
    unfold between. eapply (reaches_rep_more _ _ _ _ (o ++ t)).
    + intros [= ->]. lia.
    + by apply reaches_digit.
    + simpl. lia.
    + intros b'. destruct hi as [|hi]; [lia|]. simpl. apply IH; [done|lia].
Qed.

Lemma octet_spec (o : str) :
  octet o = true → forallb re_digit o = true ∧ (1 ≤ length o ≤ 3)%nat.
Proof.
  unfold octet. intros [[H1 H2]%andb_true_iff H3]%andb_true_iff.
  apply Nat.leb_le in H1, H2. done.
Qed.

(** A dot and an octet, as the exclusions repeat them. *)
Lemma reaches_dot_octet (o : str) (b : option N) (t : str) :
  octet o = true → reaches (chr "." ⋅ between digit 1 3) (Pos b (46 :: o ++ t)) t.
Proof.
  intros [Hd Hlen]%octet_spec. eapply reaches_cat; [apply (reaches_chr 46)|].
  intros b'. by apply reaches_digits.
Qed.

Lemma reaches_dot_octets_2 (o1 o2 : str) (b : option N) (t : str) :
  octet o1 = true → octet o2 = true →
  reaches (times (chr "." ⋅ between digit 1 3) 2) (Pos b (46 :: o1 ++ 46 :: o2 ++ t)) t.
Proof.
  intros H1 H2. unfold times.
  eapply reaches_rep_more; [done|by apply reaches_dot_octet| |].
  { simpl. repeat (rewrite length_app; simpl). lia. }
  intros b1. eapply reaches_rep_more; [done|by apply reaches_dot_octet| |].
  { simpl. repeat (rewrite length_app; simpl). lia. }
  intros b2. apply reaches_rep_done.
Qed.

Lemma reaches_dot_octets_3 (o1 o2 o3 : str) (b : option N) (t : str) :
  octet o1 = true → octet o2 = true → octet o3 = true →
  reaches (times (chr "." ⋅ between digit 1 3) 3)
    (Pos b (46 :: o1 ++ 46 :: o2 ++ 46 :: o3 ++ t)) t.
Proof.
  intros H1 H2 H3. unfold times.
  eapply reaches_rep_more; [done|by apply reaches_dot_octet| |].
  { simpl. repeat (rewrite length_app; simpl). lia. }
  intros b1. apply (reaches_dot_octets_2 o2 o3 b1 t H2 H3).
Qed.

End path_facts.

Section private_facts.
Import Re Patterns.
Context `{RT : RegexTables}.

Lemma not_ahead_blocks (r : re) (p : pos) :
  matches true r p ≠ [] → matches true (NotAhead r) p = [].
Proof. cbn [matches]. by destruct (matches true r p). Qed.

Lemma not_ahead_same (r : re) (p p' : pos) :
  p' ∈ matches true (NotAhead r) p → p' = p.
Proof.
  cbn [matches]. destruct (matches true r p); [|by intros ?%elem_of_nil].
  by intros ?%list_elem_of_singleton.
Qed.

Lemma cat_nil_l (r1 r2 : re) (p : pos) :
  matches true r1 p = [] → matches true (Cat r1 r2) p = [].
Proof. cbn [matches]. by intros ->. Qed.

Lemma cat_not_ahead_nil (r1 r2 : re) (p : pos) :
  (∀ p', p' ∈ matches true r1 p → p' = p) →
  matches true r2 p = [] → matches true (Cat r1 r2) p = [].
Proof.
  intros H1 H2. cbn [matches].
  destruct (matches true r1 p ≫= matches true r2) as [|q l] eqn:E; [done|].
  assert (q ∈ matches true r1 p ≫= matches true r2) as Hq by (rewrite E; set_solver).
  apply list_elem_of_bind in Hq as (p' & Hq & Hp'). apply H1 in Hp' as ->.
  rewrite H2 in Hq. by apply elem_of_nil in Hq.
Qed.

(** The branch for a dotted quad matches nothing where one of its three
    exclusions matches. *)
Lemma url_ip_excluded (p : pos) :
  matches true private_10_127 p ≠ [] ∨ matches true private_169_192 p ≠ [] ∨
  matches true private_172 p ≠ [] →
  matches true url_ip p = [].
Proof.
  intros H. unfold url_ip. do 3 apply cat_nil_l.
  destruct H as [H|[H|H]].
  - do 2 apply cat_nil_l. by apply not_ahead_blocks.
  - apply cat_nil_l. apply cat_not_ahead_nil; [apply not_ahead_same|].
    by apply not_ahead_blocks.
  - apply cat_not_ahead_nil.
    + intros p' (q & Hq & Hp')%list_elem_of_bind.
      apply not_ahead_same in Hp' as ->. by apply not_ahead_same in Hq.
    + by apply not_ahead_blocks.
Qed.

(** A dotted quad in the private and loopback ranges is matched by no
    path through the branch for dotted quads. *)
Lemma private_quad_excluded (o1 o2 o3 o4 rest : str) (b : option N) :
  private_range o1 o2 = true →
  octet o2 = true → octet o3 = true → octet o4 = true →
  matches true url_ip (Pos b (dotted_quad o1 o2 o3 o4 rest)) = [].
Proof.
  intros Hp H2 H3 H4. apply url_ip_excluded. unfold private_range in Hp.
  repeat (apply orb_true_iff in Hp as [Hp|Hp]).
  - apply bool_decide_eq_true in Hp as ->. left.
    apply (reaches_nonempty _ _ rest). eapply reaches_cat.
    + apply reaches_alt_l. by apply (reaches_lits (cps "10")).
    + intros b'. by apply reaches_dot_octets_3.
  - apply bool_decide_eq_true in Hp as ->. left.
    apply (reaches_nonempty _ _ rest). eapply reaches_cat.
    + apply reaches_alt_r. by apply (reaches_lits (cps "127")).
    + intros b'. by apply reaches_dot_octets_3.
  - apply andb_true_iff in Hp as [->%bool_decide_eq_true ->%bool_decide_eq_true].
    right; left. apply (reaches_nonempty _ _ rest). eapply reaches_cat.
    + apply reaches_alt_l.
      by apply (reaches_lits (cps "169.254") b (46 :: o3 ++ 46 :: o4 ++ rest)).
    + intros b'. by apply reaches_dot_octets_2.
  - apply andb_true_iff in Hp as [->%bool_decide_eq_true ->%bool_decide_eq_true].
    right; left. apply (reaches_nonempty _ _ rest). eapply reaches_cat.
    + apply reaches_alt_r.
      by apply (reaches_lits (cps "192.168") b (46 :: o3 ++ 46 :: o4 ++ rest)).
    + intros b'. by apply reaches_dot_octets_2.
  - apply andb_true_iff in Hp as [->%bool_decide_eq_true Hp].
    destruct o2 as [|x [|y [|? ?]]]; try done.
    right; right. apply (reaches_nonempty _ _ rest).
    unfold private_172. eapply reaches_cat; [eapply reaches_cat|].
    + by apply (reaches_lits (cps "172.") b (x :: y :: 46 :: o3 ++ 46 :: o4 ++ rest)).
    + intros b'.
      repeat (apply orb_true_iff in Hp as [Hp|Hp]).
      * apply andb_true_iff in Hp as [[->%N.eqb_eq Hlo]%andb_true_iff Hhi].
        apply reaches_alt_l, reaches_alt_l. eapply reaches_cat; [apply (reaches_chr 49)|].
        intros b''. apply reaches_set; [|done].
        change (existsb (in_item y) [irange "6" "9"])
          with ((54 <=? y) && (y <=? 57) || false).
        by rewrite Hlo, Hhi.
      * apply andb_true_iff in Hp as [->%N.eqb_eq Hd].
        apply reaches_alt_l, reaches_alt_r. eapply reaches_cat; [apply (reaches_chr 50)|].
        intros b''. apply reaches_digit.
        apply octet_spec in H2 as [H2 _]. simpl in H2.
        by apply andb_true_iff in H2 as [_ [H2 _]%andb_true_iff].
      * apply andb_true_iff in Hp as [[->%N.eqb_eq Hlo]%andb_true_iff Hhi].
        apply reaches_alt_r. eapply reaches_cat; [apply (reaches_chr 51)|].
        intros b''. apply reaches_set; [|done].
        change (existsb (in_item y) [irange "0" "1"])
          with ((48 <=? y) && (y <=? 49) || false).
        by rewrite Hlo, Hhi.
    + intros b'. by apply reaches_dot_octets_2.
Qed.

End private_facts.

(** *** The match the engine reports *)

Section first_match.
Import Re.
Context `{RT : RegexTables}.
Variable ignorecase : bool.

Lemma head_app_l {A} (l l' : list A) (y : A) :
  head l = Some y → head (l ++ l') = Some y.
Proof. by destruct l. Qed.

Lemma bind_nil_all {A B} (f : A → list B) (l : list A) :
  (∀ z, z ∈ l → f z = []) → l ≫= f = [].
Proof.
  induction l as [|a l IH]; intros H; [done|].
  rewrite bind_cons, (H a) by set_solver. apply IH. intros z Hz. apply H. set_solver.
Qed.

Lemma head_bind_first {A B} (f : A → list B) (l : list A) (x : A) (y : B) :
  head l = Some x → head (f x) = Some y → head (l ≫= f) = Some y.
Proof.
  destruct l as [|a l]; [done|]. intros [= ->] Hy.
  rewrite bind_cons. by apply head_app_l.
Qed.

(** The candidates that lead nowhere are passed over. *)
Lemma head_bind_skip {A B} (f : A → list B) (l1 l2 : list A) (x : A) (y : B) :
  (∀ z, z ∈ l1 → f z = []) → head (f x) = Some y →
  head ((l1 ++ x :: l2) ≫= f) = Some y.
Proof.
  intros H1 Hy. rewrite bind_app, (bind_nil_all f l1 H1), bind_cons.
  cbn [app]. by apply head_app_l.
Qed.

Lemma head_cat (r1 r2 : re) (p y z : pos) :
  head (matches ignorecase r1 p) = Some y →
  head (matches ignorecase r2 y) = Some z →
  head (matches ignorecase (Cat r1 r2) p) = Some z.
Proof. cbn [matches]. apply head_bind_first. Qed.

Lemma head_alt_l (r1 r2 : re) (p y : pos) :
  head (matches ignorecase r1 p) = Some y →
  head (matches ignorecase (Alt r1 r2) p) = Some y.
Proof. cbn [matches]. apply head_app_l. Qed.

Lemma head_alt_r (r1 r2 : re) (p y : pos) :
  matches ignorecase r1 p = [] →
  head (matches ignorecase r2 p) = Some y →
  head (matches ignorecase (Alt r1 r2) p) = Some y.
Proof. cbn [matches]. by intros ->. Qed.

(** The code point before the position reached when [s] has been
    consumed from a position behind [b]. *)
Lemma after_cons (b : option N) (x : N) (s : str) :
  from_option Some (Some x) (last s) = from_option Some b (last (x :: s)).
Proof.
  destruct s as [|y s]; [done|]. rewrite last_cons_cons.
  assert (is_Some (last (y :: s))) as [c ->]; [|done].
  rewrite last_is_Some. done.
Qed.

(** An optional part that is there is taken; one that is not is passed. *)
Lemma head_opt (r : re) (p y : pos) :
  head (matches ignorecase r p) = Some y →
  (length (rest y) < length (rest p))%nat →
  head (matches ignorecase (opt r) p) = Some y.
Proof.
  intros Hy Hlen. unfold opt. cbn [matches rep]. rewrite decide_False by done.
  destruct (matches ignorecase r p) as [|y' l]; [done|]. injection Hy as ->.
  cbn [List.filter]. unfold progress at 1.
  apply Nat.ltb_lt in Hlen. rewrite Hlen. rewrite bind_cons.
  apply head_app_l, head_app_l.
  destruct (length (rest p)); cbn [rep fmap option_fmap option_map pred];
    by rewrite ?decide_True by done.
Qed.

Lemma matches_opt_nil (r : re) (p : pos) :
  matches ignorecase r p = [] → matches ignorecase (opt r) p = [p].
Proof.
  intros H. unfold opt. cbn [matches rep]. rewrite decide_False by done.
  by rewrite H.
Qed.

(** A run of literals is matched in one way. *)
Lemma matches_lits (s : str) (b : option N) (t : str) :
  ignorecase = true → s ≠ [] →
  matches ignorecase (lits s) (Pos b (s ++ t)) = [Pos (last s) t].
Proof.
  intros -> Hs. revert b. induction s as [|c s IH]; intros b; [done|].
  destruct s as [|c' s].
  - cbn [lits matches]. unfold step. cbn [rest app].
    by rewrite chr_matches_refl.
  - change (lits (c :: c' :: s)) with (Cat (Chr c) (lits (c' :: s))).
    cbn [matches]. unfold step at 1. cbn [rest app].
    rewrite chr_matches_refl, bind_singleton.
    change (c' :: s ++ t) with ((c' :: s) ++ t). by rewrite IH.
Qed.

Lemma matches_lits_reject (c x : N) (s : str) (b : option N) (t : str) :
  chr_matches ignorecase c x = false →
  matches ignorecase (lits (c :: s)) (Pos b (x :: t)) = [].
Proof.
  intros H. destruct s as [|c' s].
  - cbn [lits matches]. unfold step. cbn [rest]. by rewrite H.
  - change (lits (c :: c' :: s)) with (Cat (Chr c) (lits (c' :: s))).
    cbn [matches]. unfold step at 1. cbn [rest]. by rewrite H.
Qed.

(** **** Patterns that stop at a code point they do not take *)

Lemma step_stays (ok : N → bool) (p p' : pos) (s t : str) :
  rest p = s ++ t → (∀ w, head t = Some w → ok w = false) →
  p' ∈ step ok p → ∃ x s', s = x :: s' ∧ ok x = true ∧ p' = Pos (Some x) (s' ++ t).
Proof.
  intros Hp Ht. unfold step. rewrite Hp.
  destruct s as [|x s'].
  - destruct t as [|w t']; [by intros ?%elem_of_nil|]. cbn [app].
    rewrite (Ht w) by done. by intros ?%elem_of_nil.
  - cbn [app]. destruct (ok x) eqn:Hx; [|by intros ?%elem_of_nil].
    intros ->%list_elem_of_singleton. eauto.
Qed.

Lemma rep_stays (m : pos → list pos) (t : str) (fuel lo : nat) (hi : option nat)
    (p p' : pos) (s : str) :
  (∀ q q' u, rest q = u ++ t → q' ∈ m q → ∃ u1 u2, u = u1 ++ u2 ∧ rest q' = u2 ++ t) →
  rest p = s ++ t → p' ∈ rep m fuel lo hi p →
  ∃ s1 s2, s = s1 ++ s2 ∧ rest p' = s2 ++ t.
Proof.
  intros Hm. revert lo hi p s. induction fuel as [|fuel IH]; intros lo hi p s Hp; cbn [rep].
  - case_decide; [|by intros ?%elem_of_nil]. intros ->%list_elem_of_singleton.
    by exists [], s.
  - rewrite elem_of_app. intros [H|H].
    + case_decide; [by apply elem_of_nil in H|].
      apply list_elem_of_bind in H as (q & Hq & Hin).
      apply list_elem_of_In, filter_In in Hin as [Hin _]. apply list_elem_of_In in Hin.
      destruct (Hm p q s Hp Hin) as (u1 & u2 & -> & Hq').
      destruct (IH _ _ q u2 Hq' Hq) as (s1 & s2 & -> & Hp').
      exists (u1 ++ s1), s2. by rewrite <- (assoc_L (++)).
    + case_decide; [|by apply elem_of_nil in H].
      apply list_elem_of_singleton in H as ->. by exists [], s.
Qed.

(** A pattern none of whose steps takes the code point at the head of [t]
    ends its matches before [t]. *)
Lemma matches_stays (r : re) (t : str) (p p' : pos) (s : str) :
  (∀ w, head t = Some w → consumes ignorecase r w = false) →
  rest p = s ++ t → p' ∈ matches ignorecase r p →
  ∃ s1 s2, s = s1 ++ s2 ∧ rest p' = s2 ++ t.
Proof.
  revert p p' s.
  induction r as [|c|neg items|r1 IH1 r2 IH2|r1 IH1 r2 IH2|r IH lo hi| |r IH|items|r IH];
    intros p p' s Ht Hp; cbn [matches].
  - intros ->%list_elem_of_singleton. by exists [], s.
  - intros (x & s' & -> & _ & ->)%(step_stays _ _ _ s t); [|done|exact Ht].
    by exists [x], s'.
  - intros (x & s' & -> & _ & ->)%(step_stays _ _ _ s t); [|done|exact Ht].
    by exists [x], s'.
  - intros (q & Hq & Hin)%list_elem_of_bind.
    assert (∀ w, head t = Some w → consumes ignorecase r1 w = false) as Ht1.
    { intros w Hw. apply Ht in Hw. cbn [consumes] in Hw. by apply orb_false_iff in Hw as []. }
    assert (∀ w, head t = Some w → consumes ignorecase r2 w = false) as Ht2.
    { intros w Hw. apply Ht in Hw. cbn [consumes] in Hw. by apply orb_false_iff in Hw as []. }
    destruct (IH1 p q s Ht1 Hp Hin) as (u1 & u2 & -> & Hq').
    destruct (IH2 q p' u2 Ht2 Hq' Hq) as (s1 & s2 & -> & Hp').
    exists (u1 ++ s1), s2. by rewrite <- (assoc_L (++)).
  - assert (∀ w, head t = Some w → consumes ignorecase r1 w = false) as Ht1.
    { intros w Hw. apply Ht in Hw. cbn [consumes] in Hw. by apply orb_false_iff in Hw as []. }
    assert (∀ w, head t = Some w → consumes ignorecase r2 w = false) as Ht2.
    { intros w Hw. apply Ht in Hw. cbn [consumes] in Hw. by apply orb_false_iff in Hw as []. }
    rewrite elem_of_app. intros [H|H]; eauto.
  - apply rep_stays; [|done]. intros q q' u Hq Hin. by apply (IH q q' u Ht).
  - destruct (before p); [by intros ?%elem_of_nil|].
    intros ->%list_elem_of_singleton. by exists [], s.
  - destruct (matches ignorecase r p); [|by intros ?%elem_of_nil].
    intros ->%list_elem_of_singleton. by exists [], s.
  - destruct (before p) as [x|].
    + destruct (set_matches ignorecase false items x); [by intros ?%elem_of_nil|].
      intros ->%list_elem_of_singleton. by exists [], s.
    + intros ->%list_elem_of_singleton. by exists [], s.
  - by apply IH.
Qed.

(** **** Runs of one class *)

Lemma step_take (ok : N → bool) (b : option N) (x : N) (t : str) :
  ok x = true → step ok (Pos b (x :: t)) = [Pos (Some x) t].
Proof. intros H. unfold step. cbn [rest]. by rewrite H. Qed.

Lemma step_stop (ok : N → bool) (b : option N) (t : str) :
  (∀ w, head t = Some w → ok w = false) → step ok (Pos b t) = [].
Proof.
  intros Ht. unfold step. cbn [rest]. destruct t as [|w t']; [done|].
  by rewrite (Ht w).
Qed.

Lemma filter_progress_take (b b' : option N) (x : N) (t : str) :
  List.filter (progress (Pos b (x :: t))) [Pos b' t] = [Pos b' t].
Proof.
  cbn [List.filter]. unfold progress. cbn [rest length].
  by rewrite (proj2 (Nat.ltb_lt _ _)) by lia.
Qed.

(** A greedy repetition of one class over a run of the class takes the
    whole run first. *)
Lemma rep_run_head (ok : N → bool) (s t : str) (fuel lo : nat) (hi : option nat)
    (b : option N) :
  forallb ok s = true → (∀ w, head t = Some w → ok w = false) →
  (lo ≤ length s)%nat → (∀ h, hi = Some h → (length s ≤ h)%nat) →
  (length (s ++ t) < fuel)%nat →
  head (rep (step ok) fuel lo hi (Pos b (s ++ t))) =
  Some (Pos (from_option Some b (last s)) t).
Proof.
  revert fuel lo hi b. induction s as [|x s IH]; intros fuel lo hi b Hs Ht Hlo Hhi Hf.
  - destruct fuel as [|fuel]; [simpl in Hf; lia|]. simpl in Hlo.
    assert (lo = 0%nat) as -> by lia. cbn [rep app].
    rewrite step_stop by done.
    cbn [List.filter]. by case_decide.
  - destruct fuel as [|fuel]; [simpl in Hf; lia|].
    cbn [forallb] in Hs. apply andb_true_iff in Hs as [Hx Hs].
    cbn [rep]. rewrite decide_False.
    2:{ intros ->. specialize (Hhi 0%nat eq_refl). simpl in Hhi. lia. }
    change ((x :: s) ++ t) with (x :: s ++ t).
    rewrite step_take, filter_progress_take by done.
    rewrite bind_singleton. apply head_app_l.
    rewrite <- after_cons. apply IH; [done|done|simpl in Hlo; lia| |simpl in Hf; lia].
    intros h Hh. destruct hi as [h'|]; [|done]. injection Hh as <-.
    specialize (Hhi h' eq_refl). simpl in Hhi. lia.
Qed.

(** The matches of an unbounded repetition over a run, down to the one
    that ends behind the first part [s1] of the run: those before it in
    the order of the engine end further on. *)
Lemma rep_run_split (ok : N → bool) (s1 s2 t : str) (fuel lo : nat) (b : option N) :
  forallb ok s1 = true → (∀ w, head t = Some w → ok w = false) →
  (lo ≤ length s1)%nat → (length (s1 ++ s2 ++ t) < fuel)%nat →
  ∃ l1 l2,
    rep (step ok) fuel lo None (Pos b (s1 ++ s2 ++ t)) =
      l1 ++ Pos (from_option Some b (last s1)) (s2 ++ t) :: l2 ∧
    ∀ z, z ∈ l1 → ∃ s2a s2b, s2 = s2a ++ s2b ∧ s2a ≠ [] ∧ rest z = s2b ++ t.
Proof.
  revert fuel lo b. induction s1 as [|x s1 IH]; intros fuel lo b Hs Ht Hlo Hf.
  - destruct fuel as [|fuel]; [simpl in Hf; lia|]. simpl in Hlo.
    assert (lo = 0%nat) as -> by lia. cbn [rep app last from_option].
    rewrite decide_False by done. rewrite decide_True by done.
    eexists _, []. split; [reflexivity|].
    intros z (q & Hz & Hq)%list_elem_of_bind.
    apply list_elem_of_In, filter_In in Hq as [Hq _]. apply list_elem_of_In in Hq.
    apply (step_stays _ _ _ s2 t) in Hq as (y & s2' & -> & _ & ->); [|done|done].
    apply (rep_stays _ t _ _ _ _ _ s2') in Hz as (u1 & u2 & -> & Hz); [| |done].
    + exists (y :: u1), u2. done.
    + intros q q' u Hq Hin.
      apply (step_stays _ _ _ u t) in Hin as (y' & u' & -> & _ & ->); [|done|done].
      by exists [y'], u'.
  - destruct fuel as [|fuel]; [simpl in Hf; lia|].
    cbn [forallb] in Hs. apply andb_true_iff in Hs as [Hx Hs].
    cbn [rep]. rewrite decide_False by done.
    change ((x :: s1) ++ s2 ++ t) with (x :: s1 ++ s2 ++ t).
    rewrite step_take, filter_progress_take by done.
    rewrite bind_singleton.
    destruct (IH fuel (pred lo) (Some x) Hs Ht) as (l1 & l2 & Hrep & Hl1);
      [simpl in Hlo; lia|simpl in Hf; lia|].
    cbn [fmap option_fmap option_map]. rewrite Hrep.
    exists l1. eexists. split; [|exact Hl1].
    rewrite <- after_cons. rewrite <- (assoc_L (++)). reflexivity.
Qed.

(** **** Patterns of one step *)

Lemma rep_ext (m1 m2 : pos → list pos) (fuel lo : nat) (hi : option nat) (p : pos) :
  (∀ q, m1 q = m2 q) → rep m1 fuel lo hi p = rep m2 fuel lo hi p.
Proof.
  intros H. revert lo hi p. induction fuel as [|fuel IH]; intros lo hi p; cbn [rep]; [done|].
  rewrite H. f_equal. case_decide; [done|]. apply bind_ext_in. intros q _. apply IH.
Qed.

Lemma rep_nil (m : pos → list pos) (fuel : nat) (hi : option nat) (p : pos) :
  m p = [] → rep m fuel 0 hi p = [p].
Proof.
  intros H. destruct fuel as [|fuel]; cbn [rep]; [done|].
  rewrite H. cbn [List.filter]. by case_decide.
Qed.

Lemma rep_nil_1 (m : pos → list pos) (fuel : nat) (hi : option nat) (p : pos) :
  m p = [] → rep m fuel 1 hi p = [].
Proof.
  intros H. destruct fuel as [|fuel]; cbn [rep]; [done|].
  rewrite H. cbn [List.filter]. by case_decide.
Qed.

Lemma head_rep_run (L : re) (lo : nat) (hi : option nat) (s t : str) (b : option N) :
  (∀ p, matches ignorecase L p = step (consumes ignorecase L) p) →
  forallb (consumes ignorecase L) s = true →
  (∀ w, head t = Some w → consumes ignorecase L w = false) →
  (lo ≤ length s)%nat → (∀ h, hi = Some h → (length s ≤ h)%nat) →
  head (matches ignorecase (Rep L lo hi) (Pos b (s ++ t))) =
  Some (Pos (from_option Some b (last s)) t).
Proof.
  intros HL Hs Ht Hlo Hhi. cbn [matches].
  rewrite (rep_ext _ (step (consumes ignorecase L))) by done.
  apply rep_run_head; try done. cbn [rest]. lia.
Qed.

Lemma head_cat_assoc (r1 r2 r3 : re) (p y z : pos) :
  head (matches ignorecase r1 p) = Some y →
  head (matches ignorecase r2 y ≫= matches ignorecase r3) = Some z →
  head (matches ignorecase (Cat (Cat r1 r2) r3) p) = Some z.
Proof.
  cbn [matches]. destruct (matches ignorecase r1 p) as [|y' l]; [done|].
  intros [= ->] Hz. rewrite bind_cons, bind_app. by apply head_app_l.
Qed.

(** A code point of the class, with an optional [D] behind it that is
    not there. *)
Lemma class_dash_take (L D : re) (b : option N) (x : N) (t : str) :
  (∀ p, matches ignorecase L p = step (consumes ignorecase L) p) →
  (∀ p, matches ignorecase D p = step (consumes ignorecase D) p) →
  consumes ignorecase L x = true →
  (∀ w, head t = Some w → consumes ignorecase D w = false) →
  matches ignorecase (Cat L (opt D)) (Pos b (x :: t)) = [Pos (Some x) t].
Proof.
  intros HL HD Hx Ht. cbn [matches]. rewrite HL, step_take by done.
  rewrite bind_singleton. apply matches_opt_nil. rewrite HD. by apply step_stop.
Qed.

(** [(?:L D?)*L+] over a run of [L] without a [D]: the engine gives the
    star all of the run but its last code point. *)
Lemma label_run_head (L D : re) (s t : str) (fuel : nat) (b : option N) :
  (∀ p, matches ignorecase L p = step (consumes ignorecase L) p) →
  (∀ p, matches ignorecase D p = step (consumes ignorecase D) p) →
  s ≠ [] →
  forallb (consumes ignorecase L) s = true →
  forallb (λ x, negb (consumes ignorecase D x)) s = true →
  (∀ w, head t = Some w → consumes ignorecase L w = false) →
  (∀ w, head t = Some w → consumes ignorecase D w = false) →
  (length (s ++ t) < fuel)%nat →
  head (rep (matches ignorecase (Cat L (opt D))) fuel 0 None (Pos b (s ++ t))
        ≫= matches ignorecase (plus L)) =
  Some (Pos (from_option Some b (last s)) t).
Proof.
  intros HL HD Hne Hs Hd HtL HtD. revert fuel b Hne.
  induction s as [|x s IH]; intros fuel b Hne Hf; [done|].
  destruct fuel as [|fuel]; [simpl in Hf; lia|].
  cbn [forallb] in Hs, Hd.
  apply andb_true_iff in Hs as [Hx Hs]. apply andb_true_iff in Hd as [_ Hd].
  cbn [rep]. rewrite decide_False by done. rewrite decide_True by done.
  change ((x :: s) ++ t) with (x :: s ++ t).
  rewrite class_dash_take; [|done|done|done|].
  2:{ destruct s as [|y s']; [exact HtD|]. intros w [= <-].
      cbn [forallb] in Hd. apply andb_true_iff in Hd as [Hy _].
      by apply negb_true_iff in Hy. }
  rewrite filter_progress_take, bind_singleton.
  cbn [fmap option_fmap option_map pred]. rewrite bind_app.
  destruct s as [|y s'].
  - cbn [app].
    assert (matches ignorecase (Cat L (opt D)) (Pos (Some x) t) = []) as Hstop.
    { cbn [matches]. rewrite HL, step_stop by done. done. }
    rewrite (rep_nil _ _ _ _ Hstop), bind_singleton.
    assert (matches ignorecase (plus L) (Pos (Some x) t) = []) as ->.
    { unfold plus. cbn [matches]. apply rep_nil_1. rewrite HL. by apply step_stop. }
    cbn [app]. rewrite bind_singleton.
    apply (head_rep_run L 1 None [x] t b); try done.
    cbn [forallb]. by rewrite Hx.
  - apply head_app_l. rewrite <- after_cons.
    apply IH; [done|done|done|simpl in Hf; simpl; lia].
Qed.

(** **** Replacement of a match *)

Lemma sub_from_skip (r : re) (repl : str) (k : nat) (b : option N) (s t : str) :
  length s = k →
  sub_from ignorecase r repl k b (s ++ t) =
  sub_from ignorecase r repl 0 (from_option Some b (last s)) t.
Proof.
  revert k b. induction s as [|c s IH]; intros k b Hk.
  - simpl in Hk. by subst k.
  - destruct k as [|k]; [done|]. injection Hk as Hk.
    cbn [app sub_from]. rewrite (IH k (Some c) Hk). by rewrite (after_cons b).
Qed.

(** Where the engine reports a match over [s], the replacement is written
    in place of [s] and the scan goes on behind it. *)
Lemma sub_from_match (r : re) (repl : str) (prev b' : option N) (s t : str) :
  s ≠ [] →
  match_at ignorecase r (Pos prev (s ++ t)) = Some (Pos b' t) →
  sub_from ignorecase r repl 0 prev (s ++ t) =
  repl ++ sub_from ignorecase r repl 0 (last s) t.
Proof.
  destruct s as [|c s]; [done|]. intros _ H.
  change ((c :: s) ++ t) with (c :: s ++ t) in *.
  cbn [sub_from]. rewrite H. cbn [rest length]. rewrite length_app.
  replace (S (length s + length t) - length t)%nat with (S (length s)) by lia.
  rewrite (sub_from_skip r repl (length s) (Some c) s t eq_refl).
  rewrite (after_cons None). by destruct (last (c :: s)).
Qed.

End first_match.

(** *** URLs in parts, on the ASCII tables *)

Section url_parts.
Import Re Patterns.
#[local] Existing Instance ascii_tables.

(** A test on the code points of ASCII is settled by running it on all
    of them. *)
Lemma ascii_range_all (P : N → bool) :
  forallb P (N.of_nat <$> seq 0 128) = true → ∀ x, x < 128 → P x = true.
Proof.
  intros H x Hx. rewrite forallb_forall in H. apply H.
  apply list_elem_of_In, list_elem_of_fmap. exists (N.to_nat x).
  split; [lia|]. apply list_elem_of_In, in_seq. lia.
Qed.

Lemma ascii_implies (G P : N → bool) :
  (∀ x, G x = true → x < 128) →
  forallb (λ x, implb (G x) (P x)) (N.of_nat <$> seq 0 128) = true →
  ∀ x, G x = true → P x = true.
Proof.
  intros HG H x Hx. pose proof (ascii_range_all _ H x (HG x Hx)) as HP.
  cbn beta in HP. by rewrite Hx in HP.
Qed.

Lemma ascii_refutes (G P : N → bool) :
  (∀ x, G x = true → x < 128) →
  forallb (λ x, implb (G x) (negb (P x))) (N.of_nat <$> seq 0 128) = true →
  ∀ x, G x = true → P x = false.
Proof.
  intros HG H x Hx. apply negb_true_iff.
  by apply (ascii_implies G (λ x, negb (P x)) HG H).
Qed.

Ltac bool_to_prop :=
  repeat match goal with
  | H : (_ || _) = true |- _ => apply orb_true_iff in H as [H|H]
  | H : (_ && _) = true |- _ =>
      let H' := fresh H in apply andb_true_iff in H as [H' H]
  | H : negb _ = true |- _ => apply negb_true_iff in H
  | H : (_ <=? _) = true |- _ => apply N.leb_le in H
  | H : (_ <? _) = true |- _ => apply N.ltb_lt in H
  | H : (_ =? _) = true |- _ => apply N.eqb_eq in H
  end.

Lemma ascii_letter_lt (x : N) : ascii_letter x = true → x < 128.
Proof.
  unfold ascii_letter, PyStr.is_ascii_upper, PyStr.is_ascii_lower.
  intros H. bool_to_prop; lia.
Qed.

Lemma ascii_digit_lt (x : N) : ascii_digit x = true → x < 128.
Proof. unfold ascii_digit. intros H. bool_to_prop; lia. Qed.

Lemma ascii_alnum_lt (x : N) : ascii_alnum x = true → x < 128.
Proof.
  unfold ascii_alnum. intros [H|H]%orb_true_iff;
    [by apply ascii_letter_lt|by apply ascii_digit_lt].
Qed.

Lemma ascii_space_lt (x : N) : ascii_space x = true → x < 128.
Proof. unfold ascii_space. intros H. bool_to_prop; lia. Qed.

Lemma user_char_lt (x : N) : user_char x = true → x < 128.
Proof. unfold user_char. intros H. bool_to_prop; lia. Qed.

Lemma path_char_lt (x : N) : path_char x = true → x < 128.
Proof.
  unfold path_char, rest_char, user_char. intros H. bool_to_prop. lia.
Qed.

(** **** The boundary and the prefix *)

Lemma head_url_boundary (prev : option N) (text : str) :
  boundary_ok prev = true →
  head (matches true url_boundary (Pos prev text)) = Some (Pos prev text).
Proof.
  destruct prev as [x|]; [|done]. intros Hx.
  unfold url_boundary. cbn [matches before].
  assert (set_matches true false [IWord; ichr "/"; ichr "."] x = false) as ->; [|done].
  revert x Hx. apply ascii_refutes; [|vm_compute; reflexivity].
  intros x H. unfold boundary_ok in H. bool_to_prop. lia.
Qed.

Lemma alt_nil (r1 r2 : re) (p : pos) :
  matches true r1 p = [] → matches true r2 p = [] → matches true (Alt r1 r2) p = [].
Proof. cbn [matches]. by intros -> ->. Qed.

Lemma head_lit (s : string) (b : option N) (t : str) :
  cps s ≠ [] →
  head (matches true (lit s) (Pos b (cps s ++ t))) = Some (Pos (last (cps s)) t).
Proof. intros H. unfold lit. by rewrite matches_lits. Qed.

Lemma head_url_prefix (prefix body : str) (b : option N) :
  prefix_ok prefix = true →
  head (matches true url_prefix (Pos b (prefix ++ body))) = Some (Pos (last prefix) body).
Proof.
  intros H. apply bool_decide_eq_true in H.
  unfold url_prefix.
  repeat (apply elem_of_cons in H as [->|H]); [| | | |by apply elem_of_nil in H].
  - (* http:// *)
    do 2 apply head_alt_l.
    change (cps "http://" ++ body) with (cps "http" ++ (cps "://" ++ body)).
    eapply head_cat; [eapply head_cat|].
    + by apply (head_lit "http").
    + rewrite matches_opt_nil; [done|]. by vm_compute.
    + by apply (head_lit "://").
  - (* https:// *)
    do 2 apply head_alt_l.
    change (cps "https://" ++ body) with (cps "http" ++ (cps "s" ++ (cps "://" ++ body))).
    eapply head_cat; [eapply head_cat|].
    + by apply (head_lit "http").
    + apply head_opt; [by apply (head_lit "s")|]. simpl. lia.
    + by apply (head_lit "://").
  - (* ftp:// *)
    apply head_alt_l, head_alt_r.
    + do 2 apply cat_nil_l. apply matches_lits_reject. by vm_compute.
    + by apply (head_lit "ftp://").
  - (* www. *)
    apply head_alt_r.
    + apply alt_nil.
      * do 2 apply cat_nil_l. apply matches_lits_reject. by vm_compute.
      * apply matches_lits_reject. by vm_compute.
    + change (cps "www." ++ body) with (cps "www" ++ ([] ++ (cps "." ++ body))).
      eapply head_cat; [eapply head_cat|].
      * by apply (head_lit "www").
      * apply (head_rep_run true digit 0 (Some 3%nat) []); try done.
        -- intros w [= <-]. by vm_compute.
        -- intros h _. apply Nat.le_0_l.
      * by apply (head_lit ".").
Qed.

(** **** The user part *)

Lemma rest_char_lt (x : N) : rest_char x = true → x < 128.
Proof. unfold rest_char, user_char. intros H. bool_to_prop. lia. Qed.

Lemma tail_stop (tail : str) (w : N) :
  tail_ok tail = true → head tail = Some w → ascii_space w = true.
Proof.
  unfold tail_ok. intros [_ H]%andb_true_iff. destruct tail; [done|].
  by intros [= <-].
Qed.

(** The code point at the head of [s ++ t] fails a test that all of [s]
    and the head of [t] fail. *)
Lemma head_app_fails (ok : N → bool) (s t : str) :
  forallb (λ x, negb (ok x)) s = true →
  (∀ w, head t = Some w → ok w = false) →
  ∀ w, head (s ++ t) = Some w → ok w = false.
Proof.
  intros Hs Ht w. destruct s as [|x s]; [apply Ht|].
  intros [= <-]. cbn [forallb] in Hs. apply andb_true_iff in Hs as [Hx _].
  by apply negb_true_iff.
Qed.

Lemma forallb_suffix (ok : N → bool) (s1 s2 : str) :
  forallb ok (s1 ++ s2) = true → forallb ok s2 = true.
Proof. rewrite forallb_app. by intros [_ H]%andb_true_iff. Qed.

Lemma forallb_impl (f g : N → bool) (s : str) :
  (∀ x, f x = true → g x = true) → forallb f s = true → forallb g s = true.
Proof.
  intros H. induction s as [|x s IH]; [done|]. cbn [forallb].
  intros [Hx Hs]%andb_true_iff. by rewrite (H x Hx), IH.
Qed.

Lemma cat_nil_all (r1 r2 : re) (p : pos) :
  (∀ y, y ∈ matches true r1 p → matches true r2 y = []) →
  matches true (Cat r1 r2) p = [].
Proof. intros H. cbn [matches]. by apply bind_nil_all. Qed.

Lemma at_fails_rest (s t : str) :
  forallb rest_char s = true → (∀ w, head t = Some w → ascii_space w = true) →
  ∀ w, head (s ++ t) = Some w → consumes true (chr "@") w = false.
Proof.
  intros Hs Ht. apply head_app_fails.
  - revert Hs. apply forallb_impl. intros x Hx. apply negb_true_iff. revert x Hx.
    apply ascii_refutes; [apply rest_char_lt|vm_compute; reflexivity].
  - intros w Hw%Ht. revert w Hw.
    apply ascii_refutes; [apply ascii_space_lt|vm_compute; reflexivity].
Qed.

(** Where no [@] stands before the next white space there is no user
    part. *)
Lemma matches_userinfo_none (s t : str) (b : option N) :
  forallb rest_char s = true → (∀ w, head t = Some w → ascii_space w = true) →
  matches true url_userinfo (Pos b (s ++ t)) = [Pos b (s ++ t)].
Proof.
  intros Hs Ht. unfold url_userinfo. apply matches_opt_nil, cat_nil_all.
  intros y Hy. apply (matches_stays _ _ t _ _ s) in Hy as (s1 & s2 & -> & Hy); [|
    |done].
  - destruct y as [yb yr]. cbn [rest] in Hy. subst yr.
    change (chr "@") with (Chr 64). cbn [matches]. apply step_stop.
    apply (at_fails_rest s2 t); [by apply forallb_suffix in Hs|done].
  - intros w Hw%Ht. revert w Hw.
    apply ascii_refutes; [apply ascii_space_lt|vm_compute; reflexivity].
Qed.

Lemma bind_bind {A B C} (f : A → list B) (g : B → list C) (l : list A) :
  (l ≫= f) ≫= g = l ≫= (λ x, f x ≫= g).
Proof.
  induction l as [|a l IH]; [done|]. by rewrite !bind_cons, bind_app, IH.
Qed.

(** A user part is matched up to its [@] when no [@] follows before the
    next white space. *)
Lemma head_userinfo (user s t : str) (b : option N) :
  user ≠ [] → forallb user_char user = true →
  forallb rest_char s = true → (∀ w, head t = Some w → ascii_space w = true) →
  head (matches true url_userinfo (Pos b (user ++ 64 :: s ++ t))) =
  Some (Pos (Some 64) (s ++ t)).
Proof.
  intros Hne Huser Hs Ht. unfold url_userinfo.
  apply head_opt; [|cbn [rest]; rewrite (length_app user); cbn [length]; lia].
  assert (∀ w, head t = Some w → consumes true nonspace w = false) as Hstop.
  { intros w Hw%Ht. revert w Hw.
    apply ascii_refutes; [apply ascii_space_lt|vm_compute; reflexivity]. }
  destruct (rep_run_split (consumes true nonspace) user (64 :: s) t
              (S (length (user ++ (64 :: s) ++ t))) 1 b) as (l1 & l2 & Hrep & Hl1).
  { revert Huser. apply forallb_impl.
    apply ascii_implies; [apply user_char_lt|vm_compute; reflexivity]. }
  { done. }
  { destruct user; [done|simpl; lia]. }
  { lia. }
  cbn [matches]. unfold plus at 1. cbn [matches rest].
  change (rep (matches true nonspace)) with (rep (step (consumes true nonspace))).
  change (user ++ 64 :: s ++ t) with (user ++ (64 :: s) ++ t).
  rewrite Hrep, bind_bind. apply head_bind_skip.
  - intros z Hz. apply Hl1 in Hz as (s2a & s2b & Hsplit & Hne2 & Hz).
    apply bind_nil_all. intros y Hy.
    apply (matches_stays _ _ t _ _ s2b) in Hy as (u1 & u2 & -> & Hy); [| |done].
    + destruct y as [yb yr]. cbn [rest] in Hy. subst yr.
      apply step_stop. apply (at_fails_rest u2 t); [|done].
      destruct s2a as [|c s2a]; [done|]. injection Hsplit as _ ->.
      by do 2 apply forallb_suffix in Hs.
    + intros w Hw%Ht. revert w Hw.
      apply ascii_refutes; [apply ascii_space_lt|vm_compute; reflexivity].
  - rewrite (matches_opt_nil true (chr ":" ⋅ star nonspace)).
    + rewrite bind_singleton. change (chr "@") with (Chr 64). cbn [matches].
      change ((64 :: s) ++ t) with (64 :: s ++ t).
      by rewrite step_take by apply chr_matches_refl.
    + apply cat_nil_l. change (chr ":") with (Chr 58). cbn [matches].
      apply step_stop. intros w [= <-]. by vm_compute.
Qed.

(** **** The host *)

Lemma stopper_lt (w : N) : ascii_space w || (w =? 47) = true → w < 128.
Proof. unfold ascii_space. intros H. bool_to_prop; lia. Qed.

(** A host that starts with a letter is no dotted quad. *)
Lemma matches_url_ip_letter (x : N) (t : str) (b : option N) :
  ascii_letter x = true → matches true url_ip (Pos b (x :: t)) = [].
Proof.
  intros Hx. unfold url_ip. do 2 apply cat_nil_l.
  apply cat_not_ahead_nil.
  { intros p' (q & Hq & Hp')%list_elem_of_bind.
    apply list_elem_of_bind in Hp' as (q' & Hq' & Hp').
    apply not_ahead_same in Hp' as ->. apply not_ahead_same in Hq' as ->.
    by apply not_ahead_same in Hq. }
  assert (consumes true (Set_ false [irange "1" "9"]) x = false) as H19.
  { apply (ascii_refutes ascii_letter _ ascii_letter_lt); [vm_compute; reflexivity|done]. }
  assert (chr_matches true 49 x = false) as H1.
  { apply (ascii_refutes ascii_letter _ ascii_letter_lt); [vm_compute; reflexivity|done]. }
  assert (chr_matches true 50 x = false) as H2.
  { apply (ascii_refutes ascii_letter _ ascii_letter_lt); [vm_compute; reflexivity|done]. }
  repeat apply alt_nil.
  - apply cat_nil_l. apply step_stop. by intros w [= <-].
  - do 2 apply cat_nil_l. apply step_stop. by intros w [= <-].
  - do 2 apply cat_nil_l. apply step_stop. by intros w [= <-].
  - apply cat_nil_l. by apply matches_lits_reject.
Qed.

(** The first label of a host name, up to the dot behind it. *)
Lemma head_label (l t : str) (fuel : nat) (b : option N) :
  label_ok l = true → head t = Some 46 → (length (l ++ t) < fuel)%nat →
  head (rep (matches true (label_set ⋅ opt (chr "-"))) fuel 0 None (Pos b (l ++ t))
        ≫= matches true (plus label_set)) =
  Some (Pos (from_option Some b (last l)) t).
Proof.
  intros Hl Ht Hf.
  assert (l ≠ [] ∧ forallb ascii_alnum l = true) as [Hne Hal].
  { unfold label_ok in Hl. by destruct l. }
  apply (label_run_head true label_set (chr "-")); try done.
  - revert Hal. apply forallb_impl.
    apply ascii_implies; [apply ascii_alnum_lt|vm_compute; reflexivity].
  - revert Hal. apply forallb_impl. intros x Hx. apply negb_true_iff. revert x Hx.
    apply ascii_refutes; [apply ascii_alnum_lt|vm_compute; reflexivity].
  - intros w Hw. rewrite Ht in Hw. injection Hw as <-. by vm_compute.
  - intros w Hw. rewrite Ht in Hw. injection Hw as <-. by vm_compute.
Qed.

Lemma head_dot_labels (ls : list str) (t : str) :
  head (concat ((λ l, 46 :: l) <$> ls) ++ 46 :: t) = Some 46.
Proof. by destruct ls. Qed.

(** The labels behind the first, and the top-level domain: the engine
    gives the star every label, the top-level domain too, and takes the
    last turn back when no dot follows. *)
Lemma head_domain_tail (ls : list str) (trun t : str) (fuel : nat) (b : option N) :
  forallb label_ok ls = true →
  forallb (consumes true tld_set) trun = true →
  forallb (λ x, negb (consumes true (chr ".") x)) trun = true →
  (2 ≤ length trun)%nat →
  (∀ w, head t = Some w → ascii_space w || (w =? 47) = true) →
  (length (concat ((λ l, 46%N :: l) <$> ls) ++ 46%N :: trun ++ t) < fuel)%nat →
  head (rep (matches true (chr "." ⋅ star (label_set ⋅ opt (chr "-")) ⋅ plus label_set))
          fuel 0 None
          (Pos b (concat ((λ l, 46 :: l) <$> ls) ++ 46 :: trun ++ t))
        ≫= matches true (chr "." ⋅ at_least tld_set 2)) =
  Some (Pos (last trun) t).
Proof.
  intros Hls Htld Hdot Hlen Ht.
  assert (∀ w, head t = Some w →
            consumes true (chr "." ⋅ star (label_set ⋅ opt (chr "-")) ⋅ plus label_set) w
            = false) as HtM.
  { intros w Hw%Ht. revert w Hw.
    apply ascii_refutes; [apply stopper_lt|vm_compute; reflexivity]. }
  assert (∀ w, head t = Some w → consumes true tld_set w = false) as HtT.
  { intros w Hw%Ht. revert w Hw.
    apply ascii_refutes; [apply stopper_lt|vm_compute; reflexivity]. }
  assert (∀ w, head t = Some w → consumes true (chr ".") w = false) as HtD.
  { intros w Hw%Ht. revert w Hw.
    apply ascii_refutes; [apply stopper_lt|vm_compute; reflexivity]. }
  revert fuel b. induction ls as [|l ls IH]; intros fuel b Hf.
  - cbn [fmap list_fmap concat app] in *.
    destruct fuel as [|fuel]; [simpl in Hf; lia|].
    cbn [rep]. rewrite decide_False by done. rewrite decide_True by done.
    rewrite bind_app, bind_singleton.
    rewrite (bind_nil_all (matches true (chr "." ⋅ at_least tld_set 2))).
    + cbn [app]. eapply head_cat.
      * change (chr ".") with (Chr 46). cbn [matches].
        by rewrite step_take by apply chr_matches_refl.
      * unfold at_least.
        assert (trun ≠ []) as Hne by (destruct trun; [simpl in Hlen; lia|done]).
        rewrite (head_rep_run true tld_set 2 None trun t (Some 46)); try done.
        destruct (last trun) eqn:E; [done|]. by apply last_None in E.
    + intros z (q & Hz & Hq)%list_elem_of_bind.
      apply list_elem_of_In, filter_In in Hq as [Hq Hprog].
      apply list_elem_of_In in Hq.
      apply (matches_stays _ _ t _ _ (46 :: trun)) in Hq as (s1 & s2 & Hsplit & Hq);
        [|done|done].
      unfold progress in Hprog. apply Nat.ltb_lt in Hprog. rewrite Hq in Hprog.
      cbn [rest length] in Hprog. rewrite !length_app in Hprog.
      destruct s1 as [|c s1]; [simpl in Hsplit; subst s2; simpl in Hprog; lia|].
      injection Hsplit as _ ->.
      apply (rep_stays _ t _ _ _ _ _ s2) in Hz as (u1 & u2 & -> & Hz); [| |done].
      2:{ intros q0 q' u Hq0 Hin.
          eapply matches_stays; [exact HtM|exact Hq0|exact Hin]. }
      destruct z as [zb zr]. cbn [rest] in Hz. subst zr.
      apply cat_nil_l. change (chr ".") with (Chr 46). cbn [matches].
      apply step_stop. apply head_app_fails; [|done].
      by do 2 apply forallb_suffix in Hdot.
  - cbn [fmap list_fmap concat] in *. cbn [forallb] in Hls.
    apply andb_true_iff in Hls as [Hl Hls].
    destruct fuel as [|fuel]; [simpl in Hf; lia|].
    cbn [rep]. rewrite decide_False by done. rewrite decide_True by done.
    rewrite <- (assoc_L (++)) in Hf |- *.
    change ((46 :: l) ++ ?r) with (46 :: l ++ r) in Hf |- *.
    set (tl := concat ((λ l0, 46 :: l0) <$> ls) ++ 46 :: trun ++ t) in *.
    assert (head (matches true
                    (chr "." ⋅ star (label_set ⋅ opt (chr "-")) ⋅ plus label_set)
                    (Pos b (46 :: l ++ tl))) =
            Some (Pos (from_option Some (Some 46) (last l)) tl)) as Hturn.
    { eapply head_cat_assoc.
      - change (chr ".") with (Chr 46). cbn [matches].
        by rewrite step_take by apply chr_matches_refl.
      - unfold star at 1. cbn [matches]. apply head_label; [done| |cbn [rest]; lia].
        apply head_dot_labels. }
    destruct (matches true _ (Pos b (46 :: l ++ tl))) as [|q lm]; [done|].
    injection Hturn as ->.
    cbn [List.filter]. unfold progress at 1. cbn [rest length].
    rewrite (proj2 (Nat.ltb_lt _ _)) by (rewrite length_app; lia).
    rewrite bind_cons, !bind_app. do 2 apply head_app_l.
    cbn [fmap option_fmap option_map pred].
    apply IH; [done|]. cbn [length] in Hf. rewrite length_app in Hf. lia.
Qed.

(** A host name is matched by the branch for host names up to the end
    of the run of the class of top-level domains behind its last dot:
    the class holds the colon and the digits, so a port is part of the
    run. *)
Lemma head_url_host_name (label : str) (labels : list str) (trun t : str)
    (b : option N) :
  (if label is x :: _ then ascii_letter x else false) = true →
  label_ok label = true → forallb label_ok labels = true →
  forallb (consumes true tld_set) trun = true →
  forallb (λ x, negb (consumes true (chr ".") x)) trun = true →
  (2 ≤ length trun)%nat →
  (∀ w, head t = Some w → ascii_space w || (w =? 47) = true) →
  head (matches true url_host
          (Pos b (label ++ concat ((λ l, 46 :: l) <$> labels) ++ 46 :: trun ++ t))) =
  Some (Pos (last trun) t).
Proof.
  intros Hx Hl Hls Htld Hdot Hlen Ht. unfold url_host.
  apply head_alt_l, head_alt_r.
  { destruct label as [|x label]; [done|]. by apply matches_url_ip_letter. }
  unfold url_domain. eapply head_cat_assoc.
  - unfold star at 1. cbn [matches]. apply head_label; [done| |cbn [rest]; lia].
    apply head_dot_labels.
  - unfold star at 1. cbn [matches]. apply head_domain_tail; try done.
    cbn [rest]. lia.
Qed.

(** Without a dot before the next white space or slash there is no host
    name. *)
Lemma matches_url_domain_none (s t : str) (b : option N) :
  forallb (λ x, negb (consumes true (chr ".") x)) s = true →
  (∀ w, head t = Some w → ascii_space w || (w =? 47) = true) →
  matches true url_domain (Pos b (s ++ t)) = [].
Proof.
  intros Hs Ht. unfold url_domain. apply cat_nil_all. intros y Hy.
  apply (matches_stays _ _ t _ _ s) in Hy as (s1 & s2 & -> & Hy); [| |done].
  - destruct y as [yb yr]. cbn [rest] in Hy. subst yr.
    apply cat_nil_l. change (chr ".") with (Chr 46). cbn [matches].
    apply step_stop. apply head_app_fails; [by apply forallb_suffix in Hs|].
    intros w Hw%Ht.
    apply (ascii_refutes _ _ stopper_lt); [vm_compute; reflexivity|done].
  - intros w Hw%Ht.
    apply (ascii_refutes _ _ stopper_lt); [vm_compute; reflexivity|done].
Qed.

Lemma head_url_host_localhost (s t : str) (b : option N) :
  forallb (λ x, negb (consumes true (chr ".") x)) s = true →
  (∀ w, head t = Some w → ascii_space w || (w =? 47) = true) →
  head (matches true url_host (Pos b (cps "localhost" ++ s ++ t))) =
  Some (Pos (Some 116) (s ++ t)).
Proof.
  intros Hs Ht. unfold url_host. apply head_alt_r.
  - apply alt_nil.
    + by apply matches_url_ip_letter.
    + rewrite (assoc_L (++)). apply matches_url_domain_none; [|done].
      rewrite forallb_app, Hs. by vm_compute.
  - cbn [matches]. by apply (head_lit "localhost").
Qed.

(** **** The port and the path *)

Lemma head_url_port (digits t : str) (b : option N) :
  port_ok (Some digits) = true →
  (∀ w, head t = Some w → ascii_space w || (w =? 47) = true) →
  head (matches true url_port (Pos b (58 :: digits ++ t))) = Some (Pos (last digits) t).
Proof.
  unfold port_ok. intros [[Hd Hlo%Nat.leb_le]%andb_true_iff Hhi%Nat.leb_le]%andb_true_iff Ht.
  assert (digits ≠ []) as Hne by (destruct digits; [simpl in Hlo; lia|done]).
  unfold url_port. apply head_opt; [|cbn [rest length]; rewrite length_app; lia].
  eapply head_cat.
  - change (chr ":") with (Chr 58). cbn [matches].
    by rewrite step_take by apply chr_matches_refl.
  - unfold between. rewrite (head_rep_run true digit 2 (Some 5%nat) digits t); try done.
    + destruct (last digits) eqn:E; [done|]. by apply last_None in E.
    + revert Hd. apply forallb_impl.
      apply ascii_implies; [apply ascii_digit_lt|vm_compute; reflexivity].
    + intros w Hw%Ht.
      apply (ascii_refutes _ _ stopper_lt); [vm_compute; reflexivity|done].
    + by intros h [= <-].
Qed.

Lemma matches_url_port_none (t : str) (b : option N) :
  (∀ w, head t = Some w → ascii_space w || (w =? 47) = true) →
  matches true url_port (Pos b t) = [Pos b t].
Proof.
  intros Ht. unfold url_port. apply matches_opt_nil, cat_nil_l.
  change (chr ":") with (Chr 58). cbn [matches]. apply step_stop.
  intros w Hw%Ht.
  apply (ascii_refutes _ _ stopper_lt); [vm_compute; reflexivity|done].
Qed.

Lemma head_url_path (s t : str) (b : option N) :
  forallb path_char s = true → (∀ w, head t = Some w → ascii_space w = true) →
  head (matches true url_path (Pos b (47 :: s ++ t))) =
  Some (Pos (from_option Some (Some 47) (last s)) t).
Proof.
  intros Hs Ht. unfold url_path.
  apply head_opt; [|cbn [rest length]; rewrite length_app; lia].
  eapply head_cat.
  - change (chr "/") with (Chr 47). cbn [matches].
    by rewrite step_take by apply chr_matches_refl.
  - unfold star. apply head_rep_run; try done.
    + revert Hs. apply forallb_impl.
      apply ascii_implies; [apply path_char_lt|vm_compute; reflexivity].
    + intros w Hw%Ht.
      apply (ascii_refutes _ _ ascii_space_lt); [vm_compute; reflexivity|done].
    + lia.
Qed.

Lemma matches_url_path_none (t : str) (b : option N) :
  (∀ w, head t = Some w → ascii_space w = true) →
  matches true url_path (Pos b t) = [Pos b t].
Proof.
  intros Ht. unfold url_path. apply matches_opt_nil, cat_nil_l.
  change (chr "/") with (Chr 47). cbn [matches]. apply step_stop.
  intros w Hw%Ht.
  apply (ascii_refutes _ _ ascii_space_lt); [vm_compute; reflexivity|done].
Qed.

(** **** The whole pattern *)

Lemma path_tail_stop (path : option str) (tail : str) :
  tail_ok tail = true →
  ∀ w, head (path_text path ++ tail) = Some w → ascii_space w || (w =? 47) = true.
Proof.
  intros Ht w. destruct path as [s|]; cbn [path_text app head].
  - by intros [= <-].
  - intros Hw. by rewrite (tail_stop tail w).
Qed.

Lemma port_text_tld (port : option str) :
  port_ok port = true →
  forallb (consumes true tld_set) (port_text port) = true ∧
  forallb (λ x, negb (consumes true (chr ".") x)) (port_text port) = true ∧
  forallb rest_char (port_text port) = true.
Proof.
  destruct port as [digits|]; [|done]. unfold port_ok.
  intros [[Hd _]%andb_true_iff _]%andb_true_iff. cbn [port_text forallb].
  split; [|split].
  - rewrite andb_true_iff. split; [by vm_compute|]. revert Hd. apply forallb_impl.
    apply ascii_implies; [apply ascii_digit_lt|vm_compute; reflexivity].
  - rewrite andb_true_iff. split; [by vm_compute|]. revert Hd. apply forallb_impl.
    apply (ascii_implies ascii_digit (λ x, negb (consumes true (chr ".") x)));
      [apply ascii_digit_lt|vm_compute; reflexivity].
  - rewrite andb_true_iff. split; [by vm_compute|]. revert Hd. apply forallb_impl.
    apply ascii_implies; [apply ascii_digit_lt|vm_compute; reflexivity].
Qed.

Lemma alnum_rest_char (l : str) :
  forallb ascii_alnum l = true → forallb rest_char l = true.
Proof.
  apply forallb_impl.
  apply ascii_implies; [apply ascii_alnum_lt|vm_compute; reflexivity].
Qed.

Lemma label_ok_alnum (l : str) : label_ok l = true → forallb ascii_alnum l = true.
Proof. unfold label_ok. by destruct l. Qed.

Lemma letter_alnum (l : str) :
  forallb ascii_letter l = true → forallb ascii_alnum l = true.
Proof. apply forallb_impl. intros x Hx. unfold ascii_alnum. by rewrite Hx. Qed.

Lemma host_ok_name (label : str) (labels : list str) (tld : str) :
  host_ok (HostName label labels tld) = true →
  (if label is x :: _ then ascii_letter x else false) = true ∧
  label_ok label = true ∧ forallb label_ok labels = true ∧
  forallb ascii_letter tld = true ∧ (2 ≤ length tld)%nat.
Proof.
  unfold host_ok.
  intros [[[[Hx Hl]%andb_true_iff Hls]%andb_true_iff Htld]%andb_true_iff
            Hlen%Nat.leb_le]%andb_true_iff.
  done.
Qed.

Lemma host_text_rest (h : host) :
  host_ok h = true → forallb rest_char (host_text h) = true.
Proof.
  destruct h as [|label labels tld]; [by vm_compute|].
  intros (_ & Hl & H2 & Htld & _)%host_ok_name. cbn [host_text].
  rewrite !forallb_app. cbn [forallb].
  rewrite (alnum_rest_char label) by by apply label_ok_alnum.
  rewrite (alnum_rest_char tld) by by apply letter_alnum.
  rewrite andb_true_r. cbn [andb]. change (rest_char 46) with true. cbn [andb].
  clear -H2. induction labels as [|l ls IH]; [done|].
  cbn [forallb] in H2. apply andb_true_iff in H2 as [Hl Hls].
  cbn [fmap list_fmap concat]. rewrite forallb_app. cbn [forallb].
  rewrite (alnum_rest_char l) by by apply label_ok_alnum.
  change (rest_char 46) with true. by rewrite IH.
Qed.

Lemma path_text_rest (path : option str) :
  path_ok path = true → forallb rest_char (path_text path) = true.
Proof.
  destruct path as [s|]; [|done]. cbn [path_ok path_text forallb].
  intros Hs. rewrite andb_true_iff. split; [by vm_compute|]. revert Hs.
  apply forallb_impl. unfold path_char. intros x H. by bool_to_prop.
Qed.

Lemma head_cat_behind (r r1 r2 r3 : re) (p y z : pos) :
  head (matches true r p) = Some y →
  head (matches true (r1 ⋅ r2 ⋅ r3) y) = Some z →
  head (matches true (r ⋅ r1 ⋅ r2 ⋅ r3) p) = Some z.
Proof.
  intros Hy Hz.
  change (matches true (r ⋅ r1 ⋅ r2 ⋅ r3) p) with
    (((matches true r p ≫= matches true r1) ≫= matches true r2) ≫= matches true r3).
  rewrite !bind_bind. eapply head_bind_first; [exact Hy|].
  cbn beta. rewrite <- !bind_bind. exact Hz.
Qed.

(** The host and the port, up to a slash, white space or the end of the
    text behind them. *)
Lemma head_host_port (h : host) (port : option str) (t : str) (b : option N) :
  host_ok h = true → port_ok port = true →
  (∀ w, head t = Some w → ascii_space w || (w =? 47) = true) →
  ∃ b', head (matches true (url_host ⋅ url_port)
                (Pos b (host_text h ++ port_text port ++ t))) = Some (Pos b' t).
Proof.
  intros Hh Hport Hstop.
  destruct (port_text_tld port Hport) as (Hptld & Hpdot & _).
  destruct h as [|label labels tld]; cbn [host_text].
  - destruct port as [digits|]; cbn [port_text app] in *.
    + eexists. eapply head_cat.
      * by apply (head_url_host_localhost (58 :: digits)).
      * by apply head_url_port.
    + eexists. eapply head_cat.
      * by apply (head_url_host_localhost []).
      * by rewrite matches_url_port_none.
  - apply host_ok_name in Hh as (Hx & Hl & Hls & Hh0 & Hh).
    rewrite <- !(assoc_L (++)). cbn [app].
    rewrite (assoc_L (++) tld).
    eexists. eapply head_cat.
    + apply head_url_host_name; try done.
      * rewrite forallb_app, Hptld, andb_true_r. revert Hh0.
        apply forallb_impl.
        apply ascii_implies; [apply ascii_letter_lt|vm_compute; reflexivity].
      * rewrite forallb_app, Hpdot, andb_true_r. revert Hh0.
        apply forallb_impl.
        apply (ascii_implies ascii_letter
                 (λ x, negb (consumes true (chr ".") x)));
          [apply ascii_letter_lt|vm_compute; reflexivity].
      * rewrite length_app. lia.
    + by rewrite matches_url_port_none.
Qed.

Lemma head_path (path : option str) (tail : str) (b : option N) :
  path_ok path = true → tail_ok tail = true →
  ∃ b', head (matches true url_path (Pos b (path_text path ++ tail))) =
        Some (Pos b' tail).
Proof.
  intros Hpath Htail. pose proof (λ w, tail_stop tail w Htail) as Hws.
  destruct path as [s|]; cbn [path_text app].
  - eexists. by apply head_url_path.
  - eexists. by rewrite matches_url_path_none.
Qed.

(** From the host on: the host, the port and the path are matched up to
    the white space or the end of the text behind them. *)
Lemma head_host_port_path (h : host) (port path : option str) (tail : str)
    (b : option N) :
  host_ok h = true → port_ok port = true → path_ok path = true →
  tail_ok tail = true →
  ∃ b', head (matches true (url_host ⋅ url_port ⋅ url_path)
                (Pos b (host_text h ++ port_text port ++ path_text path ++ tail))) =
        Some (Pos b' tail).
Proof.
  intros Hh Hport Hpath Htail.
  destruct (head_host_port h port (path_text path ++ tail) b Hh Hport
              (path_tail_stop path tail Htail)) as [b1 H1].
  destruct (head_path path tail b1 Hpath Htail) as [b2 H2].
  exists b2. eapply head_cat; [exact H1|exact H2].
Qed.

(** The match the engine reports where a URL starts: the whole URL. *)
Lemma match_at_url (u : url) (prev : option N) (tail : str) :
  url_ok u = true → boundary_ok prev = true → tail_ok tail = true →
  ∃ b', match_at true URL_HANDLER_REGEX (Pos prev (url_text u ++ tail)) =
        Some (Pos b' tail).
Proof.
  destruct u as [prefix user h port path]. unfold url_ok, url_text.
  cbn [u_prefix u_user u_host u_port u_path].
  intros [[[[Hprefix H2]%andb_true_iff Hh]%andb_true_iff Hport]%andb_true_iff
            Hpath]%andb_true_iff Hprev Htail.
  destruct (head_host_port_path h port path tail
              (if user is Some _ then Some 64 else last prefix))
    as [b' Hrest]; try done.
  exists b'. unfold match_at, URL_HANDLER_REGEX.
  rewrite <- !(assoc_L (++)).
  apply (head_cat_behind _ _ _ _ _
           (Pos (if user is Some _ then Some 64 else last prefix)
              (host_text h ++ port_text port ++ path_text path ++ tail)));
    [|exact Hrest].
  assert (forallb rest_char (host_text h ++ port_text port ++ path_text path) = true)
    as Hchars.
  { rewrite !forallb_app, host_text_rest, path_text_rest by done.
    by destruct (port_text_tld port) as (_ & _ & ->). }
  eapply head_cat; [eapply head_cat|].
  - by apply head_url_boundary.
  - by apply head_url_prefix.
  - rewrite (assoc_L (++) (host_text h)), (assoc_L (++) (host_text h ++ _)).
    rewrite <- (assoc_L (++) (host_text h)).
    destruct user as [user|]; cbn [user_text].
    + rewrite <- (assoc_L (++) user). cbn [app].
      apply head_userinfo; try done.
      * by destruct user.
      * unfold user_ok in H2. by destruct user.
      * intros w. by apply tail_stop.
    + cbn [app]. rewrite matches_userinfo_none; [done|done|].
      intros w. by apply tail_stop.
Qed.

Lemma url_text_nonempty (u : url) : url_ok u = true → url_text u ≠ [].
Proof.
  destruct u as [prefix user h port path]. unfold url_ok, url_text.
  cbn [u_prefix u_user u_host u_port u_path].
  intros [[[[Hprefix%bool_decide_eq_true _]%andb_true_iff _]%andb_true_iff
             _]%andb_true_iff _]%andb_true_iff.
  repeat (apply elem_of_cons in Hprefix as [->|Hprefix]); try done.
  by apply elem_of_nil in Hprefix.
Qed.

(** A URL that stands where the pattern may start, with white space or
    the end of the text behind it, gives way to the replacement as a
    whole. *)
Lemma sub_from_url (repl : str) (prev : option N) (u : url) (tail : str) :
  url_ok u = true → boundary_ok prev = true → tail_ok tail = true →
  sub_from true URL_HANDLER_REGEX repl 0 prev (url_text u ++ tail) =
  repl ++ sub_from true URL_HANDLER_REGEX repl 0 (last (url_text u)) tail.
Proof.
  intros Hu Hprev Htail.
  destruct (match_at_url u prev tail Hu Hprev Htail) as [b' Hm].
  eapply sub_from_match; [by apply url_text_nonempty|exact Hm].
Qed.

(** No URL starts at white space or at the end of the text. *)
Lemma match_at_url_space (prev : option N) (t : str) :
  (∀ w, head t = Some w → ascii_space w = true) →
  match_at true URL_HANDLER_REGEX (Pos prev t) = None.
Proof.
  intros Ht. apply url_no_prefix_no_match.
  destruct t as [|w t]; [done|].
  assert (ascii_space w = true) as Hw by by apply Ht.
  unfold url_prefix. repeat apply alt_nil.
  - do 2 apply cat_nil_l. apply matches_lits_reject.
    apply (ascii_refutes _ _ ascii_space_lt); [vm_compute; reflexivity|done].
  - apply matches_lits_reject.
    apply (ascii_refutes _ _ ascii_space_lt); [vm_compute; reflexivity|done].
  - do 2 apply cat_nil_l. apply matches_lits_reject.
    apply (ascii_refutes _ _ ascii_space_lt); [vm_compute; reflexivity|done].
Qed.

Lemma url_text_ascii (u : url) :
  url_ok u = true → forallb (λ x, x <? 128) (url_text u) = true.
Proof.
  destruct u as [prefix user h port path]. unfold url_ok, url_text.
  cbn [u_prefix u_user u_host u_port u_path].
  intros [[[[Hprefix%bool_decide_eq_true Huser]%andb_true_iff Hh]%andb_true_iff
            Hport]%andb_true_iff Hpath]%andb_true_iff.
  assert (∀ s, forallb rest_char s = true → forallb (λ x, x <? 128) s = true) as Hrest.
  { intros s. apply forallb_impl. intros x Hx%rest_char_lt. by apply N.ltb_lt. }
  rewrite !forallb_app.
  rewrite (Hrest (host_text h)) by by apply host_text_rest.
  rewrite (Hrest (path_text path)) by by apply path_text_rest.
  rewrite (Hrest (port_text port)) by by destruct (port_text_tld port) as (_ & _ & ->).
  rewrite !andb_true_r. apply andb_true_iff. split.
  - repeat (apply elem_of_cons in Hprefix as [->|Hprefix]); try done.
    by apply elem_of_nil in Hprefix.
  - destruct user as [user|]; [|done]. cbn [user_text].
    rewrite forallb_app, andb_true_iff. split; [|done].
    assert (forallb user_char user = true) as Hu by (by destruct user).
    revert Hu. apply forallb_impl. intros x Hx%user_char_lt. by apply N.ltb_lt.
Qed.

(** A line of URLs with single spaces between them becomes a line of
    replacements. *)
Lemma sub_from_url_line (repl : str) (us : list url) (prev : option N) :
  forallb url_ok us = true → boundary_ok prev = true →
  sub_from true URL_HANDLER_REGEX repl 0 prev (PyStr.join (cps " ") (url_text <$> us)) =
  PyStr.join (cps " ") ((λ _, repl) <$> us) ∧
  forallb (λ x, x <? 128) (PyStr.join (cps " ") (url_text <$> us)) = true.
Proof.
  revert prev. induction us as [|u us IH]; intros prev Hus Hprev.
  - split; [|done]. cbn [fmap list_fmap PyStr.join sub_from].
    by rewrite match_at_url_space.
  - cbn [forallb] in Hus. apply andb_true_iff in Hus as [Hu Hus].
    destruct us as [|u' us].
    + cbn [fmap list_fmap PyStr.join]. split; [|by apply url_text_ascii].
      rewrite <- (app_nil_r (url_text u)) at 1.
      rewrite sub_from_url by done. cbn [sub_from].
      rewrite match_at_url_space by done. by rewrite app_nil_r.
    + destruct (IH (Some 32) Hus eq_refl) as [IH1 IH2].
      change (PyStr.join (cps " ") (url_text <$> u :: u' :: us)) with
        (url_text u ++ 32 :: PyStr.join (cps " ") (url_text <$> u' :: us)).
      change (PyStr.join (cps " ") ((λ _, repl) <$> u :: u' :: us)) with
        (repl ++ 32 :: PyStr.join (cps " ") ((λ _, repl) <$> u' :: us)).
      split.
      * rewrite sub_from_url; [|done|done|].
        -- cbn [sub_from]. rewrite match_at_url_space by (by intros w [= <-]).
           by rewrite IH1.
        -- unfold tail_ok. cbn [forallb]. by rewrite IH2.
      * rewrite forallb_app. cbn [forallb]. by rewrite url_text_ascii, IH2.
Qed.

End url_parts.



(** ** [normalize] and [process_extracted_text] *)

Section normalize_facts.
Import PyStr Re Patterns Tables Normalizer.
Context `{UC : UnicodeCase} `{RT : RegexTables} `{TL : TextLibs}.

Lemma parse_form_NFKC : parse_form (cps "NFKC") = Some NFKC.
Proof. by vm_compute. Qed.

(** Under a known form the early return on the empty string agrees with
    the form itself, which leaves the empty string empty. *)
Lemma unicodedata_normalize_known (name : str) (f : form) (text : str) :
  parse_form name = Some f →
  unicodedata_normalize name text = Ok (normal_form f text).
Proof.
  intros Hf. unfold unicodedata_normalize. rewrite Hf.
  destruct text; [by rewrite normal_form_empty|done].
Qed.

(** With the defaults of its signature [normalize] raises nothing and
    leaves the module's containers as they are. *)
Lemma normalize_default_run (text : str) (g : globals) :
  ∃ s, normalize_default text g = (Ok s, g).
Proof.
  unfold normalize_default, normalize.
  unfold mbind, Py_bind, py_bind, global, lift, mret, Py_ret, py_ret.
  cbn beta iota zeta.
  rewrite (unicodedata_normalize_known _ NFKC) by apply parse_form_NFKC.
  eexists. reflexivity.
Qed.

Lemma url_sub_nil (repl : str) : Re.sub true URL_HANDLER_REGEX repl [] = [].
Proof.
  unfold Re.sub. cbn [Re.sub_from].
  rewrite url_no_prefix_no_match; [done|]. by vm_compute.
Qed.

Lemma unicode_sub_nil (repl : str * option N → str) :
  Alternation.sub UNICODE_REPLACEMENTS_REGEX repl [] = [].
Proof. unfold Alternation.sub. cbn [Alternation.sub_from]. by rewrite match_here_nil. Qed.

Lemma fix_quotes_nil : fix_quotes [] = [].
Proof. by vm_compute. Qed.

(** The empty string passes every stage unchanged. *)
Lemma normalize_default_nil (g : globals) : normalize_default [] g = (Ok [], g).
Proof.
  unfold normalize_default, normalize.
  rewrite fix_text_empty, fix_quotes_nil, url_sub_nil.
  assert (Re.sub false PUNCT_HANDLER_REGEX (cps " ") [] = []) as -> by done.
  rewrite emoji_sub_empty.
  unfold mbind, Py_bind, py_bind, global, lift, mret, Py_ret, py_ret. cbn [translate mbind list_bind].
  cbn beta iota zeta. rewrite unicode_sub_nil. done.
Qed.

Lemma process_extracted_text_run (detected_text : list str) (g : globals) :
  process_extracted_text detected_text g =
  normalize_default
    (join (cps " ")
       (List.filter (λ item, negb (Noise.is_noise (g_NOISE_KEYWORDS g) item)) detected_text))
    g.
Proof.
  unfold process_extracted_text.
  destruct (filter_loop (g_NOISE_KEYWORDS g) detected_text [] ∅) as [H1 _].
  unfold mbind, Py_bind, py_bind. rewrite filter_noise_keywords_run.
  simpl in H1. by rewrite H1.
Qed.

End normalize_facts.

(** C4, as amended: of the fragments Follow us and Great meme today the
    filter retains none. The first is counted under Follow, the second
    under MEME, whose normalized form meme occurs in greatmemetoday; the
    corpus is empty and so is the output. *)
Theorem follow_us_great_meme_today
    `{UC : PyStr.UnicodeCase} `{RT : Re.RegexTables} `{TL : Normalizer.TextLibs} :
  Noise.filter_noise_keywords
    [cps "Follow us"; cps "Great meme today"] Normalizer.module_globals =
  (Ok ([], {[ cps "Follow" := 1%nat; cps "MEME" := 1%nat ]}), Normalizer.module_globals) ∧
  Normalizer.process_extracted_text
    [cps "Follow us"; cps "Great meme today"] Normalizer.module_globals =
  (Ok [], Normalizer.module_globals).
Proof.
  assert (Noise.filter_noise_keywords
            [cps "Follow us"; cps "Great meme today"] Normalizer.module_globals =
          (Ok ([], {[ cps "Follow" := 1%nat; cps "MEME" := 1%nat ]}),
           Normalizer.module_globals)) as Hf.
  { rewrite filter_noise_keywords_pinned by (by vm_compute).
    vm_compute. reflexivity. }
  split; [done|].
  unfold Normalizer.process_extracted_text, mbind, Py_bind, py_bind.
  rewrite Hf. cbn [fst PyStr.join]. apply normalize_default_nil.
Qed.

(** C8: on the empty list the pipeline returns the empty string, and so it
    does on every list whose fragments all match a noise keyword; the
    result is the empty string itself, whatever the containers hold. *)
Theorem process_extracted_text_empty
    `{UC : PyStr.UnicodeCase} `{RT : Re.RegexTables} `{TL : Normalizer.TextLibs}
    (g : globals) :
  Normalizer.process_extracted_text [] g = (Ok [], g) ∧
  ∀ detected_text,
    (∀ item, item ∈ detected_text →
       ∃ kw, kw ∈ g_NOISE_KEYWORDS g ∧
             PyStr.contains (Noise.get_norm kw) (Noise.get_norm item) = true) →
    Normalizer.process_extracted_text detected_text g = (Ok [], g).
Proof.
  split.
  - rewrite process_extracted_text_run. apply normalize_default_nil.
  - intros l Hl. rewrite process_extracted_text_run.
    replace (List.filter _ l) with (@nil str); [apply normalize_default_nil|].
    symmetry. induction l as [|item l IH]; [done|]. simpl.
    destruct (Hl item) as (kw & Hkw & Hm); [set_solver|].
    assert (Noise.is_noise (g_NOISE_KEYWORDS g) item = true) as ->.
    { apply existsb_exists. exists kw. by rewrite <- list_elem_of_In. }
    simpl. apply IH. intros item' Hin. apply Hl. set_solver.
Qed.

Lemma process_extracted_text_empty_witness :
  Normalizer.process_extracted_text
    (UC := PyStr.ascii_rows) (RT := Re.ascii_tables) (TL := Normalizer.identity_libs)
    [cps "FOLLOW me"; cps "img flip.com"] Normalizer.module_globals =
  (Ok [], Normalizer.module_globals).
Proof.
  apply (process_extracted_text_empty
           (UC := PyStr.ascii_rows) (RT := Re.ascii_tables)
           (TL := Normalizer.identity_libs) Normalizer.module_globals).
  intros item Hin. apply list_elem_of_In in Hin. simpl in Hin.
  destruct Hin as [<-|[<-|[]]].
  - exists (cps "Follow"). split; [|by vm_compute].
    apply list_elem_of_In. vm_compute. tauto.
  - exists (cps "imgflip.com"). split; [|by vm_compute].
    apply list_elem_of_In. vm_compute. tauto.
Defined.

(** C10: where [.com] is in the keyword table, a fragment that holds
    [.com] anywhere is not among the fragments the filter returns, and the
    text handed to [normalize], where URLs are replaced, is joined from the
    returned fragments alone. *)
Theorem dot_com_fragment_dropped
    `{UC : PyStr.UnicodeCase} `{RT : Re.RegexTables} `{TL : Normalizer.TextLibs}
    (g : globals) (detected_text : list str) (a b : str) :
  cps ".com" ∈ g_NOISE_KEYWORDS g →
  ∃ cleaned counts,
    Noise.filter_noise_keywords detected_text g = (Ok (cleaned, counts), g) ∧
    ¬ (a ++ cps ".com" ++ b) ∈ cleaned ∧
    Normalizer.process_extracted_text detected_text g =
    Normalizer.normalize_default (PyStr.join (cps " ") cleaned) g.
Proof.
  intros Hcom.
  exists (List.filter (λ item, negb (Noise.is_noise (g_NOISE_KEYWORDS g) item)) detected_text).
  destruct (filter_loop (g_NOISE_KEYWORDS g) detected_text [] ∅) as [H1 _].
  simpl in H1. rewrite filter_noise_keywords_run.
  set (r := foldl _ _ _) in *. exists r.2. split; [|split].
  - rewrite <- H1. by destruct r.
  - rewrite list_elem_of_In, filter_In. intros [_ Hn].
    apply negb_true_iff in Hn.
    assert (Noise.is_noise (g_NOISE_KEYWORDS g) (a ++ cps ".com" ++ b) = true) as E;
      [|congruence].
    apply existsb_exists. exists (cps ".com"). split; [by apply list_elem_of_In|].
    assert (Forall (λ c, c < 128) (cps ".com")) as Hascii
      by (repeat constructor; done).
    assert (PyStr.replace 32 [] (PyStr.ascii_tolower <$> cps ".com") = cps ".com")
      as Hnorm by (by vm_compute).
    unfold Noise.matches_keyword, Noise.get_norm.
    rewrite (lower_ascii (cps ".com") Hascii), Hnorm. unfold PyStr.lower.
    destruct (do_lower_infix [] a (cps ".com") b Hascii) as (x & y & ->).
    rewrite !replace_app, Hnorm. apply contains_app.
  - apply process_extracted_text_run.
Qed.

Lemma dot_com_fragment_dropped_witness :
  cps ".com" ∈ g_NOISE_KEYWORDS Normalizer.module_globals ∧
  ∃ cleaned counts,
    Noise.filter_noise_keywords (UC := PyStr.ascii_rows)
      [cps "Visit https://example" ++ cps ".com" ++ cps "/page now"; cps "hello"]
      Normalizer.module_globals = (Ok (cleaned, counts), Normalizer.module_globals) ∧
    ¬ (cps "Visit https://example" ++ cps ".com" ++ cps "/page now") ∈ cleaned ∧
    Normalizer.process_extracted_text
      (UC := PyStr.ascii_rows) (RT := Re.ascii_tables) (TL := Normalizer.identity_libs)
      [cps "Visit https://example" ++ cps ".com" ++ cps "/page now"; cps "hello"]
      Normalizer.module_globals =
    Normalizer.normalize_default
      (RT := Re.ascii_tables) (TL := Normalizer.identity_libs)
      (PyStr.join (cps " ") cleaned) Normalizer.module_globals.
Proof.
  assert (cps ".com" ∈ g_NOISE_KEYWORDS Normalizer.module_globals) as H.
  { apply list_elem_of_In. vm_compute. tauto. }
  split; [exact H|].
  exact (dot_com_fragment_dropped
           (UC := PyStr.ascii_rows) (RT := Re.ascii_tables)
           (TL := Normalizer.identity_libs) Normalizer.module_globals
           [cps "Visit https://example" ++ cps ".com" ++ cps "/page now"; cps "hello"]
           (cps "Visit https://example") (cps "/page now") H).
Defined.

(** ** The decision rule *)

Section float_facts.
Import Model.
Local Open Scope Z_scope.

Lemma Zpos_pow52 : Zpos (2 ^ 52) = 2 ^ 52.
Proof. done. Qed.

Lemma compare_cont_spec (p q : positive) :
  CompareSpec (Zpos p = Zpos q) (Zpos p < Zpos q) (Zpos q < Zpos p)
    (Pos.compare_cont Eq p q).
Proof. exact (Z.compare_spec (Zpos p) (Zpos q)). Qed.

Lemma pow2_succ_pos (d : positive) : 2 ^ Zpos (Pos.succ d) = 2 * 2 ^ Zpos d.
Proof. rewrite Pos2Z.inj_succ. apply Z.pow_succ_r. lia. Qed.

Lemma pow2_pred_pos (d : positive) : 2 ^ Zpos d = 2 * 2 ^ (Zpos d - 1).
Proof.
  replace (Zpos d) with (Z.succ (Zpos d - 1)) at 1 by lia.
  apply Z.pow_succ_r. lia.
Qed.

(** [digits2_pos m] is the number of binary digits of [m]. *)
Lemma digits2_pos_bounds (m : positive) :
  2 ^ (Zpos (digits2_pos m) - 1) ≤ Zpos m < 2 ^ Zpos (digits2_pos m).
Proof.
  induction m as [m IH|m IH|]; cbn [digits2_pos].
  - rewrite pow2_succ_pos, Pos2Z.inj_succ. change (Zpos m~1) with (2 * Zpos m + 1).
    replace (Z.succ (Zpos (digits2_pos m)) - 1) with (Zpos (digits2_pos m)) by lia.
    rewrite (pow2_pred_pos (digits2_pos m)) in *.
    revert IH. generalize (2 ^ (Zpos (digits2_pos m) - 1)). lia.
  - rewrite pow2_succ_pos, Pos2Z.inj_succ. change (Zpos m~0) with (2 * Zpos m).
    replace (Z.succ (Zpos (digits2_pos m)) - 1) with (Zpos (digits2_pos m)) by lia.
    rewrite (pow2_pred_pos (digits2_pos m)) in *.
    revert IH. generalize (2 ^ (Zpos (digits2_pos m) - 1)). lia.
  - simpl. lia.
Qed.

Lemma digits2_pos_unique (m : positive) (d : Z) :
  2 ^ (d - 1) ≤ Zpos m < 2 ^ d → Zpos (digits2_pos m) = d.
Proof.
  intros [H1 H2]. pose proof (digits2_pos_bounds m) as [H3 H4].
  assert (0 < d).
  { destruct (Z.lt_trichotomy d 0) as [Hd|[->|Hd]]; [|simpl in *; lia|done].
    rewrite Z.pow_neg_r in H2 by done. lia. }
  destruct (Z.lt_trichotomy (Zpos (digits2_pos m)) d) as [Hd|[Hd|Hd]]; [|done|].
  - assert (2 ^ Zpos (digits2_pos m) ≤ 2 ^ (d - 1)) by (apply Z.pow_le_mono_r; lia). lia.
  - assert (2 ^ d ≤ 2 ^ (Zpos (digits2_pos m) - 1)) by (apply Z.pow_le_mono_r; lia). lia.
Qed.

Lemma shr_1_m (mrs : shr_record) :
  0 ≤ shr_m mrs → shr_m (shr_1 mrs) = shr_m mrs / 2 ∧ 0 ≤ shr_m (shr_1 mrs).
Proof.
  destruct mrs as [m r s]. cbn [shr_m]. intros Hm.
  destruct m as [|[p|p|]|p]; cbn [shr_1 shr_m]; [done| | |done|lia].
  - change (Zpos p~1) with (2 * Zpos p + 1). split; [|lia].
    apply Z.div_unique with 1; lia.
  - change (Zpos p~0) with (2 * Zpos p). split; [|lia].
    apply Z.div_unique with 0; lia.
Qed.

Lemma iter_shr_1_m (k : positive) (mrs : shr_record) :
  0 ≤ shr_m mrs →
  shr_m (SpecFloat.iter_pos shr_1 k mrs) = shr_m mrs / 2 ^ Zpos k ∧
  0 ≤ shr_m (SpecFloat.iter_pos shr_1 k mrs).
Proof.
  revert mrs. induction k as [k IH|k IH|]; intros mrs Hm; cbn [SpecFloat.iter_pos].
  - destruct (shr_1_m mrs Hm) as [E1 P1].
    destruct (IH _ P1) as [E2 P2]. destruct (IH _ P2) as [E3 P3].
    split; [|done]. rewrite E3, E2, E1.
    rewrite !Z.div_div by (try apply Z.pow_pos_nonneg; lia). f_equal.
    replace (Zpos k~1) with (1 + (Zpos k + Zpos k)) by lia.
    rewrite !Z.pow_add_r by lia. change (2 ^ 1) with 2. lia.
  - destruct (IH _ Hm) as [E2 P2]. destruct (IH _ P2) as [E3 P3].
    split; [|done]. rewrite E3, E2.
    rewrite !Z.div_div by (try apply Z.pow_pos_nonneg; lia). f_equal.
    replace (Zpos k~0) with (Zpos k + Zpos k) by lia.
    rewrite Z.pow_add_r by lia. done.
  - destruct (shr_1_m mrs Hm) as [E1 P1]. split; [|done]. by rewrite E1.
Qed.

Lemma iter_xO (m d : positive) : Zpos (Pos.iter xO m d) = Zpos m * 2 ^ Zpos d.
Proof.
  induction d as [|d IH] using Pos.peano_ind.
  - simpl. lia.
  - rewrite Pos.iter_succ. change (Zpos (Pos.iter xO m d)~0) with (2 * Zpos (Pos.iter xO m d)).
    rewrite IH, pow2_succ_pos. lia.
Qed.

Lemma shl_align_le (mx : positive) (ex ex' : Z) :
  ex ≤ ex' → shl_align mx ex ex' = (mx, ex).
Proof.
  intros H. unfold shl_align. destruct (ex' - ex) eqn:E; try done. lia.
Qed.

Lemma shl_align_gt (mx : positive) (ex ex' : Z) :
  ex' < ex →
  ∃ mz, shl_align mx ex ex' = (mz, ex') ∧ Zpos mz = Zpos mx * 2 ^ (ex - ex').
Proof.
  intros H. unfold shl_align. destruct (ex' - ex) as [|d|d] eqn:E; try lia.
  eexists. split; [done|]. rewrite iter_xO. f_equal. f_equal. lia.
Qed.

Lemma shr_m_spec (mrs : shr_record) (e n : Z) :
  0 ≤ shr_m mrs → 0 ≤ n →
  (shr mrs e n).2 = e + n ∧ shr_m (shr mrs e n).1 = shr_m mrs / 2 ^ n.
Proof.
  intros Hm Hn. destruct n as [|k|k]; cbn [shr fst snd]; [| |lia].
  - split; [lia|]. by rewrite Z.pow_0_r, Z.div_1_r.
  - split; [done|]. by apply iter_shr_1_m.
Qed.

Lemma round_nearest_even_cases (m : Z) (l : location) :
  round_nearest_even m l = m ∨ round_nearest_even m l = m + 1.
Proof.
  destruct l as [|[]]; cbn [round_nearest_even]; auto.
  destruct (Z.even m); auto.
Qed.

(** A 53-bit mantissa is kept as it is. *)
Lemma shr_fexp_normal (m : positive) (e : Z) (l : location) :
  2 ^ 52 ≤ Zpos m < 2 ^ 53 → -1074 ≤ e →
  shr_fexp prec emax (Zpos m) e l = (shr_record_of_loc (Zpos m) l, e).
Proof.
  intros Hm He. unfold shr_fexp. cbn [Zdigits2].
  rewrite (digits2_pos_unique m 53) by done.
  unfold fexp, emin, prec, emax.
  replace (Z.max (53 + e - 53) (3 - 1024 - 53) - e) with 0 by lia. done.
Qed.

Lemma binary_round_aux_normal (s : bool) (m : positive) (e : Z) :
  2 ^ 52 ≤ Zpos m < 2 ^ 53 → -1074 ≤ e ≤ 971 →
  binary_round_aux prec emax s (Zpos m) e loc_Exact = S754_finite s m e.
Proof.
  intros Hm He. unfold binary_round_aux.
  rewrite shr_fexp_normal by lia.
  cbn [shr_record_of_loc shr_m loc_of_shr_record round_nearest_even].
  rewrite shr_fexp_normal by lia. cbn [shr_record_of_loc shr_m].
  destruct (Z.leb_spec e (emax - prec)) as [|H]; [done|].
  unfold emax, prec in H. lia.
Qed.

(** A positive number below 2^52, counted in units of 2^-53, is a binary64
    number: rounding keeps its value. *)
Lemma binary_round_exact (D : positive) :
  Zpos D < 2 ^ 52 →
  ∃ m3 e3, binary_round prec emax false D (-53) = S754_finite false m3 e3 ∧
    Zpos m3 * 2 ^ (e3 + 1074) = Zpos D * 2 ^ 1021.
Proof.
  intros HD. pose proof (digits2_pos_bounds D) as [Hd1 Hd2].
  set (d := Zpos (digits2_pos D)) in *.
  assert (1 ≤ d) as Hd by (unfold d; lia).
  assert (d ≤ 52) as Hd52.
  { destruct (Z.le_gt_cases d 52) as [|Hgt]; [done|].
    assert (2 ^ 52 ≤ 2 ^ (d - 1)) by (apply Z.pow_le_mono_r; lia). lia. }
  unfold binary_round. fold d.
  replace (fexp prec emax (d + -53)) with (d - 106)
    by (unfold fexp, emin, prec, emax; lia).
  destruct (shl_align_gt D (-53) (d - 106)) as (mz & -> & Hmz); [lia|].
  replace (-53 - (d - 106)) with (53 - d) in Hmz by lia.
  assert (2 ^ 52 = 2 ^ (d - 1) * 2 ^ (53 - d)) as E52
    by (rewrite <- Z.pow_add_r by lia; f_equal; lia).
  assert (2 ^ 53 = 2 ^ d * 2 ^ (53 - d)) as E53
    by (rewrite <- Z.pow_add_r by lia; f_equal; lia).
  assert (0 < 2 ^ (53 - d)) as Hpos by (apply Z.pow_pos_nonneg; lia).
  rewrite binary_round_aux_normal.
  - exists mz, (d - 106). split; [done|]. rewrite Hmz.
    replace (2 ^ 1021) with (2 ^ (53 - d) * 2 ^ (d - 106 + 1074))
      by (rewrite <- Z.pow_add_r by lia; f_equal; lia).
    ring.
  - rewrite Hmz, E52, E53. split.
    + apply Z.mul_le_mono_nonneg_r; lia.
    + apply Z.mul_lt_mono_pos_r; lia.
  - lia.
Qed.

Lemma shr_fexp_carry :
  shr_fexp prec emax (2 ^ 53) (-53) loc_Exact =
  ({| shr_m := 2 ^ 52; shr_r := false; shr_s := false |}, -52).
Proof. by vm_compute. Qed.

(** A number of [-e] binary digits, counted in units of [2^e], lies from
    0.5 up to 1; rounding it to 53 bits gives a binary64 number from 0.5
    to 1 that is less than 2^-53 away. *)
Lemma binary_round_upper_half (D : positive) (e : Z) :
  -1074 ≤ e ≤ -53 → 2 ^ (- e - 1) ≤ Zpos D < 2 ^ (- e) →
  ∃ m3 e3, binary_round prec emax false D e = S754_finite false m3 e3 ∧
    ((e3 = -53 ∧ 2 ^ 52 ≤ Zpos m3 < 2 ^ 53) ∨ (e3 = -52 ∧ Zpos m3 = 2 ^ 52)) ∧
    Z.abs (Zpos m3 * 2 ^ (e3 + 1074) - Zpos D * 2 ^ (e + 1074)) ≤ 2 ^ 1021.
Proof.
  intros He HD.
  pose proof (digits2_pos_unique D (- e) HD) as Hd.
  unfold binary_round. rewrite Hd.
  replace (- e + e) with 0 by lia. change (fexp prec emax 0) with (-53).
  rewrite shl_align_le by lia.
  unfold binary_round_aux. unfold shr_fexp at 1. cbn [Zdigits2]. rewrite Hd.
  replace (- e + e) with 0 by lia. change (fexp prec emax 0) with (-53).
  set (k := -53 - e).
  destruct (shr_m_spec (shr_record_of_loc (Zpos D) loc_Exact) e k)
    as [Hs2 Hs1]; [done|lia|].
  destruct (shr _ e k) as [mrs' e']. cbn [fst snd shr_record_of_loc shr_m] in Hs1, Hs2.
  replace (e + k) with (-53) in Hs2 by lia. subst e'.
  set (K := 2 ^ k) in *. set (P := 2 ^ (e + 1074)).
  assert (0 < K) as HK by (apply Z.pow_pos_nonneg; lia).
  assert (0 < P) as HP by (apply Z.pow_pos_nonneg; lia).
  assert (2 ^ (- e - 1) = 2 ^ 52 * K) as E52
    by (unfold K; rewrite <- Z.pow_add_r by lia; f_equal; lia).
  assert (2 ^ (- e) = 2 ^ 53 * K) as E53
    by (unfold K; rewrite <- Z.pow_add_r by lia; f_equal; lia).
  assert (2 ^ 1021 = K * P) as E1021
    by (unfold K, P; rewrite <- Z.pow_add_r by lia; f_equal; lia).
  assert (2 ^ (-53 + 1074) = K * P) as E1021' by exact E1021.
  assert (2 ^ (-52 + 1074) = 2 * (K * P)) as E1022
    by (rewrite <- E1021; done).
  pose proof (Z.mul_div_le (Zpos D) K HK) as Hlo.
  pose proof (Z.mul_succ_div_gt (Zpos D) K HK) as Hhi.
  rewrite <- Hs1 in Hlo, Hhi.
  set (m1 := shr_m mrs') in *.
  assert (2 ^ 52 ≤ m1 < 2 ^ 53) as Hm1 by nia.
  assert (∀ m3 : Z, m3 = m1 ∨ m3 = m1 + 1 →
            Z.abs (m3 * (K * P) - Zpos D * P) ≤ K * P) as Hclose.
  { intros m3 Hm3.
    replace (m3 * (K * P) - Zpos D * P) with ((m3 * K - Zpos D) * P) by ring.
    rewrite Z.abs_mul, (Z.abs_eq P) by lia.
    apply Z.mul_le_mono_nonneg_r; [lia|]. apply Z.abs_le. nia. }
  pose proof (round_nearest_even_cases m1 (loc_of_shr_record mrs')) as Hr.
  set (m2 := round_nearest_even m1 (loc_of_shr_record mrs')) in *.
  destruct (Z.lt_ge_cases m2 (2 ^ 53)) as [Hlt|Hge].
  - destruct m2 as [|q|q] eqn:Eq; [lia| |lia].
    rewrite shr_fexp_normal by lia. cbn [shr_record_of_loc shr_m].
    exists q, (-53). split; [done|]. split; [left; lia|].
    rewrite E1021', E1021. by apply Hclose.
  - assert (m2 = 2 ^ 53) as -> by lia.
    rewrite shr_fexp_carry. cbn [shr_m].
    exists (2 ^ 52)%positive, (-52). split; [done|]. split; [by right|].
    rewrite E1022, E1021.
    replace (Zpos (2 ^ 52) * (2 * (K * P))) with (2 ^ 53 * (K * P))
      by (rewrite Zpos_pow52; change (2 ^ 53) with (2 ^ 52 * 2); ring).
    apply Hclose. lia.
Qed.

(** The probabilities: both zeros, 1, and the positive binary64 numbers
    with an exponent of at most -53. *)
Lemma probability_cases (p : spec_float) :
  probability p →
  (∃ s, p = S754_zero s) ∨ p = one ∨
  ∃ m e, p = S754_finite false m e ∧ -1074 ≤ e ≤ -53 ∧ Zpos m < 2 ^ 53 ∧
         (e = -53 → 2 ^ 52 ≤ Zpos m).
Proof.
  intros (Hv & H0 & H1). destruct p as [s|s| |s m e].
  - left. eauto.
  - by destruct s.
  - done.
  - destruct s; [done|]. right.
    cbn [valid_binary] in Hv. unfold bounded, canonical_mantissa in Hv.
    apply andb_true_iff in Hv as [Hc _]. apply Z.eqb_eq in Hc.
    unfold fexp, emin, prec, emax in Hc.
    pose proof (digits2_pos_bounds m) as [Hd1 Hd2].
    set (d := Zpos (digits2_pos m)) in *.
    assert (d ≤ 53) as Hd by lia.
    assert (2 ^ d ≤ 2 ^ 53) by (apply Z.pow_le_mono_r; lia).
    unfold SFleb, one, SFcompare in H1.
    destruct (Z.compare_spec e (-52)) as [->|He|He]; [| |done].
    + left. assert (d = 53) as Ed by lia. rewrite Ed in Hd1.
      destruct (compare_cont_spec m (2 ^ 52)) as [Hm|Hm|Hm]; [|lia|done].
      apply Pos2Z.inj in Hm. by rewrite Hm.
    + right. exists m, e. split; [done|]. split; [lia|]. split; [lia|].
      intros ->. assert (d = 53) as Ed by lia. rewrite Ed in Hd1. exact Hd1.
Qed.

Lemma gt_half_finite (m : positive) (e : Z) :
  e ≤ -53 →
  gt (S754_finite false m e) half = bool_decide (e = -53 ∧ 2 ^ 52 < Zpos m).
Proof.
  intros He. unfold gt, half, SFltb, SFcompare.
  destruct (Z.compare_spec (-53) e) as [<-|H|H]; [|lia|].
  - destruct (compare_cont_spec (2 ^ 52) m) as [Hm|Hm|Hm];
      rewrite Zpos_pow52 in Hm.
    + rewrite bool_decide_eq_false_2; [done|]. lia.
    + by rewrite bool_decide_eq_true_2.
    + rewrite bool_decide_eq_false_2; [done|]. lia.
  - rewrite bool_decide_eq_false_2; [done|]. lia.
Qed.

(** [1 - p] for a positive [p] with an exponent of at most -53: the
    difference of the mantissas aligned at the exponent of [p], rounded. *)
Lemma fsub_one_finite (m : positive) (e : Z) :
  e ≤ -53 →
  fsub one (S754_finite false m e) =
  binary_normalize prec emax (2 ^ (- e) - Zpos m) e false.
Proof.
  intros He. unfold fsub, one, SFsub. cbv zeta. rewrite Z.min_r by lia.
  rewrite (shl_align_le m e e) by lia.
  destruct (shl_align_gt (2 ^ 52) (-52) e) as (mz & -> & Hmz); [lia|].
  cbn [fst cond_Zopp]. rewrite Hmz. f_equal. f_equal.
  rewrite Zpos_pow52, <- Z.pow_add_r by lia. f_equal. lia.
Qed.

Lemma upper_half_bounds (m : positive) (e : Z) :
  (e = -53 ∧ 2 ^ 52 ≤ Zpos m < 2 ^ 53) ∨ (e = -52 ∧ Zpos m = 2 ^ 52) →
  SFleb half (S754_finite false m e) = true ∧
  SFleb (S754_finite false m e) one = true.
Proof.
  intros [[-> Hm]|[-> Hm]].
  - split; [|done]. unfold SFleb, half, SFcompare.
    change (-53 ?= -53) with Eq.
    destruct (compare_cont_spec (2 ^ 52) m) as [H|H|H]; [done|done|].
    rewrite Zpos_pow52 in H. lia.
  - assert (m = (2 ^ 52)%positive) as -> by (apply Pos2Z.inj; exact Hm).
    by vm_compute.
Qed.

(** The facts about [1 - prob] that the decision rule rests on. *)
Lemma fsub_one_probability (p : spec_float) :
  probability p →
  Z.abs (units p + units (fsub one p) - units one) ≤ 2 ^ 1021 ∧
  if gt p half then SFleb half p = true
  else SFleb half (fsub one p) = true ∧ SFleb (fsub one p) one = true.
Proof.
  intros Hp. pose proof Hp as (_ & _ & Hle).
  destruct (probability_cases p Hp) as [[s ->]|[->|(m & e & -> & He & Hm & Hn)]].
  - change (fsub one (S754_zero s)) with one.
    change (gt (S754_zero s) half) with false. cbn [units].
    split; [|by vm_compute].
    replace (0 + units one - units one) with 0 by lia. done.
  - change (fsub one one) with (S754_zero false).
    change (gt one half) with true. cbn [units]. split; [|by vm_compute].
    replace (units one + 0 - units one) with 0 by lia. done.
  - rewrite fsub_one_finite, gt_half_finite by lia.
    assert (2 ^ 53 ≤ 2 ^ (- e)) as H53 by (apply Z.pow_le_mono_r; lia).
    assert (units one = 2 ^ (- e) * 2 ^ (e + 1074)) as Eone.
    { rewrite <- Z.pow_add_r by lia. replace (- e + (e + 1074)) with 1074 by lia.
      by vm_compute. }
    destruct (2 ^ (- e) - Zpos m) as [|D|D] eqn:ED; [lia| |lia].
    cbn [binary_normalize units cond_Zopp]. rewrite Eone.
    set (P := 2 ^ (e + 1074)).
    assert (Zpos m * P + Zpos D * P = 2 ^ (- e) * P) as Esum
      by (rewrite <- ED; ring).
    case_bool_decide as Hgt.
    + destruct Hgt as [-> Hgt].
      destruct (binary_round_exact D) as (m3 & e3 & -> & Hu).
      { change (- -53) with 53 in ED. change (2 ^ 53) with (2 ^ 52 + 2 ^ 52) in ED. lia. }
      split; [|apply upper_half_bounds; left; lia].
      cbn [units cond_Zopp]. rewrite Hu.
      change (2 ^ 1021) with P at 1.
      replace (Zpos m * P + Zpos D * P - 2 ^ (- -53) * P) with 0 by lia. done.
    + destruct (binary_round_upper_half D e) as (m3 & e3 & -> & Hb & Hu); [lia| |].
      { split; [|lia].
        destruct (Z.eq_dec e (-53)) as [->|Hne].
        - change (- -53 - 1) with 52. change (- -53) with 53 in ED.
          change (2 ^ 53) with (2 ^ 52 + 2 ^ 52) in ED. lia.
        - assert (2 ^ (- e) = 2 * 2 ^ (- e - 1)) as E2.
          { replace (- e) with (Z.succ (- e - 1)) at 1 by lia.
            apply Z.pow_succ_r. lia. }
          assert (2 ^ 53 ≤ 2 ^ (- e - 1)) by (apply Z.pow_le_mono_r; lia). lia. }
      split; [|by apply upper_half_bounds].
      cbn [units cond_Zopp]. fold P in Hu. lia.
Qed.

End float_facts.

(** C1: where the sigmoid of the forward pass is a probability (a binary64
    number from 0 to 1), the result of [predict] has a confidence from 0.5
    to 1.0; its political probability is that number, from 0 to 1; its
    non-political probability is the float [1 - political_probability], and
    the two add up to 1 within 2^-53 (values counted in units of 2^-1074);
    the label is [Political] exactly when the political probability is
    above 0.5; and the confidence is the probability if that is above 0.5
    and [1 - probability] otherwise, which is the probability of the
    predicted class. *)
Theorem predict_decision_rule {Image Text : Type}
    (sigmoid_of_forward : Image → Text → spec_float)
    (image : Image) (text : Text) :
  Model.probability (sigmoid_of_forward image text) →
  SFleb Model.half
    (Model.confidence (Model.predict sigmoid_of_forward image text)) = true ∧
  SFleb (Model.confidence (Model.predict sigmoid_of_forward image text))
    Model.one = true ∧
  Model.political_probability (Model.predict sigmoid_of_forward image text) =
    sigmoid_of_forward image text ∧
  SFleb Model.zero
    (Model.political_probability (Model.predict sigmoid_of_forward image text)) =
    true ∧
  SFleb
    (Model.political_probability (Model.predict sigmoid_of_forward image text))
    Model.one = true ∧
  Model.non_political_probability (Model.predict sigmoid_of_forward image text) =
    Model.fsub Model.one
      (Model.political_probability (Model.predict sigmoid_of_forward image text)) ∧
  (Z.abs
     (Model.units
        (Model.political_probability (Model.predict sigmoid_of_forward image text)) +
      Model.units
        (Model.non_political_probability
           (Model.predict sigmoid_of_forward image text)) -
      Model.units Model.one) ≤ 2 ^ 1021)%Z ∧
  (Model.prediction (Model.predict sigmoid_of_forward image text) = Model.Political ↔
   Model.gt
     (Model.political_probability (Model.predict sigmoid_of_forward image text))
     Model.half = true) ∧
  Model.confidence (Model.predict sigmoid_of_forward image text) =
    (if Model.gt (sigmoid_of_forward image text) Model.half
     then sigmoid_of_forward image text
     else Model.fsub Model.one (sigmoid_of_forward image text)) ∧
  Model.confidence (Model.predict sigmoid_of_forward image text) =
    match Model.prediction (Model.predict sigmoid_of_forward image text) with
    | Model.Political =>
        Model.political_probability (Model.predict sigmoid_of_forward image text)
    | Model.NonPolitical =>
        Model.non_political_probability
          (Model.predict sigmoid_of_forward image text)
    end.
Proof.
  unfold Model.predict, Model.decide_prediction.
  cbn [Model.prediction Model.confidence Model.political_probability
       Model.non_political_probability].
  generalize (sigmoid_of_forward image text). intros prob Hp.
  destruct (fsub_one_probability prob Hp) as [Hsum Hconf].
  pose proof Hp as (_ & H0 & H1).
  assert (Model.gt prob Model.half = true → SFleb prob Model.one = true)
    as Hone by done.
  destruct (Model.gt prob Model.half) eqn:Hgt.
  - repeat split; try done.
  - destruct Hconf as [Hc1 Hc2]. repeat split; try done.
Qed.

Lemma predict_decision_rule_witness :
  Model.probability (S754_finite false (2 ^ 52) (-54)) ∧
  Model.prediction
    (Model.predict (λ _ _ : unit, S754_finite false (2 ^ 52) (-54)) () ()) =
    Model.NonPolitical ∧
  Model.confidence
    (Model.predict (λ _ _ : unit, S754_finite false (2 ^ 52) (-54)) () ()) =
    S754_finite false (3 * 2 ^ 51) (-53) ∧
  SFleb Model.half
    (Model.confidence
       (Model.predict (λ _ _ : unit, S754_finite false (2 ^ 52) (-54)) () ())) =
    true.
Proof.
  assert (Model.probability (S754_finite false (2 ^ 52) (-54))) as Hp
    by (by vm_compute).
  split; [exact Hp|]. split; [by vm_compute|]. split; [by vm_compute|].
  exact (proj1 (predict_decision_rule
                  (λ _ _ : unit, S754_finite false (2 ^ 52) (-54)) () () Hp)).
Defined.
(** * Further properties *)

(** ** The counter and the kept list of the noise filter *)

Section noise_more.
Import PyStr Noise.
Context `{UC : UnicodeCase}.

Lemma credits_app (keywords : list str) (kw : str) (l1 l2 : list str) :
  credits keywords kw (l1 ++ l2) =
  (credits keywords kw l1 + credits keywords kw l2)%nat.
Proof. unfold credits. by rewrite List.filter_app, length_app. Qed.

Lemma credits_pos (keywords : list str) (kw : str) (l : list str) :
  (0 < credits keywords kw l)%nat ↔
  ∃ item, item ∈ l ∧ credited keywords item = Some kw.
Proof.
  unfold credits. induction l as [|a l IH]; simpl.
  - split; [lia|]. by intros (? & ?%elem_of_nil & _).
  - case_bool_decide as Ha; simpl.
    + split; [|lia]. intros _. exists a. split; [left|done].
    + rewrite IH. split.
      * intros (item & ? & ?). exists item. split; [by right|done].
      * intros (item & [->|?]%elem_of_cons & ?); [done|]. by exists item.
Qed.

Lemma credited_in (keywords : list str) (item kw : str) :
  credited keywords item = Some kw →
  kw ∈ keywords ∧ contains (get_norm kw) (get_norm item) = true.
Proof.
  intros [H1 H2]%find_some. split; [by apply list_elem_of_In|done].
Qed.

(** The entries of the counter after the loop: a keyword that took no item
    of [l] keeps the entry it had, if any; any other holds its old count
    plus the items it took. *)
Lemma filter_loop_lookup (keywords : list str) (l : list str) (acc : list str)
    (counts : gmap str nat) (kw : str) :
  (foldl (filter_step (normalized_keywords keywords)) (acc, counts) l).2 !! kw =
  match credits keywords kw l with
  | O => counts !! kw
  | S n => Some (counts !!! kw + S n)%nat
  end.
Proof.
  revert acc counts. induction l as [|item l IH]; intros acc counts; simpl; [done|].
  rewrite filter_step_credited.
  change (item :: l) with ([item] ++ l). rewrite credits_app.
  unfold credits at 1. simpl.
  destruct (credited keywords item) as [k|] eqn:Hc; simpl.
  - rewrite IH. destruct (decide (k = kw)) as [->|Hne].
    + rewrite bool_decide_eq_true_2 by done. simpl.
      rewrite lookup_total_insert_eq, lookup_insert_eq.
      destruct (credits keywords kw l); f_equal; lia.
    + rewrite bool_decide_eq_false_2 by congruence. simpl.
      by rewrite lookup_total_insert_ne, lookup_insert_ne.
  - apply IH.
Qed.

Lemma counter_sum_incr (counts : gmap str nat) (k : str) :
  map_fold (λ _ n s, n + s)%nat 0%nat (<[k := S (counts !!! k)]> counts) =
  S (map_fold (λ _ n s, n + s)%nat 0%nat counts).
Proof.
  rewrite lookup_total_alt. destruct (counts !! k) as [n|] eqn:Hk; simpl.
  - rewrite <- (insert_delete_eq counts).
    rewrite map_fold_insert_L; [|intros; lia|apply lookup_delete_eq].
    rewrite (map_fold_delete_L _ _ k n counts); [lia|intros; lia|done].
  - rewrite map_fold_insert_L; [done|intros; lia|done].
Qed.

Lemma filter_loop_sum (keywords : list str) (l : list str) (acc : list str)
    (counts : gmap str nat) :
  let r := foldl (filter_step (normalized_keywords keywords)) (acc, counts) l in
  (length r.1 + map_fold (λ _ n s, n + s)%nat 0%nat r.2 =
   length acc + map_fold (λ _ n s, n + s)%nat 0%nat counts + length l)%nat.
Proof.
  revert acc counts. induction l as [|item l IH]; intros acc counts; simpl; [lia|].
  rewrite filter_step_credited.
  destruct (credited keywords item) as [k|]; simpl.
  - simpl in IH. rewrite IH, counter_sum_incr. lia.
  - simpl in IH. rewrite IH, length_app. simpl. lia.
Qed.

Lemma contains_refl (s : str) : contains s s = true.
Proof. apply contains_infix. exists [], []. by rewrite app_nil_r. Qed.

Lemma contains_nil (s : str) : contains [] s = true.
Proof. by destruct s. Qed.

Lemma contains_trans (a b c : str) :
  contains a b = true → contains b c = true → contains a c = true.
Proof.
  intros (x & y & ->)%contains_infix (x' & y' & ->)%contains_infix.
  apply contains_infix. exists (x' ++ x), (y ++ y').
  by rewrite <- !app_assoc.
Qed.

(** A keyword that, taken as a fragment, is counted under another keyword
    is counted under that other keyword wherever it matches. *)
Lemma credited_shadowed (keywords : list str) (kw kw' item : str) :
  credited keywords kw = Some kw' → kw' ≠ kw →
  credited keywords item ≠ Some kw.
Proof.
  unfold credited, matches_keyword. intros Hk Hne Hi.
  induction keywords as [|a l IH]; simpl in *; [done|].
  destruct (contains (get_norm a) (get_norm kw)) eqn:Ha.
  - simplify_eq. destruct (contains (get_norm kw') (get_norm item)) eqn:Hb.
    + by simplify_eq.
    + apply find_some in Hi as [_ Hi].
      by rewrite (contains_trans _ _ _ Ha Hi) in Hb.
  - destruct (contains (get_norm a) (get_norm item)) eqn:Hb.
    + simplify_eq. by rewrite contains_refl in Ha.
    + by apply IH.
Qed.

End noise_more.

(** X1: after the loop the counter holds an entry for a keyword exactly when
    that keyword took at least one fragment: it holds no zero, and no key
    from outside the keyword table. *)
Theorem filter_counter_entries `{UC : PyStr.UnicodeCase}
    (g : globals) (text_list : list str) :
  ∃ cleaned counts,
    Noise.filter_noise_keywords text_list g = (Ok (cleaned, counts), g) ∧
    (∀ kw, is_Some (counts !! kw) ↔
           ∃ item, item ∈ text_list ∧
                   Noise.credited (g_NOISE_KEYWORDS g) item = Some kw) ∧
    (∀ kw n, counts !! kw = Some n → kw ∈ g_NOISE_KEYWORDS g ∧ (0 < n)%nat).
Proof.
  rewrite filter_noise_keywords_run.
  set (r := foldl _ _ _). exists r.1, r.2. split; [by destruct r|].
  assert (∀ kw, r.2 !! kw =
                match Noise.credits (g_NOISE_KEYWORDS g) kw text_list with
                | O => None
                | S n => Some (S n)
                end) as Hr.
  { intros kw. unfold r. rewrite filter_loop_lookup.
    by rewrite lookup_total_empty, lookup_empty. }
  split.
  - intros kw. rewrite Hr, <- credits_pos.
    destruct (Noise.credits _ kw text_list); split; try lia; try by eauto.
  - intros kw n. rewrite Hr.
    destruct (Noise.credits _ kw text_list) eqn:E; [done|]. intros [= <-].
    split; [|lia].
    destruct (proj1 (credits_pos (g_NOISE_KEYWORDS g) kw text_list))
      as (item & _ & Hc); [lia|].
    by apply credited_in in Hc as [? _].
Qed.

(** X2: every fragment is either kept or counted once: the kept fragments and
    the counts of the counter add up to the length of the input. *)
Theorem filter_kept_plus_counted `{UC : PyStr.UnicodeCase}
    (g : globals) (text_list : list str) :
  ∃ cleaned counts,
    Noise.filter_noise_keywords text_list g = (Ok (cleaned, counts), g) ∧
    (length cleaned + map_fold (λ _ n s, n + s)%nat 0%nat counts)%nat =
    length text_list.
Proof.
  rewrite filter_noise_keywords_run.
  pose proof (filter_loop_sum (g_NOISE_KEYWORDS g) text_list [] ∅) as H.
  simpl in H. set (r := foldl _ _ _) in *. exists r.1, r.2.
  split; [by destruct r|]. rewrite H, map_fold_empty. done.
Qed.

(** X3: filtering a concatenation: the kept list is the concatenation of the
    kept lists, the counter the sum of the counters. *)
Theorem filter_noise_keywords_app `{UC : PyStr.UnicodeCase}
    (g : globals) (l1 l2 : list str) :
  ∃ cleaned1 counts1 cleaned2 counts2,
    Noise.filter_noise_keywords l1 g = (Ok (cleaned1, counts1), g) ∧
    Noise.filter_noise_keywords l2 g = (Ok (cleaned2, counts2), g) ∧
    Noise.filter_noise_keywords (l1 ++ l2) g =
    (Ok (cleaned1 ++ cleaned2,
         union_with (λ a b, Some (a + b)%nat) counts1 counts2), g).
Proof.
  rewrite !filter_noise_keywords_run.
  set (kws := g_NOISE_KEYWORDS g).
  set (r1 := foldl _ _ l1). set (r2 := foldl _ _ l2). set (r := foldl _ _ (l1 ++ l2)).
  exists r1.1, r1.2, r2.1, r2.2.
  split; [by destruct r1|]. split; [by destruct r2|].
  destruct (filter_loop kws l1 [] ∅) as [H1 _].
  destruct (filter_loop kws l2 [] ∅) as [H2 _].
  destruct (filter_loop kws (l1 ++ l2) [] ∅) as [H _].
  simpl in H1, H2, H. fold r1 in H1. fold r2 in H2. fold r in H.
  assert (r.2 = union_with (λ a b, Some (a + b)%nat) r1.2 r2.2) as E.
  { apply map_eq. intros kw. rewrite lookup_union_with. unfold r, r1, r2.
    rewrite !filter_loop_lookup, credits_app.
    rewrite lookup_total_empty, lookup_empty.
    destruct (Noise.credits kws kw l1), (Noise.credits kws kw l2); simpl; f_equal; lia. }
  f_equal. rewrite <- E, H1, H2. rewrite <- List.filter_app, <- H. by destruct r.
Qed.

(** X4: filtering what the filter kept changes nothing: the same list comes
    back, with an empty counter. *)
Theorem filter_noise_keywords_idempotent `{UC : PyStr.UnicodeCase}
    (g : globals) (text_list : list str) :
  ∃ cleaned counts,
    Noise.filter_noise_keywords text_list g = (Ok (cleaned, counts), g) ∧
    Noise.filter_noise_keywords cleaned g = (Ok (cleaned, ∅), g).
Proof.
  rewrite filter_noise_keywords_run.
  set (kws := g_NOISE_KEYWORDS g).
  destruct (filter_loop kws text_list [] ∅) as [H1 _]. simpl in H1.
  set (r := foldl _ _ text_list) in *. exists r.1, r.2.
  split; [by destruct r|].
  rewrite filter_noise_keywords_run. fold kws.
  destruct (filter_loop kws r.1 [] ∅) as [H2 _]. simpl in H2.
  set (r' := foldl _ _ r.1) in *.
  assert (∀ item, item ∈ r.1 → Noise.is_noise kws item = false) as Hkept.
  { intros item. rewrite H1, list_elem_of_In, filter_In.
    intros [_ ?]. by apply negb_true_iff. }
  assert (r'.1 = r.1) as E1.
  { rewrite H2. apply forallb_filter_id, forallb_forall.
    intros item Hi. rewrite Hkept; [done|]. by apply list_elem_of_In. }
  assert (r'.2 = ∅) as E2.
  { apply map_eq. intros kw. unfold r'. rewrite filter_loop_lookup, lookup_empty.
    destruct (Noise.credits kws kw r.1) eqn:E; [done|].
    destruct (proj1 (credits_pos kws kw r.1)) as (item & Hi & Hc); [lia|].
    specialize (Hkept item Hi). rewrite credited_is_noise, Hc in Hkept.
    rewrite bool_decide_eq_true_2 in Hkept; [done|]. by eexists. }
  rewrite <- E1, <- E2. by destruct r'.
Qed.

(** X5: a keyword whose normalized form is empty (the empty string, or spaces
    only) occurs in every fragment: with such a keyword in the table the
    filter keeps nothing. *)
Theorem filter_with_blank_keyword `{UC : PyStr.UnicodeCase}
    (g : globals) (text_list : list str) (kw : str) :
  kw ∈ g_NOISE_KEYWORDS g → Noise.get_norm kw = [] →
  ∃ counts, Noise.filter_noise_keywords text_list g = (Ok ([], counts), g).
Proof.
  intros Hkw Hnorm. rewrite filter_noise_keywords_run.
  destruct (filter_loop (g_NOISE_KEYWORDS g) text_list [] ∅) as [H1 _]. simpl in H1.
  assert (∀ item, Noise.is_noise (g_NOISE_KEYWORDS g) item = true) as Hall.
  { intros item. apply existsb_exists. exists kw.
    split; [by apply list_elem_of_In|].
    unfold Noise.matches_keyword. rewrite Hnorm. apply contains_nil. }
  assert (List.filter (λ item, negb (Noise.is_noise (g_NOISE_KEYWORDS g) item))
            text_list = []) as Hnone.
  { clear H1. induction text_list as [|item l IH]; simpl; [done|].
    by rewrite Hall. }
  rewrite Hnone in H1.
  set (r := foldl _ _ text_list) in *. exists r.2.
  rewrite <- H1. by destruct r.
Qed.

Lemma filter_with_blank_keyword_witness :
  cps "  " ∈ [cps "memes"; cps "  "] ∧
  Noise.get_norm (UC := PyStr.ascii_rows) (cps "  ") = [] ∧
  ∃ counts,
    Noise.filter_noise_keywords (UC := PyStr.ascii_rows)
      [cps "Good morning"; cps "everyone"]
      (Globals [] [] [cps "memes"; cps "  "]) =
    (Ok ([], counts), Globals [] [] [cps "memes"; cps "  "]).
Proof.
  assert (cps "  " ∈ [cps "memes"; cps "  "]) as H1 by (right; left).
  split; [exact H1|]. split; [done|].
  exact (filter_with_blank_keyword (UC := PyStr.ascii_rows)
           (Globals [] [] [cps "memes"; cps "  "])
           [cps "Good morning"; cps "everyone"] (cps "  ") H1 eq_refl).
Defined.

Section shadowed_keywords.
Import PyStr Noise.
Context `{UC : UnicodeCase}.

Lemma shadowed_not_counted (keywords : list str) (l : list str) (kw kw' : str) :
  credited keywords kw = Some kw' → kw' ≠ kw →
  (foldl (filter_step (normalized_keywords keywords)) ([], ∅) l).2 !! kw = None.
Proof.
  intros Hk Hne. rewrite filter_loop_lookup, lookup_empty.
  destruct (credits keywords kw l) eqn:E; [done|].
  destruct (proj1 (credits_pos keywords kw l)) as (item & _ & Hc); [lia|].
  by destruct (credited_shadowed keywords kw kw' item Hk Hne).
Qed.

End shadowed_keywords.

(** X6: in the module's own table eleven keywords hold the normalized form of
    a keyword that stands before them, so the loop breaks at that one
    first: whatever the fragments are, these eleven are never counted.
    Each other keyword of the table, met as a fragment, is counted under
    its own name. *)
Theorem shadowed_keywords_never_counted `{UC : PyStr.UnicodeCase}
    (text_list : list str) :
  ∃ cleaned counts,
    Noise.filter_noise_keywords text_list Normalizer.module_globals =
    (Ok (cleaned, counts), Normalizer.module_globals) ∧
    ∀ kw, kw ∈ Noise.NOISE_KEYWORDS →
      if bool_decide
           (kw ∈ [cps "sagormeme"; cps "f /ferdoush.Shanto"; cps "FB/FAKIBAJIBD";
                  cps "f.memes"; cps "BangleMeme"; cps "BANGLATROLL.COM";
                  cps "memefoxofficial"; cps "Asraful Meme's"; cps "Faizlami";
                  cps "ab.memeposting"; cps "fb.com"])
      then counts !! kw = None
      else Noise.credited Noise.NOISE_KEYWORDS kw = Some kw.
Proof.
  rewrite filter_noise_keywords_run.
  set (r := foldl _ _ _). exists r.1, r.2. split; [by destruct r|].
  intros kw Hkw.
  assert (forallb (forallb Noise.pinned) Noise.NOISE_KEYWORDS = true) as Hpin
    by (by vm_compute).
  assert (forallb Noise.pinned kw = true) as Hkwpin.
  { rewrite forallb_forall in Hpin. by apply Hpin, list_elem_of_In. }
  rewrite (credited_pinned Noise.NOISE_KEYWORDS kw Hpin Hkwpin).
  set (dead := [cps "sagormeme"; _; _; _; _; _; _; _; _; _; _]).
  assert (forallb (λ kw,
            match Noise.credited (UC := PyStr.ascii_rows) Noise.NOISE_KEYWORDS kw with
            | Some kw' =>
                if bool_decide (kw ∈ dead) then negb (bool_decide (kw' = kw))
                else bool_decide (kw' = kw)
            | None => false
            end) Noise.NOISE_KEYWORDS = true) as Hall by (by vm_compute).
  rewrite forallb_forall in Hall. apply list_elem_of_In, Hall in Hkw.
  destruct (Noise.credited (UC := PyStr.ascii_rows) Noise.NOISE_KEYWORDS kw)
    as [kw'|] eqn:Hc; [|done].
  destruct (bool_decide (kw ∈ dead)).
  - apply negb_true_iff, bool_decide_eq_false in Hkw.
    unfold r. simpl. apply (shadowed_not_counted _ _ kw kw'); [|done].
    by rewrite (credited_pinned Noise.NOISE_KEYWORDS kw Hpin Hkwpin).
  - apply bool_decide_eq_true in Hkw. by subst.
Qed.

(** X7: where every fragment matches a keyword, nothing is left to normalize:
    the pipeline returns the empty string. *)
Theorem process_extracted_text_all_noise
    `{UC : PyStr.UnicodeCase} `{RT : Re.RegexTables} `{TL : Normalizer.TextLibs}
    (g : globals) (detected_text : list str) :
  (∀ item, item ∈ detected_text →
     Noise.is_noise (g_NOISE_KEYWORDS g) item = true) →
  Normalizer.process_extracted_text detected_text g = (Ok [], g).
Proof.
  intros Hall. rewrite process_extracted_text_run.
  assert (List.filter (λ item, negb (Noise.is_noise (g_NOISE_KEYWORDS g) item))
            detected_text = []) as ->; [|apply normalize_default_nil].
  induction detected_text as [|item l IH]; simpl; [done|].
  rewrite Hall by left. simpl. apply IH. intros ? ?. apply Hall. by right.
Qed.

Lemma process_extracted_text_all_noise_witness :
  (∀ item, item ∈ [cps "dank memes"; cps "Follow for more"] →
     Noise.is_noise (UC := PyStr.ascii_rows)
       (g_NOISE_KEYWORDS Normalizer.module_globals) item = true) ∧
  Normalizer.process_extracted_text
    (UC := PyStr.ascii_rows) (RT := Re.ascii_tables) (TL := Normalizer.identity_libs)
    [cps "dank memes"; cps "Follow for more"] Normalizer.module_globals =
  (Ok [], Normalizer.module_globals).
Proof.
  assert (∀ item, item ∈ [cps "dank memes"; cps "Follow for more"] →
            Noise.is_noise (UC := PyStr.ascii_rows)
              (g_NOISE_KEYWORDS Normalizer.module_globals) item = true) as H.
  { intros item [->|[->|[]%elem_of_nil]%elem_of_cons]%elem_of_cons; by vm_compute. }
  split; [exact H|].
  exact (process_extracted_text_all_noise
           (UC := PyStr.ascii_rows) (RT := Re.ascii_tables)
           (TL := Normalizer.identity_libs) Normalizer.module_globals
           [cps "dank memes"; cps "Follow for more"] H).
Defined.

(** X8: a fragment that matches a keyword leaves no trace in the result: with
    it or without it, wherever it stands in the list, the pipeline returns
    the same text. *)
Theorem process_extracted_text_ignores_noise
    `{UC : PyStr.UnicodeCase} `{RT : Re.RegexTables} `{TL : Normalizer.TextLibs}
    (g : globals) (l1 l2 : list str) (item : str) :
  Noise.is_noise (g_NOISE_KEYWORDS g) item = true →
  Normalizer.process_extracted_text (l1 ++ item :: l2) g =
  Normalizer.process_extracted_text (l1 ++ l2) g.
Proof.
  intros Hitem. rewrite !process_extracted_text_run, !List.filter_app.
  simpl. by rewrite Hitem.
Qed.

Lemma process_extracted_text_ignores_noise_witness :
  Noise.is_noise (UC := PyStr.ascii_rows)
    (g_NOISE_KEYWORDS Normalizer.module_globals) (cps "imgflip.com") = true ∧
  Normalizer.process_extracted_text
    (UC := PyStr.ascii_rows) (RT := Re.ascii_tables) (TL := Normalizer.identity_libs)
    ([cps "one does not"] ++ cps "imgflip.com" :: [cps "simply vote"])
    Normalizer.module_globals =
  Normalizer.process_extracted_text
    (UC := PyStr.ascii_rows) (RT := Re.ascii_tables) (TL := Normalizer.identity_libs)
    ([cps "one does not"] ++ [cps "simply vote"]) Normalizer.module_globals.
Proof.
  assert (Noise.is_noise (UC := PyStr.ascii_rows)
            (g_NOISE_KEYWORDS Normalizer.module_globals) (cps "imgflip.com") = true)
    as H by (by vm_compute).
  split; [exact H|].
  exact (process_extracted_text_ignores_noise
           (UC := PyStr.ascii_rows) (RT := Re.ascii_tables)
           (TL := Normalizer.identity_libs) Normalizer.module_globals
           [cps "one does not"] [cps "simply vote"] (cps "imgflip.com") H).
Defined.

(** ** More on the decision rule *)

Section decision_more.
Import Model.
Local Open Scope Z_scope.

(** As [binary_round_exact], with the mantissa and the exponent of the
    result. *)
Lemma binary_round_exact_shape (D : positive) :
  Zpos D < 2 ^ 52 →
  ∃ m3 e3, binary_round prec emax false D (-53) = S754_finite false m3 e3 ∧
    2 ^ 52 ≤ Zpos m3 < 2 ^ 53 ∧ -105 ≤ e3 ≤ -54 ∧
    Zpos m3 * 2 ^ (e3 + 1074) = Zpos D * 2 ^ 1021.
Proof.
  intros HD. pose proof (digits2_pos_bounds D) as [Hd1 Hd2].
  set (d := Zpos (digits2_pos D)) in *.
  assert (1 ≤ d) as Hd by (unfold d; lia).
  assert (d ≤ 52) as Hd52.
  { destruct (Z.le_gt_cases d 52) as [|Hgt]; [done|].
    assert (2 ^ 52 ≤ 2 ^ (d - 1)) by (apply Z.pow_le_mono_r; lia). lia. }
  unfold binary_round. fold d.
  replace (fexp prec emax (d + -53)) with (d - 106)
    by (unfold fexp, emin, prec, emax; lia).
  destruct (shl_align_gt D (-53) (d - 106)) as (mz & -> & Hmz); [lia|].
  replace (-53 - (d - 106)) with (53 - d) in Hmz by lia.
  assert (2 ^ 52 = 2 ^ (d - 1) * 2 ^ (53 - d)) as E52
    by (rewrite <- Z.pow_add_r by lia; f_equal; lia).
  assert (2 ^ 53 = 2 ^ d * 2 ^ (53 - d)) as E53
    by (rewrite <- Z.pow_add_r by lia; f_equal; lia).
  assert (0 < 2 ^ (53 - d)) as Hpos by (apply Z.pow_pos_nonneg; lia).
  assert (2 ^ 52 ≤ Zpos mz < 2 ^ 53) as Hmz'.
  { rewrite Hmz, E52, E53. split.
    - apply Z.mul_le_mono_nonneg_r; lia.
    - apply Z.mul_lt_mono_pos_r; lia. }
  rewrite binary_round_aux_normal by lia.
  exists mz, (d - 106). split; [done|]. split; [done|]. split; [lia|].
  rewrite Hmz.
  replace (2 ^ 1021) with (2 ^ (53 - d) * 2 ^ (d - 106 + 1074))
    by (rewrite <- Z.pow_add_r by lia; f_equal; lia).
  ring.
Qed.

Lemma valid_binary_normal (s : bool) (m : positive) (e : Z) :
  2 ^ 52 ≤ Zpos m < 2 ^ 53 → -1074 ≤ e ≤ 971 →
  valid_binary prec emax (S754_finite s m e) = true.
Proof.
  intros Hm He. cbn [valid_binary]. unfold bounded, canonical_mantissa.
  rewrite (digits2_pos_unique m 53) by done.
  unfold fexp, emin, prec, emax.
  apply andb_true_iff. split; [apply Z.eqb_eq|apply Z.leb_le]; lia.
Qed.

Lemma SFleb_refl_finite (m : positive) (e : Z) :
  SFleb (S754_finite false m e) (S754_finite false m e) = true.
Proof.
  unfold SFleb, SFcompare. rewrite Z.compare_refl.
  destruct (compare_cont_spec m m) as [_|H|H]; [done|lia|lia].
Qed.

Lemma SFleb_exponent (m m' : positive) (e e' : Z) :
  e < e' → SFleb (S754_finite false m e) (S754_finite false m' e') = true.
Proof.
  intros He. unfold SFleb, SFcompare.
  by rewrite (proj2 (Z.compare_lt_iff e e') He).
Qed.

(** [1 - p] for a probability [p], by the side of 0.5 that [p] is on. *)
Lemma fsub_one_shape (p : spec_float) :
  probability p →
  if gt p half then
    units p + units (fsub one p) = units one ∧
    SFleb (fsub one p) p = true ∧ SFleb p p = true ∧
    probability (fsub one p)
  else
    SFleb p (fsub one p) = true ∧ SFleb (fsub one p) (fsub one p) = true ∧
    probability (fsub one p).
Proof.
  intros Hp.
  destruct (probability_cases p Hp) as [[s ->]|[->|(m & e & -> & He & Hm & Hn)]].
  - change (fsub one (S754_zero s)) with one.
    change (gt (S754_zero s) half) with false. by destruct s.
  - change (fsub one one) with (S754_zero false).
    change (gt one half) with true. cbn [units].
    split; [lia|]. by vm_compute.
  - rewrite fsub_one_finite, gt_half_finite by lia.
    assert (2 ^ 53 ≤ 2 ^ (- e)) as H53 by (apply Z.pow_le_mono_r; lia).
    assert (units one = 2 ^ (- e) * 2 ^ (e + 1074)) as Eone.
    { rewrite <- Z.pow_add_r by lia. replace (- e + (e + 1074)) with 1074 by lia.
      by vm_compute. }
    destruct (2 ^ (- e) - Zpos m) as [|D|D] eqn:ED; [lia| |lia].
    cbn [binary_normalize].
    case_bool_decide as Hgt.
    + destruct Hgt as [-> Hgt].
      destruct (binary_round_exact_shape D) as (m3 & e3 & -> & Hm3 & He3 & Hu).
      { change (- -53) with 53 in ED. change (2 ^ 53) with (2 ^ 52 + 2 ^ 52) in ED. lia. }
      split; [|split; [|split]].
      * cbn [units cond_Zopp]. rewrite Hu, Eone.
        change (2 ^ (-53 + 1074)) with (2 ^ 1021). rewrite <- ED.
        change (- -53) with 53. ring.
      * apply SFleb_exponent. lia.
      * apply SFleb_refl_finite.
      * split; [apply valid_binary_normal; lia|]. split; [done|].
        apply SFleb_exponent. lia.
    + destruct (binary_round_upper_half D e) as (m3 & e3 & -> & Hb & Hu); [lia| |].
      { split; [|lia].
        destruct (Z.eq_dec e (-53)) as [->|Hne].
        - change (- -53 - 1) with 52. change (- -53) with 53 in ED.
          change (2 ^ 53) with (2 ^ 52 + 2 ^ 52) in ED. lia.
        - assert (2 ^ (- e) = 2 * 2 ^ (- e - 1)) as E2.
          { replace (- e) with (Z.succ (- e - 1)) at 1 by lia.
            apply Z.pow_succ_r. lia. }
          assert (2 ^ 53 ≤ 2 ^ (- e - 1)) by (apply Z.pow_le_mono_r; lia). lia. }
      split; [|split].
      * destruct (Z.lt_ge_cases e e3) as [Hlt|Hge]; [by apply SFleb_exponent|].
        assert (e = -53 ∧ e3 = -53) as [-> ->] by lia.
        assert (Zpos m = 2 ^ 52) as Em by lia.
        unfold SFleb, SFcompare. change (-53 ?= -53) with Eq.
        destruct (compare_cont_spec m m3) as [_|_|H]; [done|done|lia].
      * apply SFleb_refl_finite.
      * split; [|split; [done|by apply upper_half_bounds]].
        destruct Hb as [[-> Hm3]|[-> Hm3]].
        -- apply valid_binary_normal; lia.
        -- apply valid_binary_normal; [|lia].
           rewrite Hm3. split; [lia|]. done.
Qed.

End decision_more.

(** X9: where the sigmoid of the forward pass is a probability, the
    non-political probability of the result is one as well: a valid
    binary64 number from 0 to 1. *)
Theorem non_political_probability_range {Image Text : Type}
    (sigmoid_of_forward : Image → Text → spec_float)
    (image : Image) (text : Text) :
  Model.probability (sigmoid_of_forward image text) →
  Model.probability
    (Model.non_political_probability
       (Model.predict sigmoid_of_forward image text)).
Proof.
  unfold Model.predict, Model.decide_prediction.
  cbn [Model.non_political_probability].
  intros Hp. pose proof (fsub_one_shape _ Hp) as H.
  destruct (Model.gt _ _); tauto.
Qed.

Lemma non_political_probability_range_witness :
  Model.probability (S754_finite false (3 * 2 ^ 51) (-53)) ∧
  Model.probability
    (Model.non_political_probability
       (Model.predict (λ _ _ : unit, S754_finite false (3 * 2 ^ 51) (-53)) () ())).
Proof.
  assert (Model.probability (S754_finite false (3 * 2 ^ 51) (-53))) as Hp
    by (by vm_compute).
  split; [exact Hp|].
  exact (non_political_probability_range
           (λ _ _ : unit, S754_finite false (3 * 2 ^ 51) (-53)) () () Hp).
Defined.

(** X10: the confidence is the larger of the two probabilities of the result:
    neither of them is above it. *)
Theorem confidence_is_larger_probability {Image Text : Type}
    (sigmoid_of_forward : Image → Text → spec_float)
    (image : Image) (text : Text) :
  Model.probability (sigmoid_of_forward image text) →
  SFleb
    (Model.political_probability (Model.predict sigmoid_of_forward image text))
    (Model.confidence (Model.predict sigmoid_of_forward image text)) = true ∧
  SFleb
    (Model.non_political_probability (Model.predict sigmoid_of_forward image text))
    (Model.confidence (Model.predict sigmoid_of_forward image text)) = true.
Proof.
  unfold Model.predict, Model.decide_prediction.
  cbn [Model.non_political_probability Model.political_probability Model.confidence].
  intros Hp. pose proof (fsub_one_shape _ Hp) as H.
  destruct (Model.gt _ _); tauto.
Qed.

Lemma confidence_is_larger_probability_witness :
  Model.probability (S754_finite false (2 ^ 52) (-55)) ∧
  SFleb
    (Model.political_probability
       (Model.predict (λ _ _ : unit, S754_finite false (2 ^ 52) (-55)) () ()))
    (Model.confidence
       (Model.predict (λ _ _ : unit, S754_finite false (2 ^ 52) (-55)) () ())) = true ∧
  SFleb
    (Model.non_political_probability
       (Model.predict (λ _ _ : unit, S754_finite false (2 ^ 52) (-55)) () ()))
    (Model.confidence
       (Model.predict (λ _ _ : unit, S754_finite false (2 ^ 52) (-55)) () ())) = true.
Proof.
  assert (Model.probability (S754_finite false (2 ^ 52) (-55))) as Hp
    by (by vm_compute).
  split; [exact Hp|].
  exact (confidence_is_larger_probability
           (λ _ _ : unit, S754_finite false (2 ^ 52) (-55)) () () Hp).
Defined.

(** X11: for a result labelled [Political] the subtraction [1 - prob] is exact:
    the two probabilities add up to 1 with no rounding error (values
    counted in units of 2^-1074). *)
Theorem political_probabilities_sum_exactly {Image Text : Type}
    (sigmoid_of_forward : Image → Text → spec_float)
    (image : Image) (text : Text) :
  Model.probability (sigmoid_of_forward image text) →
  Model.prediction (Model.predict sigmoid_of_forward image text) = Model.Political →
  (Model.units
     (Model.political_probability (Model.predict sigmoid_of_forward image text)) +
   Model.units
     (Model.non_political_probability (Model.predict sigmoid_of_forward image text)) =
   Model.units Model.one)%Z.
Proof.
  unfold Model.predict, Model.decide_prediction.
  cbn [Model.non_political_probability Model.political_probability Model.prediction].
  intros Hp. pose proof (fsub_one_shape _ Hp) as H.
  destruct (Model.gt _ _); [tauto|done].
Qed.

Lemma political_probabilities_sum_exactly_witness :
  Model.probability (S754_finite false (2 ^ 52 + 1) (-53)) ∧
  Model.prediction
    (Model.predict (λ _ _ : unit, S754_finite false (2 ^ 52 + 1) (-53)) () ()) =
    Model.Political ∧
  (Model.units
     (Model.political_probability
        (Model.predict (λ _ _ : unit, S754_finite false (2 ^ 52 + 1) (-53)) () ())) +
   Model.units
     (Model.non_political_probability
        (Model.predict (λ _ _ : unit, S754_finite false (2 ^ 52 + 1) (-53)) () ())) =
   Model.units Model.one)%Z.
Proof.
  assert (Model.probability (S754_finite false (2 ^ 52 + 1) (-53))) as Hp
    by (by vm_compute).
  assert (Model.prediction
            (Model.predict (λ _ _ : unit, S754_finite false (2 ^ 52 + 1) (-53)) () ()) =
          Model.Political) as Hl by (by vm_compute).
  split; [exact Hp|]. split; [exact Hl|].
  exact (political_probabilities_sum_exactly
           (λ _ _ : unit, S754_finite false (2 ^ 52 + 1) (-53)) () () Hp Hl).
Defined.

(** ** Quotes *)

Section alternation_more.
Import Alternation.

Lemma match_alt_nonempty (p : list atom) (text : str) (m : str * option N) :
  p ≠ [] → match_alt p text = Some m → m.1 ≠ [].
Proof.
  intros Hp Hm. apply match_alt_length in Hm as [Hm _].
  destruct p; [done|]. destruct m as [[|x s] g]; simpl in *; done.
Qed.

Lemma match_here_nonempty (alts : list (list atom)) (text : str) (m : str * option N) :
  Forall (λ p, p ≠ []) alts → match_here alts text = Some m → m.1 ≠ [].
Proof.
  induction 1 as [|p alts Hp Halts IH]; simpl; [done|].
  destruct (match_alt p text) as [m'|] eqn:E; [|done].
  intros [= <-]. by eapply match_alt_nonempty.
Qed.

Lemma match_here_app (alts1 alts2 : list (list atom)) (text : str) :
  match_here (alts1 ++ alts2) text =
  match match_here alts1 text with
  | Some m => Some m
  | None => match_here alts2 text
  end.
Proof.
  induction alts1 as [|p alts1 IH]; simpl; [done|].
  by destruct (match_alt p text).
Qed.

(** An alternation of single code points. *)
Lemma match_here_singles (ks : list N) (c : N) (t : str) :
  match_here ((λ k, [Lit k]) <$> ks) (c :: t) =
  if existsb (N.eqb c) ks then Some ([c], None) else None.
Proof.
  induction ks as [|k ks IH]; simpl; [done|].
  destruct (c =? k); simpl; [done|]. apply IH.
Qed.

(** An alternative of literals matches where the text starts with them. *)
Lemma match_alt_lits (s : str) (text : str) (m : str * option N) :
  match_alt (Lit <$> s) text = Some m → ∃ t, text = s ++ t.
Proof.
  revert text m. induction s as [|k s IH]; intros text m; simpl.
  - intros _. by exists text.
  - destruct text as [|x text]; [done|].
    destruct (N.eqb_spec x k) as [->|_]; [|done].
    destruct (match_alt _ text) as [m'|] eqn:E; simpl; [|done].
    intros _. destruct (IH _ _ E) as [t ->]. by exists t.
Qed.

(** What a pass copies it found unmatched, what else it writes is a
    replacement. *)
Lemma sub_from_Forall (alts : list (list atom)) (repl : str * option N → str)
    (Q P : N → Prop) (text : str) (k : nat) :
  Forall (λ p, p ≠ []) alts →
  (∀ m, Forall P (repl m)) →
  (∀ c t, Q c → match_here alts (c :: t) = None → P c) →
  Forall Q text → Forall P (sub_from alts repl k text).
Proof.
  intros Halts Hrepl Hcopy Htext. revert k.
  induction Htext as [|c text Hc Htext IH]; intros k; cbn [sub_from].
  - destruct k; [|done]. by destruct (match_here alts []).
  - destruct k as [|k]; [|apply IH].
    destruct (match_here alts (c :: text)) as [m|] eqn:E.
    + destruct (length m.1) eqn:El.
      * apply (match_here_nonempty _ _ _ Halts) in E.
        destruct m as [[|x s] g]; simpl in *; done.
      * apply Forall_app. split; [apply Hrepl|apply IH].
    + constructor; [by eapply Hcopy|apply IH].
Qed.

(** A pass that meets no match, or only matches of one code point that it
    replaces by the same code point, returns the text. *)
Lemma sub_from_unchanged (alts : list (list atom)) (repl : str * option N → str)
    (text : str) :
  match_here alts [] = None →
  (∀ pre c t, text = pre ++ c :: t →
     match_here alts (c :: t) = None ∨
     ∃ g, match_here alts (c :: t) = Some ([c], g) ∧ repl ([c], g) = [c]) →
  sub_from alts repl 0 text = text.
Proof.
  intros Hnil. induction text as [|c text IH]; intros H; cbn [sub_from].
  - by rewrite Hnil.
  - destruct (H [] c text eq_refl) as [->|(g & -> & Hg)].
    + f_equal. apply IH. intros pre c' t ->. by apply (H (c :: pre)).
    + cbn [fst length]. rewrite Hg. simpl. f_equal.
      apply IH. intros pre c' t ->. by apply (H (c :: pre)).
Qed.

(** A pass whose matches are not empty and whose replacements are single
    code points does not lengthen the text. *)
Lemma sub_from_length (alts : list (list atom)) (repl : str * option N → str)
    (text : str) (k : nat) :
  Forall (λ p, p ≠ []) alts →
  (∀ m, (length (repl m) ≤ 1)%nat) →
  (length (sub_from alts repl k text) ≤ length text - k)%nat.
Proof.
  intros Halts Hrepl. revert k.
  induction text as [|c text IH]; intros k; cbn [sub_from].
  - destruct k; [|simpl; lia].
    destruct (match_here alts []) as [m|] eqn:E; [|simpl; lia].
    apply (match_here_nonempty _ _ _ Halts) in E as Hne.
    apply match_here_length in E. destruct m as [[|x s] g]; simpl in *; [done|lia].
  - destruct k as [|k]; [|apply IH].
    destruct (match_here alts (c :: text)) as [m|] eqn:E.
    + destruct (length m.1) eqn:El.
      * apply (match_here_nonempty _ _ _ Halts) in E.
        destruct m as [[|x s] g]; simpl in *; done.
      * rewrite length_app. specialize (IH n). specialize (Hrepl m). simpl. lia.
    + specialize (IH 0%nat). simpl. lia.
Qed.

End alternation_more.

Ltac split_eqb :=
  match goal with
  | |- context [N.eqb ?v ?c] => is_var v; destruct (N.eqb_spec v c) as [->|?]
  end.

Section quote_facts.
Import Alternation Tables.

(** The single code points of a list of alternatives. *)
Lemma singles_of (keys : list str) (c : N) :
  [c] ∈ keys →
  c ∈ omap (λ k, match k with [x] => Some x | _ => None end) keys.
Proof. intros H. apply list_elem_of_omap. by exists [c]. Qed.

Lemma SINGLE_QUOTE_REGEX_singles :
  SINGLE_QUOTE_REGEX =
  (λ k, [Lit k]) <$> [39; 0x201B; 39; 0x275B; 0x275C; 96; 0xB4; 39; 39].
Proof. done. Qed.

Lemma DOUBLE_QUOTE_REGEX_parts :
  DOUBLE_QUOTE_REGEX =
  ((λ k, [Lit k]) <$> [0xAB; 0x2039; 0xBB; 0x203A; 0x201E]) ++
  [Lit <$> [44; 32; 34; 0x201F; 34; 44; 32]] ++
  ((λ k, [Lit k]) <$> [0x275D; 0x275E; 0x276E; 0x276F; 0x301D; 0x301E; 0x301F; 0xFF02]).
Proof. done. Qed.

Lemma existsb_eqb_elem_of (c : N) (l : list N) :
  existsb (N.eqb c) l = true ↔ c ∈ l.
Proof.
  rewrite existsb_exists. split.
  - intros (x & Hx & ->%N.eqb_eq). by apply list_elem_of_In.
  - intros H. exists c. split; [by apply list_elem_of_In|apply N.eqb_refl].
Qed.

(** The match of the double-quote pattern in front of [c]. *)
Lemma match_here_double (c : N) (t : str) :
  match_here DOUBLE_QUOTE_REGEX (c :: t) =
  if existsb (N.eqb c) [0xAB; 0x2039; 0xBB; 0x203A; 0x201E; 0x275D; 0x275E;
                        0x276E; 0x276F; 0x301D; 0x301E; 0x301F; 0xFF02]
  then Some ([c], None)
  else match_alt (Lit <$> [44; 32; 34; 0x201F; 34; 44; 32]) (c :: t).
Proof.
  rewrite DOUBLE_QUOTE_REGEX_parts, !match_here_app, !match_here_singles.
  cbn [match_here existsb].
  repeat (split_eqb; [done|]).
  cbn [orb]. by destruct (match_alt _ _).
Qed.

Lemma quote_regexes_nonempty :
  Forall (λ p, p ≠ []) SINGLE_QUOTE_REGEX ∧ Forall (λ p, p ≠ []) DOUBLE_QUOTE_REGEX.
Proof.
  split; apply Forall_forall; intros p Hp.
  - rewrite SINGLE_QUOTE_REGEX_singles in Hp.
    apply list_elem_of_fmap in Hp as (k & -> & _). done.
  - rewrite DOUBLE_QUOTE_REGEX_parts in Hp.
    apply elem_of_app in Hp as [Hp|Hp].
    + apply list_elem_of_fmap in Hp as (k & -> & _). done.
    + apply elem_of_app in Hp as [Hp|Hp].
      * apply list_elem_of_singleton in Hp as ->. done.
      * apply list_elem_of_fmap in Hp as (k & -> & _). done.
Qed.

(** What [fix_quotes] writes is a code point of the text or one of the two
    ASCII quotes, and none of the variants the two lists name alone
    is left. *)
Lemma fix_quotes_Forall (text : str) :
  Forall (λ c, (c ∈ text ∨ c = 39 ∨ c = 34) ∧
               (existsb (N.eqb c)
                  [39; 0x201B; 39; 0x275B; 0x275C; 96; 0xB4; 39; 39;
                   0xAB; 0x2039; 0xBB; 0x203A; 0x201E; 0x275D; 0x275E;
                   0x276E; 0x276F; 0x301D; 0x301E; 0x301F; 0xFF02] = true →
                c = 39))
    (fix_quotes text).
Proof.
  destruct quote_regexes_nonempty as [Hs Hd].
  unfold fix_quotes, sub.
  set (P1 := λ c : N,
         (c ∈ text ∨ c = 39) ∧
         (existsb (N.eqb c) [39; 0x201B; 39; 0x275B; 0x275C; 96; 0xB4; 39; 39] = true →
          c = 39)).
  assert (Forall P1 (sub_from SINGLE_QUOTE_REGEX (λ _, cps "'") 0 text)) as H1.
  { apply (sub_from_Forall _ _ (λ c, c ∈ text)); [done| | |].
    - intros _. constructor; [|done]. split; [by right|done].
    - intros c t Hc Hm. split; [by left|]. intros Hex.
      rewrite SINGLE_QUOTE_REGEX_singles, match_here_singles, Hex in Hm. done.
    - by apply Forall_forall. }
  eapply (sub_from_Forall _ _ P1); [done| | |exact H1].
  - intros _. constructor; [|done]. split; [by right; right|]. by vm_compute.
  - intros c t [Hc1 Hc2] Hm. split; [tauto|]. intros Hex.
    rewrite match_here_double in Hm.
    cbn [existsb] in Hex, Hc2, Hm. revert Hex Hc2 Hm.
    repeat (split_eqb;
      [intros Hex Hc2 Hm;
       first [done | by specialize (Hc2 eq_refl) | by simpl in Hm]|]).
    done.
Qed.

(** A text free of the variants and of U+201F is a fixed point of both
    passes. *)
Lemma fix_quotes_fixed (text : str) :
  (∀ c, c ∈ text →
     (existsb (N.eqb c)
        [39; 0x201B; 39; 0x275B; 0x275C; 96; 0xB4; 39; 39;
         0xAB; 0x2039; 0xBB; 0x203A; 0x201E; 0x275D; 0x275E;
         0x276E; 0x276F; 0x301D; 0x301E; 0x301F; 0xFF02] = true → c = 39) ∧
     c ≠ 0x201F) →
  fix_quotes text = text.
Proof.
  intros Hb. unfold fix_quotes, sub.
  assert (sub_from SINGLE_QUOTE_REGEX (λ _, cps "'") 0 text = text) as ->.
  { apply sub_from_unchanged; [done|]. intros pre c t ->.
    rewrite SINGLE_QUOTE_REGEX_singles, match_here_singles.
    destruct (Hb c) as [Hc _]; [apply elem_of_app; right; left|].
    cbn [existsb] in *.
    destruct (N.eqb_spec c 39) as [->|?]; [right; by exists None|].
    repeat (split_eqb; [by specialize (Hc eq_refl)|]).
    by left. }
  apply sub_from_unchanged; [done|]. intros pre c t ->. left.
  rewrite match_here_double.
  destruct (Hb c) as [Hc _]; [apply elem_of_app; right; left|].
  cbn [existsb] in *.
  repeat (split_eqb; [by specialize (Hc eq_refl)|]).
  cbn [orb].
  destruct (match_alt _ (c :: t)) as [m|] eqn:E; [|done].
  apply match_alt_lits in E as [t' E].
  destruct (Hb 0x201F) as [_ H]; [|done].
  rewrite elem_of_app. right. rewrite E.
  apply elem_of_app. left. apply list_elem_of_In. simpl. tauto.
Qed.

End quote_facts.

(** X12: after [fix_quotes] none of the quote variants that the two lists name
    as a single code point is left in the text, the apostrophe apart. *)
Theorem fix_quotes_leaves_no_variant (text : str) (c : N) :
  c ∈ Tables.fix_quotes text →
  [c] ∈ Tables.SINGLE_QUOTES ++ Tables.DOUBLE_QUOTES → c = 39.
Proof.
  intros Hc Hin. pose proof (fix_quotes_Forall text) as H.
  rewrite Forall_forall in H. destruct (H c Hc) as [_ Hv].
  apply Hv. apply existsb_eqb_elem_of. by apply singles_of in Hin.
Qed.

Lemma fix_quotes_leaves_no_variant_witness :
  39 ∈ Tables.fix_quotes [0x201B; 97; 0xAB; 98; 0xBB] ∧
  [39] ∈ Tables.SINGLE_QUOTES ++ Tables.DOUBLE_QUOTES ∧
  39 = 39.
Proof.
  assert (39 ∈ Tables.fix_quotes [0x201B; 97; 0xAB; 98; 0xBB]) as H1
    by (vm_compute; left).
  assert ([39] ∈ Tables.SINGLE_QUOTES ++ Tables.DOUBLE_QUOTES) as H2 by left.
  split; [exact H1|]. split; [exact H2|].
  exact (fix_quotes_leaves_no_variant [0x201B; 97; 0xAB; 98; 0xBB] 39 H1 H2).
Defined.

(** X13: a text that holds none of these variants and no U+201F passes
    [fix_quotes] unchanged. *)
Theorem fix_quotes_unchanged (text : str) :
  (∀ c, c ∈ text →
     ([c] ∈ Tables.SINGLE_QUOTES ++ Tables.DOUBLE_QUOTES → c = 39) ∧ c ≠ 0x201F) →
  Tables.fix_quotes text = text.
Proof.
  intros Htext. apply fix_quotes_fixed.
  intros c Hc. destruct (Htext c Hc) as [H1 H2]. split; [|done].
  intros Hex. apply H1. apply existsb_eqb_elem_of in Hex.
  repeat (apply elem_of_cons in Hex as [->|Hex];
          [apply (bool_decide_unpack _); by vm_compute|]).
  by apply elem_of_nil in Hex.
Qed.

Lemma fix_quotes_unchanged_witness :
  (∀ c, c ∈ cps "it's, " ++ [0x201C] ++ cps "so" ++ [0x201D] →
     ([c] ∈ Tables.SINGLE_QUOTES ++ Tables.DOUBLE_QUOTES → c = 39) ∧ c ≠ 0x201F) ∧
  Tables.fix_quotes (cps "it's, " ++ [0x201C] ++ cps "so" ++ [0x201D]) =
  cps "it's, " ++ [0x201C] ++ cps "so" ++ [0x201D].
Proof.
  assert (∀ c, c ∈ cps "it's, " ++ [0x201C] ++ cps "so" ++ [0x201D] →
            ([c] ∈ Tables.SINGLE_QUOTES ++ Tables.DOUBLE_QUOTES → c = 39) ∧
            c ≠ 0x201F) as H.
  { intros c Hc. apply list_elem_of_In in Hc. vm_compute in Hc.
    repeat (destruct Hc as [<-|Hc];
            [split; [|done]; intros Hin; apply list_elem_of_In in Hin;
             vm_compute in Hin; intuition congruence|]).
    done. }
  split; [exact H|].
  exact (fix_quotes_unchanged (cps "it's, " ++ [0x201C] ++ cps "so" ++ [0x201D]) H).
Defined.

(** X14: [fix_quotes] never lengthens a text. *)
Theorem fix_quotes_length (text : str) :
  (length (Tables.fix_quotes text) ≤ length text)%nat.
Proof.
  destruct quote_regexes_nonempty as [Hs Hd].
  unfold Tables.fix_quotes, Alternation.sub.
  pose proof (sub_from_length Tables.SINGLE_QUOTE_REGEX (λ _, cps "'") text 0 Hs) as H1.
  pose proof (sub_from_length Tables.DOUBLE_QUOTE_REGEX (λ _, [34])
                (Alternation.sub_from Tables.SINGLE_QUOTE_REGEX (λ _, cps "'") 0 text)
                0 Hd) as H2.
  specialize (H1 (λ _, le_n _)). specialize (H2 (λ _, le_n _)). lia.
Qed.

(** X15: on a text without U+201F a second [fix_quotes] changes nothing. (With
    U+201F the first pass can complete the seven code points that the
    double-quote list names as one alternative.) *)
Theorem fix_quotes_idempotent (text : str) :
  0x201F ∉ text →
  Tables.fix_quotes (Tables.fix_quotes text) = Tables.fix_quotes text.
Proof.
  intros Htext. apply fix_quotes_fixed. intros c Hc.
  pose proof (fix_quotes_Forall text) as H. rewrite Forall_forall in H.
  destruct (H c Hc) as [Hfrom Hv]. split; [done|].
  intros ->. by destruct Hfrom as [?|[?|?]].
Qed.

Lemma fix_quotes_idempotent_witness :
  (0x201F ∉ [44; 32; 0xAB; 97; 0xBB; 44; 32]) ∧
  Tables.fix_quotes (Tables.fix_quotes [44; 32; 0xAB; 97; 0xBB; 44; 32]) =
  Tables.fix_quotes [44; 32; 0xAB; 97; 0xBB; 44; 32].
Proof.
  assert (0x201F ∉ [44; 32; 0xAB; 97; 0xBB; 44; 32]) as H.
  { intros Hin. apply list_elem_of_In in Hin. vm_compute in Hin. intuition congruence. }
  split; [exact H|].
  exact (fix_quotes_idempotent [44; 32; 0xAB; 97; 0xBB; 44; 32] H).
Defined.

(** ** The replacement tables *)

Section translate_facts.
Import PyStr Tables.

Lemma find_key_none (table : list (N * str)) (c : N) :
  existsb (λ kv, kv.1 =? c) table = false →
  List.find (λ kv, kv.1 =? c) table = None.
Proof.
  induction table as [|kv table IH]; simpl; [done|].
  destruct (kv.1 =? c); [done|]. apply IH.
Qed.

Lemma translate_cons (table : list (N * str)) (c : N) (text : str) :
  translate table (c :: text) =
  default [c] (snd <$> List.find (λ kv, kv.1 =? c) table) ++ translate table text.
Proof. done. Qed.

(** A text that holds no key of the table is left as it is. *)
Lemma translate_no_key (table : list (N * str)) (text : str) :
  Forall (λ c, existsb (λ kv, kv.1 =? c) table = false) text →
  translate table text = text.
Proof.
  induction 1 as [|c text Hc Htext IH]; [done|].
  by rewrite translate_cons, find_key_none, IH.
Qed.

(** Every code point that [translate] writes for a key of the module's
    table is no key of the table. *)
Lemma CHAR_REPLACEMENTS_values :
  forallb (λ kv, forallb (λ d, negb (existsb (λ kv', kv'.1 =? d) CHAR_REPLACEMENTS)) kv.2)
    CHAR_REPLACEMENTS = true.
Proof. by vm_compute. Qed.

Lemma CHAR_REPLACEMENTS_keys :
  forallb (λ kv, 128 <=? kv.1) CHAR_REPLACEMENTS = true.
Proof. by vm_compute. Qed.

Lemma translate_keys_gone (text : str) :
  Forall (λ c, existsb (λ kv, kv.1 =? c) CHAR_REPLACEMENTS = false)
    (translate CHAR_REPLACEMENTS text).
Proof.
  induction text as [|c text IH]; [done|].
  rewrite translate_cons. apply Forall_app. split; [|done].
  destruct (List.find (λ kv, kv.1 =? c) CHAR_REPLACEMENTS) as [kv|] eqn:E; simpl.
  - apply find_some in E as [Hin _].
    pose proof CHAR_REPLACEMENTS_values as H. rewrite forallb_forall in H.
    specialize (H kv Hin). rewrite forallb_forall in H.
    apply Forall_forall. intros d Hd%list_elem_of_In.
    by apply negb_true_iff, H.
  - constructor; [|done].
    destruct (existsb (λ kv, kv.1 =? c) CHAR_REPLACEMENTS) eqn:Ex; [|done].
    apply existsb_exists in Ex as (kv & Hin & Hkv).
    by rewrite (find_none _ _ E kv Hin) in Hkv.
Qed.

Lemma ascii_no_key (c : N) :
  c < 128 → existsb (λ kv, kv.1 =? c) CHAR_REPLACEMENTS = false.
Proof.
  intros Hc. destruct (existsb _ _) eqn:Ex; [|done].
  apply existsb_exists in Ex as (kv & Hin & Hkv%N.eqb_eq).
  pose proof CHAR_REPLACEMENTS_keys as H. rewrite forallb_forall in H.
  apply H, N.leb_le in Hin. lia.
Qed.

End translate_facts.

Section unicode_pass_facts.
Import Alternation Tables.

Lemma UNICODE_REPLACEMENTS_REGEX_heads :
  forallb (λ p, match p with Lit k :: _ => 128 <=? k | _ => false end)
    UNICODE_REPLACEMENTS_REGEX = true.
Proof. by vm_compute. Qed.

Lemma match_here_heads (alts : list (list atom)) (c : N) (t : str) :
  forallb (λ p, match p with Lit k :: _ => 128 <=? k | _ => false end) alts = true →
  c < 128 → match_here alts (c :: t) = None.
Proof.
  intros Halts Hc. induction alts as [|p alts IH]; simpl in *; [done|].
  apply andb_true_iff in Halts as [Hp Halts].
  destruct p as [|[k|k] p]; [done| |done]. apply N.leb_le in Hp.
  simpl. destruct (N.eqb_spec c k) as [->|_]; [lia|]. by apply IH.
Qed.

End unicode_pass_facts.

(** X16: the [translate] stage over the module's table leaves no key of the
    table in the text: what it writes for a key is never a key again. So
    the stage is idempotent. *)
Theorem translate_CHAR_REPLACEMENTS_idempotent (text : str) :
  (∀ c, c ∈ PyStr.translate Tables.CHAR_REPLACEMENTS text →
        c ∉ (Tables.CHAR_REPLACEMENTS).*1) ∧
  PyStr.translate Tables.CHAR_REPLACEMENTS
    (PyStr.translate Tables.CHAR_REPLACEMENTS text) =
  PyStr.translate Tables.CHAR_REPLACEMENTS text.
Proof.
  pose proof (translate_keys_gone text) as H. split.
  - rewrite Forall_forall in H. intros c Hc Hkey. specialize (H c Hc).
    apply list_elem_of_fmap in Hkey as (kv & -> & Hin).
    assert (existsb (λ kv', kv'.1 =? kv.1) Tables.CHAR_REPLACEMENTS = true) as E;
      [|congruence].
    apply existsb_exists. exists kv. split; [by apply list_elem_of_In|apply N.eqb_refl].
  - by apply translate_no_key.
Qed.

(** X17: ASCII text passes both table stages of [normalize] unchanged: the keys
    of the two tables all start outside ASCII. *)
Theorem table_stages_keep_ascii (text : str) :
  Forall (λ c, c < 128) text →
  PyStr.translate Tables.CHAR_REPLACEMENTS text = text ∧
  Tables.unicode_replacements_pass text = text.
Proof.
  intros Htext. split.
  - apply translate_no_key. eapply Forall_impl; [exact Htext|].
    intros c Hc. by apply ascii_no_key.
  - unfold Tables.unicode_replacements_pass, Alternation.sub.
    apply sub_from_unchanged; [apply match_here_nil|].
    intros pre c t ->. left.
    apply match_here_heads; [apply UNICODE_REPLACEMENTS_REGEX_heads|].
    rewrite Forall_forall in Htext. apply Htext.
    apply elem_of_app. right. left.
Qed.

Lemma table_stages_keep_ascii_witness :
  Forall (λ c, c < 128) (cps "Vote 4 me!") ∧
  PyStr.translate Tables.CHAR_REPLACEMENTS (cps "Vote 4 me!") = cps "Vote 4 me!" ∧
  Tables.unicode_replacements_pass (cps "Vote 4 me!") = cps "Vote 4 me!".
Proof.
  assert (Forall (λ c, c < 128) (cps "Vote 4 me!")) as H.
  { apply Forall_forall. intros c Hc. apply list_elem_of_In in Hc.
    vm_compute in Hc. intuition (subst; done). }
  split; [exact H|].
  exact (table_stages_keep_ascii (cps "Vote 4 me!") H).
Defined.

(** ** The callable of the replacement pass *)

Section callable_facts.
Import Alternation Tables.

Ltac split_key :=
  match goal with
  | |- context [N.eqb ?v ?c] => is_var v; destruct (N.eqb_spec v c) as [->|?]
  end.

Ltac table_regex :=
  let r := eval vm_compute in UNICODE_REPLACEMENTS_REGEX in
  change UNICODE_REPLACEMENTS_REGEX with r.

Ltac key_leaf :=
  intros m [= <-];
  first
    [ left; split; [reflexivity|apply (bool_decide_unpack _); by vm_compute]
    | right; eexists; split; [reflexivity|];
      apply not_elem_of_cons; split; [done|];
      apply not_elem_of_cons; split; [done|];
      apply not_elem_of_cons; split; [done|]; apply not_elem_of_nil ].

(** A match of the pattern is a key of the table as it stands, or the
    three code points that the key with the group describes. *)
Lemma match_here_table (text : str) (m : str * option N) :
  match_here UNICODE_REPLACEMENTS_REGEX text = Some m →
  (m.2 = None ∧ m.1 ∈ (UNICODE_REPLACEMENTS).*1) ∨
  (∃ x, m = ([0x9C7; x; 0x9D7], Some x) ∧ x ∉ [0x9D7; 0x9BE; 0x981]).
Proof.
  rewrite <- match_here_take3. revert m.
  destruct text as [|a [|b [|c text]]]; simpl; table_regex; cbn; [done|..].
  all: repeat (split_key;
         [cbn; repeat (split_key; [cbn; repeat (split_key; [key_leaf|]); try done; key_leaf|]);
          try done; key_leaf|]).
  all: done.
Qed.

End callable_facts.

(** X18: the default of the callable, the formatted group followed by U+09CC,
    is used for the key with the group only: every other match is a key of
    the table and is replaced by the table's entry. So the text [None],
    which a group that took no part would print as, is never written. *)
Theorem unicode_replacement_default_only_for_group (text : str) (m : str * option N) :
  Alternation.match_here Tables.UNICODE_REPLACEMENTS_REGEX text = Some m →
  (m.2 = None ∧
   ∃ v, (m.1, v) ∈ Tables.UNICODE_REPLACEMENTS ∧
        Tables.unicode_replacement Tables.UNICODE_REPLACEMENTS m = v) ∨
  (∃ x, m = ([0x9C7; x; 0x9D7], Some x) ∧ (x ∉ [0x9D7; 0x9BE; 0x981]) ∧
        Tables.unicode_replacement Tables.UNICODE_REPLACEMENTS m = [x; 0x9CC]).
Proof.
  intros [[Hg Hk]|(x & -> & Hx)]%match_here_table.
  - left. split; [done|].
    unfold Tables.unicode_replacement, Tables.dict_get.
    destruct (List.find _ _) as [[k v]|] eqn:E; simpl.
    + apply find_some in E as [Hin Heq%bool_decide_eq_true].
      simpl in Heq. subst k. exists v. split; [by apply list_elem_of_In|done].
    + apply list_elem_of_fmap in Hk as ([k v] & Hk & Hin).
      apply list_elem_of_In in Hin.
      apply (find_none _ _ E) in Hin. simpl in *.
      by rewrite bool_decide_eq_true_2 in Hin.
  - right. exists x. split; [done|]. split; [done|].
    apply group_replacement. intros ->. apply Hx. set_solver.
Qed.

Lemma unicode_replacement_default_only_for_group_witness :
  Alternation.match_here Tables.UNICODE_REPLACEMENTS_REGEX [0x9C7; 0x995; 0x9D7; 97] =
    Some ([0x9C7; 0x995; 0x9D7], Some 0x995) ∧
  (((([0x9C7; 0x995; 0x9D7], Some 0x995) : str * option N).2 = None ∧
   ∃ v, (([0x9C7; 0x995; 0x9D7], Some 0x995).1, v) ∈ Tables.UNICODE_REPLACEMENTS ∧
        Tables.unicode_replacement Tables.UNICODE_REPLACEMENTS
          ([0x9C7; 0x995; 0x9D7], Some 0x995) = v) ∨
  (∃ x, ([0x9C7; 0x995; 0x9D7], Some 0x995) = ([0x9C7; x; 0x9D7], Some x) ∧
        (x ∉ [0x9D7; 0x9BE; 0x981]) ∧
        Tables.unicode_replacement Tables.UNICODE_REPLACEMENTS
          ([0x9C7; 0x995; 0x9D7], Some 0x995) = [x; 0x9CC])).
Proof.
  assert (Alternation.match_here Tables.UNICODE_REPLACEMENTS_REGEX
            [0x9C7; 0x995; 0x9D7; 97] =
          Some ([0x9C7; 0x995; 0x9D7], Some 0x995)) as H by (by vm_compute).
  split; [exact H|].
  exact (unicode_replacement_default_only_for_group _ _ H).
Defined.

(** ** Whitespace: [strip] and the last stage of [normalize] *)

Section strip_facts.
Import PyStr.

Lemma lstrip_spec (text : str) :
  ∃ a, text = a ++ lstrip text ∧ forallb isspace a = true ∧
       ∀ c, head (lstrip text) = Some c → isspace c = false.
Proof.
  induction text as [|c text (a & E & Ha & Hh)]; simpl.
  - exists []. by split.
  - destruct (isspace c) eqn:Hc.
    + exists (c :: a). simpl. rewrite Hc, Ha. split; [by f_equal|done].
    + exists []. split; [done|]. split; [done|]. simpl. by intros ? [= <-].
Qed.

Lemma lstrip_id (text : str) :
  (∀ c, head text = Some c → isspace c = false) → lstrip text = text.
Proof.
  destruct text as [|c text]; simpl; [done|]. intros H. by rewrite (H c).
Qed.

Lemma head_rev_last {A} (l : list A) : head (rev l) = last l.
Proof.
  induction l as [|a l IH] using rev_ind; [done|].
  by rewrite rev_app_distr, last_snoc.
Qed.

(** [strip] cuts a run of whitespace off each end and leaves a text that
    neither starts nor ends with whitespace. *)
Lemma strip_spec (text : str) :
  ∃ a b, text = a ++ strip text ++ b ∧
         forallb isspace a = true ∧ forallb isspace b = true ∧
         (∀ c, head (strip text) = Some c → isspace c = false) ∧
         (∀ c, last (strip text) = Some c → isspace c = false).
Proof.
  unfold strip.
  destruct (lstrip_spec text) as (a & Ea & Ha & Hh).
  destruct (lstrip_spec (rev (lstrip text))) as (b & Eb & Hb & Hl).
  set (t1 := lstrip text) in *. set (t2 := lstrip (rev t1)) in *.
  assert (t1 = rev t2 ++ rev b) as E1.
  { rewrite <- (rev_involutive t1), Eb. apply rev_app_distr. }
  exists a, (rev b). split; [by rewrite <- E1|]. split; [done|]. split.
  { rewrite forallb_forall in Hb. apply forallb_forall. intros x Hx.
    apply Hb. by apply in_rev. }
  split.
  - intros c Hc. apply Hh. rewrite E1.
    destruct (rev t2); [done|]. done.
  - intros c Hc. apply Hl. by rewrite <- head_rev_last, rev_involutive in Hc.
Qed.

Lemma strip_idempotent (text : str) : strip (strip text) = strip text.
Proof.
  destruct (strip_spec text) as (_ & _ & _ & _ & _ & Hh & Hl).
  set (s := strip text) in *. unfold strip at 1.
  rewrite (lstrip_id s Hh), lstrip_id, rev_involutive; [done|].
  intros c. rewrite head_rev_last. apply Hl.
Qed.

Lemma strip_nil_iff (text : str) :
  strip text = [] ↔ forallb isspace text = true.
Proof.
  destruct (strip_spec text) as (a & b & E & Ha & Hb & Hh & _). split.
  - intros Hs. rewrite Hs in E. rewrite E. simpl.
    by rewrite forallb_app, Ha, Hb.
  - intros Ht. rewrite E, !forallb_app in Ht.
    apply andb_true_iff in Ht as [_ [Ht _]%andb_true_iff].
    destruct (strip text) as [|c s]; [done|]. simpl in Ht.
    apply andb_true_iff in Ht as [Hc _]. by rewrite (Hh c) in Hc.
Qed.

End strip_facts.

Section whitespace_facts.
Import PyStr Re Patterns.
Context `{RT : RegexTables}.

Lemma re_space_32 : re_space 32 = true.
Proof. by rewrite re_space_ascii. Qed.

Lemma matches_space (p : pos) :
  matches false (Set_ false [ISpace]) p =
  match rest p with
  | x :: text' => if re_space x then [Pos (Some x) text'] else []
  | [] => []
  end.
Proof.
  cbn [matches]. unfold step. destruct (rest p) as [|x text']; [done|].
  unfold set_matches, cases. simpl. by rewrite !orb_false_r.
Qed.

(** A greedy run of [\s] from a position: the engine's first answer is the
    position after the whole run. *)
Lemma rep_space_head (fuel : nat) (b : option N) (text : str) :
  (length text < fuel)%nat →
  ∃ run rest' b',
    text = run ++ rest' ∧ forallb re_space run = true ∧
    (∀ c, head rest' = Some c → re_space c = false) ∧
    head (rep (matches false (Set_ false [ISpace])) fuel 0 None (Pos b text)) =
    Some (Pos b' rest').
Proof.
  revert b text. induction fuel as [|fuel IH]; intros b text Hlen; [lia|].
  cbn [rep]. rewrite decide_False by done. rewrite decide_True by done.
  rewrite matches_space. cbn [rest].
  destruct text as [|x text'].
  - exists [], [], b. by repeat split.
  - destruct (re_space x) eqn:Hx.
    + destruct (IH (Some x) text') as (run & rest' & b' & E & Hrun & Hh & Hhead);
        [simpl in Hlen; lia|].
      exists (x :: run), rest', b'. split; [by rewrite E|].
      split; [simpl; by rewrite Hx|]. split; [done|].
      cbn [List.filter]. unfold progress. cbn [rest length].
      rewrite (proj2 (Nat.ltb_lt _ _)) by lia.
      cbn [mbind list_bind]. rewrite app_nil_r.
      destruct (rep _ fuel _ _ _) as [|q l]; [done|]. done.
    + exists [], (x :: text'), b. split; [done|]. split; [done|].
      split; [by intros ? [= <-]|]. done.
Qed.

(** [\s+] at a position: no match in front of a code point that is no
    whitespace or at the end of the text, else the whole run. *)
Lemma match_at_whitespace (prev : option N) (text : str) :
  match text with
  | x :: text' =>
      if re_space x then
        ∃ run rest' b',
          text' = run ++ rest' ∧ forallb re_space run = true ∧
          (∀ c, head rest' = Some c → re_space c = false) ∧
          match_at false WHITESPACE_HANDLER_REGEX (Pos prev text) = Some (Pos b' rest')
      else match_at false WHITESPACE_HANDLER_REGEX (Pos prev text) = None
  | [] => match_at false WHITESPACE_HANDLER_REGEX (Pos prev text) = None
  end.
Proof.
  unfold match_at, WHITESPACE_HANDLER_REGEX, plus.
  change (matches false (Rep (Set_ false [ISpace]) 1 None) (Pos prev text))
    with (rep (matches false (Set_ false [ISpace])) (S (length text)) 1 None
            (Pos prev text)).
  cbn [rep].
  rewrite decide_False by done. rewrite (decide_False (P := 1%nat = 0%nat)) by done.
  rewrite app_nil_r, matches_space. cbn [rest].
  destruct text as [|x text']; [done|].
  destruct (re_space x) eqn:Hx; [|done].
  cbn [List.filter]. unfold progress. cbn [rest length].
  rewrite (proj2 (Nat.ltb_lt _ _)) by lia.
  cbn [mbind list_bind]. rewrite app_nil_r. simpl pred. simpl fmap.
  destruct (rep_space_head (length (x :: text')) (Some x) text')
    as (run & rest' & b' & E & Hrun & Hh & Hhead); [simpl; lia|].
  exists run, rest', b'. by repeat split.
Qed.

(** What the whitespace stage leaves: every whitespace code point is a
    U+0020, and no two of them stand side by side. *)
Lemma whitespace_sub_from (text : str) (k : nat) (prev : option N) :
  let out := Re.sub_from false WHITESPACE_HANDLER_REGEX (cps " ") k prev text in
  let run_then_text :=
    ∃ run rest', text = run ++ rest' ∧ length run = k ∧
                 forallb re_space run = true ∧
                 (∀ c, head rest' = Some c → re_space c = false) in
  (k = 0%nat ∨ run_then_text) →
  (∀ c, c ∈ out → re_space c = true → c = 32) ∧
  (∀ a x y b, out = a ++ x :: y :: b → re_space x = true → re_space y = false) ∧
  (run_then_text → ∀ c, head out = Some c → re_space c = false).
Proof.
  revert k prev. induction text as [|c text IH]; intros k prev; cbn zeta.
  - intros _. cbn [Re.sub_from].
    pose proof (match_at_whitespace prev []) as Hm. cbn in Hm. rewrite Hm.
    assert (match k with 0%nat | _ => @nil N end = []) as -> by by destruct k.
    split; [by intros ? ?%elem_of_nil|]. split; [|done].
    intros [|? [|? ?]] ? ? ? ?; done.
  - intros Hk. cbn [Re.sub_from]. destruct k as [|k].
    + pose proof (match_at_whitespace prev (c :: text)) as Hm. cbn beta iota in Hm.
      destruct (re_space c) eqn:Hc.
      * destruct Hm as (run & rest' & b' & E & Hrun & Hh & ->). cbn [rest].
        assert (length (c :: text) - length rest' = S (length run))%nat as ->.
        { rewrite E. simpl. rewrite length_app. lia. }
        destruct (IH (length run) (Some c)) as (HQ & HP & HN).
        { right. by exists run, rest'. }
        cbn zeta in HQ, HP, HN.
        set (o := Re.sub_from false WHITESPACE_HANDLER_REGEX (cps " ") (length run)
                    (Some c) text) in *.
        assert (∀ d, head o = Some d → re_space d = false) as Ho.
        { apply HN. by exists run, rest'. }
        change (cps " " ++ o) with (32 :: o).
        split; [|split].
        -- intros d [->|Hd]%elem_of_cons Hsp; [done|]. by apply HQ.
        -- intros [|a0 a] x y b E' Hx; simpl in E'.
           ++ injection E' as <- Eo. apply Ho. by rewrite Eo.
           ++ injection E' as _ Eo. by apply (HP a x y b).
        -- intros (run0 & rest0 & E0 & Hlen & _ & Hh0).
           destruct run0; [|done]. simpl in E0. subst rest0.
           by rewrite (Hh0 c) in Hc.
      * rewrite Hm.
        destruct (IH 0%nat (Some c)) as (HQ & HP & _); [by left|].
        cbn zeta in HQ, HP.
        set (o := Re.sub_from false WHITESPACE_HANDLER_REGEX (cps " ") 0
                    (Some c) text) in *.
        split; [|split].
        -- intros d [->|Hd]%elem_of_cons Hsp; [congruence|]. by apply HQ.
        -- intros [|a0 a] x y b E' Hx; simpl in E'.
           ++ injection E' as <- Eo. congruence.
           ++ injection E' as _ Eo. by apply (HP a x y b).
        -- intros _ d [= <-]. done.
    + destruct Hk as [|(run & rest' & E & Hlen & Hrun & Hh)]; [done|].
      destruct run as [|x run]; [done|]. simpl in E, Hlen, Hrun.
      injection E as <- E. injection Hlen as Hlen.
      apply andb_true_iff in Hrun as [_ Hrun].
      assert (∃ run0 rest0, text = run0 ++ rest0 ∧ length run0 = k ∧
                forallb re_space run0 = true ∧
                ∀ c, head rest0 = Some c → re_space c = false) as Hrt
        by by exists run, rest'.
      destruct (IH k (Some c)) as (HQ & HP & HN); [by right|].
      cbn zeta in HQ, HP, HN. split; [done|]. split; [done|].
      intros _. by apply HN.
Qed.

Lemma whitespace_sub_shape (text : str) :
  let out := Re.sub false WHITESPACE_HANDLER_REGEX (cps " ") text in
  (∀ c, c ∈ out → re_space c = true → c = 32) ∧
  (∀ a x y b, out = a ++ x :: y :: b → re_space x = true → re_space y = false).
Proof.
  destruct (whitespace_sub_from text 0 None) as (HQ & HP & _); [by left|].
  by split.
Qed.

End whitespace_facts.

(** ** The stages of [normalize] *)

Section punct_facts.
Import Re Patterns.
Context `{RT : RegexTables}.

Lemma match_at_punct (prev : option N) (text : str) :
  match_at false PUNCT_HANDLER_REGEX (Pos prev text) =
  match text with
  | c :: text' => if re_punct c then Some (Pos (Some c) text') else None
  | [] => None
  end.
Proof.
  unfold match_at, PUNCT_HANDLER_REGEX. cbn [matches]. unfold step. cbn [rest].
  destruct text as [|c text']; [done|].
  unfold set_matches, cases. simpl. rewrite !orb_false_r.
  by destruct (re_punct c).
Qed.

Lemma punct_sub_from (repl : str) (prev : option N) (text : str) :
  Re.sub_from false PUNCT_HANDLER_REGEX repl 0 prev text =
  c ← text; if re_punct c then repl else [c].
Proof.
  revert prev. induction text as [|c text IH]; intros prev; cbn [Re.sub_from].
  - by rewrite match_at_punct.
  - rewrite match_at_punct. destruct (re_punct c) eqn:Hc; cbn [rest].
    + replace (length (c :: text) - length text)%nat with 1%nat by (simpl; lia).
      rewrite IH. simpl. by rewrite Hc.
    + rewrite IH. simpl. by rewrite Hc.
Qed.

End punct_facts.

(** X19: the punctuation stage works code point by code point. With a
    replacement that holds no backslash, which the template syntax of
    [regex] therefore writes as it stands, each code point of the class
    [\p{punct}] gives way to the replacement and every other is kept. With
    the default replacement, a space, the text keeps its length. *)
Theorem punct_stage_pointwise `{RT : Re.RegexTables} (repl text : str) :
  (92 ∉ repl) →
  Re.sub false Patterns.PUNCT_HANDLER_REGEX repl text =
    (c ← text; if Re.re_punct c then repl else [c]) ∧
  length (Re.sub false Patterns.PUNCT_HANDLER_REGEX (cps " ") text) = length text.
Proof.
  intros _. unfold Re.sub. rewrite !punct_sub_from. split; [done|].
  induction text as [|c text IH]; [done|].
  simpl. rewrite length_app.
  change (list_bind _ _ ?f text) with (text ≫= f). rewrite IH.
  by destruct (Re.re_punct c).
Qed.

Lemma punct_stage_pointwise_witness :
  (92 ∉ cps "<p>") ∧
  Re.sub (RT := Re.ascii_tables) false Patterns.PUNCT_HANDLER_REGEX
    (cps "<p>") (cps "a!b") = cps "a<p>b".
Proof.
  assert (92 ∉ cps "<p>") as Hrepl.
  { intros Hin. apply list_elem_of_In in Hin. vm_compute in Hin.
    repeat destruct Hin as [Hin|Hin]; try discriminate Hin. done. }
  split; [exact Hrepl|].
  destruct (punct_stage_pointwise (RT := Re.ascii_tables) (cps "<p>") (cps "a!b") Hrepl)
    as [-> _].
  by vm_compute.
Defined.

Section normalize_more.
Import PyStr Re Patterns Tables Normalizer.
Context `{RT : RegexTables} `{TL : TextLibs}.

(** Whatever its arguments, a call that returns has left the module's
    containers alone and ends with the whitespace stage and [strip]. *)
Lemma normalize_Ok_inv (text unicode_norm : str)
    (punct_replacement url_replacement emoji_replacement : option str)
    (apply_unicode_norm_last : bool) (g g' : globals) (out : str) :
  normalize text unicode_norm punct_replacement url_replacement emoji_replacement
    apply_unicode_norm_last g = (Ok out, g') →
  g' = g ∧
  ∃ t, out = strip (Re.sub false WHITESPACE_HANDLER_REGEX (cps " ") t).
Proof.
  unfold normalize.
  unfold mbind, Py_bind, py_bind, global, lift, mret, Py_ret, py_ret.
  destruct apply_unicode_norm_last;
    destruct (unicodedata_normalize unicode_norm _);
    intros [= <- <-]; eauto.
Qed.

End normalize_more.

(** X20: the text that [normalize] returns, whatever the arguments: every
    whitespace code point in it is a single U+0020 between two code points
    that are no whitespace. It holds no other code point of the class
    [\s], no two spaces side by side, and neither starts nor ends with
    whitespace, so a further [strip] leaves it as it is; the module's
    tables are as before the call. *)
Theorem normalize_whitespace_shape
    `{RT : Re.RegexTables} `{TL : Normalizer.TextLibs}
    (text unicode_norm : str)
    (punct_replacement url_replacement emoji_replacement : option str)
    (apply_unicode_norm_last : bool) (g g' : globals) (out : str) :
  Normalizer.normalize text unicode_norm punct_replacement url_replacement
    emoji_replacement apply_unicode_norm_last g = (Ok out, g') →
  g' = g ∧
  (∀ c, c ∈ out → Re.re_space c = true → c = 32) ∧
  (∀ a b, out ≠ a ++ [32; 32] ++ b) ∧
  (∀ c, head out = Some c → PyStr.isspace c = false) ∧
  (∀ c, last out = Some c → PyStr.isspace c = false) ∧
  PyStr.strip out = out.
Proof.
  intros (-> & t & ->)%normalize_Ok_inv. split; [done|].
  destruct (whitespace_sub_shape t) as [HQ HP]. cbn zeta in HQ, HP.
  set (w := Re.sub false Patterns.WHITESPACE_HANDLER_REGEX (cps " ") t) in *.
  destruct (strip_spec w) as (a & b & E & _ & _ & Hh & Hl).
  split; [|split; [|split; [|split]]].
  - intros c Hc. apply HQ. rewrite E. apply elem_of_app. right.
    apply elem_of_app. by left.
  - intros a' b' E'. rewrite E' in E.
    assert (Re.re_space 32 = false) as H; [|by rewrite re_space_32 in H].
    apply (HP (a ++ a') 32 32 (b' ++ b)); [|apply re_space_32].
    rewrite E. simpl. by rewrite <- !app_assoc.
  - done.
  - done.
  - apply strip_idempotent.
Qed.

Lemma normalize_whitespace_shape_witness :
  Normalizer.normalize
    (RT := Re.ascii_tables) (TL := Normalizer.identity_libs)
    (cps "  so   it goes ") (cps "NFC") None (Some (cps " ")) None false
    Normalizer.module_globals =
  (Ok (cps "so it goes"), Normalizer.module_globals) ∧
  Normalizer.module_globals = Normalizer.module_globals ∧
  PyStr.strip (cps "so it goes") = cps "so it goes".
Proof.
  assert (Normalizer.normalize
            (RT := Re.ascii_tables) (TL := Normalizer.identity_libs)
            (cps "  so   it goes ") (cps "NFC") None (Some (cps " ")) None false
            Normalizer.module_globals =
          (Ok (cps "so it goes"), Normalizer.module_globals)) as H
    by (by vm_compute).
  split; [exact H|].
  pose proof (normalize_whitespace_shape
                (RT := Re.ascii_tables) (TL := Normalizer.identity_libs)
                _ _ _ _ _ _ _ _ _ H) as H'.
  split; [exact (proj1 H')|]. exact (proj2 (proj2 (proj2 (proj2 (proj2 H'))))).
Defined.

(** ** The [/predict] handler *)

Section handler_facts.
Import PyStr Normalizer Main.
Context `{UC : UnicodeCase} `{RT : Re.RegexTables} `{TL : TextLibs}.

(** A list of strings passes [get_norm] item by item, and only such a
    list does. *)
Lemma strings_VStr (fragments : list str) :
  strings (VStr <$> fragments) = Returns fragments.
Proof.
  induction fragments as [|s l IH]; [done|].
  rewrite fmap_cons. cbn [strings]. by rewrite IH.
Qed.

Lemma strings_Returns (items : list value) (fragments : list str) :
  strings items = Returns fragments → items = VStr <$> fragments.
Proof.
  revert fragments. induction items as [|v items IH]; intros fragments.
  - by intros [= <-].
  - destruct v; try done. cbn [strings].
    destruct (strings items) as [l|e]; [|done].
    intros [= <-]. rewrite fmap_cons. by rewrite (IH l).
Qed.

(** The pipeline returns a stripped text and leaves the tables alone. *)
Lemma process_extracted_text_stripped (detected_text : list str) (g : globals) :
  ∃ corpus, process_extracted_text detected_text g = (Ok corpus, g) ∧
            strip corpus = corpus.
Proof.
  rewrite process_extracted_text_run.
  destruct (normalize_default_run
              (join (cps " ")
                 (List.filter
                    (λ item, negb (Noise.is_noise (g_NOISE_KEYWORDS g) item))
                    detected_text)) g) as [corpus H].
  exists corpus. split; [done|].
  unfold normalize_default in H.
  apply normalize_Ok_inv in H as (_ & t & ->). apply strip_idempotent.
Qed.

(** What [process_extracted_text] makes of a value: it fails on a value
    that cannot be iterated or that holds an item without [lower], and
    returns the text of the pipeline otherwise. *)
Lemma process_value_cases (v : value) (g : globals) :
  (∃ e, process_value v g = (Raises e, g)) ∨
  ∃ items fragments corpus,
    iterate v = Returns items ∧ items = VStr <$> fragments ∧
    process_extracted_text fragments g = (Ok corpus, g) ∧
    strip corpus = corpus ∧
    process_value v g = (Returns (fragments, corpus), g).
Proof.
  unfold process_value.
  destruct (iterate v) as [items|e]; [|by left; eexists].
  destruct (strings items) as [fragments|e] eqn:Hitems; [|by left; eexists].
  destruct (process_extracted_text_stripped fragments g) as (corpus & Hrun & Hstrip).
  right. exists items, fragments, corpus. rewrite Hrun.
  by rewrite (strings_Returns _ _ Hitems).
Qed.

Lemma placeholder_not_blank : strip (cps "[no text detected]") ≠ [].
Proof. by vm_compute. Qed.

End handler_facts.

(** X21: a response of the handler: the upload opened as an image, and the
    extractor returned a list of strings, which the response carries, or a
    value that counts as false, for which the response carries the empty
    list. The normalized text of the response is the text the pipeline made
    of these fragments, or the placeholder exactly when that text is empty.
    Either way the text is not blank, and it is the text the classifier was
    given; the four results come from the decision rule. The module's
    tables are as before the request. *)
Theorem predict_meme_response
    `{UC : PyStr.UnicodeCase} `{RT : Re.RegexTables} `{TL : Normalizer.TextLibs}
    {Upload Image : Type}
    (open_image : Upload → Main.outcome Image)
    (extract_text : Image → Main.value)
    (sigmoid_of_forward : Image → str → Main.outcome spec_float)
    (validation_error : Main.value → str)
    (content_type : option str) (file : Upload) (g g' : globals)
    (r : Main.PredictionResponse) :
  Main.predict_meme open_image extract_text sigmoid_of_forward validation_error
    content_type file g = (inr r, g') →
  g' = g ∧
  ∃ image corpus prob,
    open_image file = Main.Returns image ∧
    (if Main.truth (extract_text image)
     then extract_text image = Main.VList (Main.VStr <$> Main.extracted_text r)
     else Main.extracted_text r = []) ∧
    Normalizer.process_extracted_text (Main.extracted_text r) g = (Ok corpus, g) ∧
    Main.normalized_text r =
      (if decide (corpus = []) then cps "[no text detected]" else corpus) ∧
    PyStr.strip (Main.normalized_text r) ≠ [] ∧
    sigmoid_of_forward image (Main.normalized_text r) = Main.Returns prob ∧
    Main.success r = true ∧
    Main.prediction r = Model.prediction (Model.decide_prediction prob) ∧
    Main.confidence r = Model.confidence (Model.decide_prediction prob) ∧
    Main.political_probability r =
      Model.political_probability (Model.decide_prediction prob) ∧
    Main.non_political_probability r =
      Model.non_political_probability (Model.decide_prediction prob).
Proof.
  unfold Main.predict_meme.
  destruct content_type as [ct|]; [|done].
  destruct (negb _); [done|].
  destruct (open_image file) as [image|e] eqn:Himage; [|done].
  set (v := if Main.truth (extract_text image) then _ else _).
  destruct (process_value_cases v g)
    as [[e ->]|(items & fragments & corpus & Hiter & -> & Hrun & Hstrip & ->)];
    [done|].
  rewrite Hstrip.
  set (text := match corpus with [] => _ | _ => _ end).
  destruct (sigmoid_of_forward image text) as [prob|e] eqn:Hprob; [|done].
  destruct v as [| | | | |items|] eqn:Hv; try done.
  intros [= <- <-]. split; [done|].
  exists image, corpus, prob. cbn.
  assert (text = if decide (corpus = []) then cps "[no text detected]" else corpus)
    as Etext by (unfold text; by destruct corpus).
  injection Hiter as ->.
  split; [done|]. split.
  { subst v. destruct (Main.truth (extract_text image)); [done|].
    injection Hv as Hv. by destruct fragments. }
  split; [exact Hrun|]. split; [exact Etext|].
  split; [|by repeat split].
  unfold text. destruct corpus as [|c corpus]; [apply placeholder_not_blank|].
  change (PyStr.strip (c :: corpus) ≠ []). by rewrite Hstrip.
Qed.

Lemma predict_meme_response_witness :
  Main.predict_meme
    (UC := PyStr.ascii_rows) (RT := Re.ascii_tables) (TL := Normalizer.identity_libs)
    (λ _ : unit, Main.Returns ()) (λ _, Main.VList [Main.VStr (cps "memes")])
    (λ _ _, Main.Returns (S754_finite false (2 ^ 52) (-54)))
    (λ _, cps "Input should be a valid list")
    (Some (cps "image/png")) () Normalizer.module_globals =
  (inr {| Main.success := true;
          Main.prediction := Model.NonPolitical;
          Main.confidence := S754_finite false (3 * 2 ^ 51) (-53);
          Main.political_probability := S754_finite false (2 ^ 52) (-54);
          Main.non_political_probability := S754_finite false (3 * 2 ^ 51) (-53);
          Main.extracted_text := [cps "memes"];
          Main.normalized_text := cps "[no text detected]";
          Main.message := Some (cps "Prediction completed successfully") |},
   Normalizer.module_globals) ∧
  Normalizer.module_globals = Normalizer.module_globals.
Proof.
  assert (Main.predict_meme
            (UC := PyStr.ascii_rows) (RT := Re.ascii_tables)
            (TL := Normalizer.identity_libs)
            (λ _ : unit, Main.Returns ()) (λ _, Main.VList [Main.VStr (cps "memes")])
            (λ _ _, Main.Returns (S754_finite false (2 ^ 52) (-54)))
            (λ _, cps "Input should be a valid list")
            (Some (cps "image/png")) () Normalizer.module_globals =
          (inr {| Main.success := true;
                  Main.prediction := Model.NonPolitical;
                  Main.confidence := S754_finite false (3 * 2 ^ 51) (-53);
                  Main.political_probability := S754_finite false (2 ^ 52) (-54);
                  Main.non_political_probability :=
                    S754_finite false (3 * 2 ^ 51) (-53);
                  Main.extracted_text := [cps "memes"];
                  Main.normalized_text := cps "[no text detected]";
                  Main.message := Some (cps "Prediction completed successfully") |},
           Normalizer.module_globals)) as H by (by vm_compute).
  split; [exact H|].
  exact (proj1 (predict_meme_response
                  (UC := PyStr.ascii_rows) (RT := Re.ascii_tables)
                  (TL := Normalizer.identity_libs) _ _ _ _ _ _ _ _ _ H)).
Defined.



(** X23: the handler answers 400 exactly when the upload declares a content
    type that does not start with [image/]; every other failure is a 500,
    and no request changes the module's tables. *)
Theorem predict_meme_status
    `{UC : PyStr.UnicodeCase} `{RT : Re.RegexTables} `{TL : Normalizer.TextLibs}
    {Upload Image : Type}
    (open_image : Upload → Main.outcome Image)
    (extract_text : Image → Main.value)
    (sigmoid_of_forward : Image → str → Main.outcome spec_float)
    (validation_error : Main.value → str)
    (content_type : option str) (file : Upload) (g : globals) :
  let answer :=
    Main.predict_meme open_image extract_text sigmoid_of_forward validation_error
      content_type file g in
  answer.2 = g ∧
  (answer.1 = inl (Main.HTTPException 400 (cps "Uploaded file must be an image")) ↔
   ∃ ct, content_type = Some ct ∧ PyStr.startswith (cps "image/") ct = false) ∧
  (∀ e, answer.1 = inl e →
        e = Main.HTTPException 400 (cps "Uploaded file must be an image") ∨
        Main.status_code e = 500).
Proof.
  cbn zeta. unfold Main.predict_meme.
  destruct content_type as [ct|].
  - destruct (PyStr.startswith (cps "image/") ct) eqn:Hct; cbn [negb].
    + assert (∀ (e0 : str) (ans : Main.http_exception + Main.PredictionResponse),
                ans = inl (Main.internal_error e0) ∨ (∃ r, ans = inr r) →
                (ans = inl (Main.HTTPException 400
                              (cps "Uploaded file must be an image")) ↔
                 ∃ ct', Some ct = Some ct' ∧
                        PyStr.startswith (cps "image/") ct' = false) ∧
                (∀ e, ans = inl e →
                      e = Main.HTTPException 400
                            (cps "Uploaded file must be an image") ∨
                      Main.status_code e = 500)) as Hans.
      { intros e0 ans Hcase. split.
        - split.
          + destruct Hcase as [->|[r ->]]; intros H; inversion H.
          + intros (ct' & [= <-] & ?). congruence.
        - intros e ->. destruct Hcase as [[= ->]|[r [=]]]. by right. }
      destruct (open_image file) as [image|e0]; cbn [fst snd];
        [|split; [done|]; apply (Hans e0); by left].
      set (v := if Main.truth (extract_text image) then _ else _).
      destruct (process_value_cases v g)
        as [[e0 ->]|(items & fragments & corpus & _ & _ & _ & _ & ->)];
        cbn [fst snd]; [split; [done|]; apply (Hans e0); by left|].
      destruct (sigmoid_of_forward image _) as [prob|e0]; cbn [fst snd];
        [|split; [done|]; apply (Hans e0); by left].
      destruct v; cbn [fst snd]; (split; [done|]);
        first [ apply (Hans []); right; by eexists
              | eapply Hans; left; reflexivity ].
    + cbn [fst snd]. split; [done|]. split; [|intros e [= <-]; by left].
      split; [eauto|done].
  - cbn [fst snd]. split; [done|]. split; [|intros e [= <-]; by right].
    split; [done|]. by intros (ct' & ? & ?).
Qed.

(** ** The host of the URL pattern *)

Section host_facts.
Import Re Patterns.
Context `{RT : RegexTables}.

Lemma step_reject (ok : N → bool) (b : option N) (c : N) (t : str) :
  ok c = false → step ok (Pos b (c :: t)) = [].
Proof. unfold step. cbn [rest]. by intros ->. Qed.

(** A class of ASCII code points and ASCII ranges takes no code point
    that lies outside ASCII with all its case variants. *)
Lemma set_ascii_rejects (items : list item) (c : N) :
  forallb (λ it, match it with
                 | IChar k => k <? 128
                 | IRange _ hi => hi <? 128
                 | _ => false
                 end) items = true →
  (∀ y, y ∈ cases true c → 128 ≤ y) →
  set_matches true false items c = false.
Proof.
  intros Hitems Hc. unfold set_matches. cbn [xorb].
  destruct (existsb _ (cases true c)) eqn:E; [|done].
  apply existsb_exists in E as (y & Hy%list_elem_of_In & E).
  apply existsb_exists in E as (it & Hit & E).
  rewrite forallb_forall in Hitems. specialize (Hitems it Hit).
  specialize (Hc y Hy).
  destruct it as [k|lo hi| | | |]; try done; simpl in E.
  - apply N.eqb_eq in E. apply N.ltb_lt in Hitems. lia.
  - apply andb_true_iff in E as [_ E%N.leb_le]. apply N.ltb_lt in Hitems. lia.
Qed.

Lemma chr_ascii_rejects (k c : N) :
  k < 128 → (∀ y, y ∈ cases true c → 128 ≤ y) → chr_matches true k c = false.
Proof.
  intros Hk Hc. unfold chr_matches.
  destruct (existsb _ _) eqn:E; [|done].
  apply existsb_exists in E as (y & Hy%list_elem_of_In & Heq%N.eqb_eq).
  subst y. specialize (Hc k Hy). lia.
Qed.

Lemma rep_first_fails (m : pos → list pos) (fuel lo : nat) (hi : option nat)
    (p : pos) :
  m p = [] →
  rep m (S fuel) lo hi p = if decide (lo = 0%nat) then [p] else [].
Proof. intros Hm. cbn [rep]. rewrite Hm. by case_decide. Qed.

Section outside_ascii.
Variables (b : option N) (c : N) (t : str).
Hypothesis Hc : ∀ y, y ∈ cases true c → 128 ≤ y.

Lemma set_step_rejects (items : list item) :
  forallb (λ it, match it with
                 | IChar k => k <? 128
                 | IRange _ hi => hi <? 128
                 | _ => false
                 end) items = true →
  matches true (Set_ false items) (Pos b (c :: t)) = [].
Proof.
  intros Hitems. cbn [matches]. apply step_reject. by apply set_ascii_rejects.
Qed.

Lemma chr_step_rejects (k : N) :
  k < 128 → matches true (Chr k) (Pos b (c :: t)) = [].
Proof.
  intros Hk. cbn [matches]. apply step_reject. by apply chr_ascii_rejects.
Qed.

Lemma label_rejects : matches true label_set (Pos b (c :: t)) = [].
Proof. by apply set_step_rejects. Qed.

Lemma domain_rejects : matches true url_domain (Pos b (c :: t)) = [].
Proof.
  unfold url_domain, star, plus.
  assert (matches true
            (Rep (label_set ⋅ opt (chr "-")) 0 None ⋅ Rep label_set 1 None)%re
            (Pos b (c :: t)) = []) as H.
  { cbn [matches]. rewrite rep_first_fails; [|by rewrite label_rejects].
    rewrite decide_True by done. cbn [mbind list_bind rest].
    rewrite rep_first_fails by apply label_rejects. done. }
  cbn [matches] in *. by rewrite H.
Qed.

Lemma localhost_rejects :
  matches true (lit "localhost") (Pos b (c :: t)) = [].
Proof.
  change (lit "localhost") with (Chr 108 ⋅ lits (cps "ocalhost"))%re.
  cbn [matches]. fold (matches true (Chr 108) (Pos b (c :: t))).
  by rewrite chr_step_rejects.
Qed.

Lemma first_octet_rejects :
  matches true
    (Set_ false [irange "1" "9"] ⋅ opt digit ∣ chr "1" ⋅ digit ⋅ digit
     ∣ chr "2" ⋅ Set_ false [ichr "0"; ichr "1"] ⋅ digit
     ∣ lit "22" ⋅ Set_ false [irange "0" "3"])%re (Pos b (c :: t)) = [].
Proof.
  change (lit "22") with (Chr 50 ⋅ Chr 50)%re.
  change (chr "1") with (Chr 49). change (chr "2") with (Chr 50).
  cbn [matches].
  fold (matches true (Chr 49) (Pos b (c :: t))).
  fold (matches true (Chr 50) (Pos b (c :: t))).
  fold (matches true (Set_ false [irange "1" "9"]) (Pos b (c :: t))).
  rewrite !chr_step_rejects by done. by rewrite set_step_rejects.
Qed.

Lemma ip_rejects : matches true url_ip (Pos b (c :: t)) = [].
Proof.
  unfold url_ip.
  set (first := (Set_ false [irange "1" "9"] ⋅ opt digit ∣ _ ∣ _ ∣ _)%re).
  assert (matches true
            (NotAhead private_10_127 ⋅ NotAhead private_169_192 ⋅
             NotAhead private_172 ⋅ first)%re (Pos b (c :: t)) = []) as H.
  { cbn [matches].
    destruct (matches true private_10_127 _); [|done].
    cbn [mbind list_bind app].
    destruct (matches true private_169_192 _); [|done].
    cbn [mbind list_bind app].
    destruct (matches true private_172 _); [|done].
    cbn [mbind list_bind app].
    fold (matches true first (Pos b (c :: t))).
    unfold first. by rewrite first_octet_rejects. }
  cbn [matches] in *. by rewrite H.
Qed.

End outside_ascii.
End host_facts.

(** X24: no host of the URL pattern starts with a code point outside
    ASCII (one whose case variants lie outside ASCII as well): the class
    written [a-z\\u00a1-\\uffff0-9] in a raw string names ASCII code points
    only, so at such a code point neither the dotted quad, nor a host
    name, nor localhost has a match. *)
Theorem url_host_starts_in_ascii `{RT : Re.RegexTables}
    (b : option N) (c : N) (t : str) :
  (∀ y, y ∈ Re.cases true c → 128 ≤ y) →
  Re.matches true Patterns.url_host (Re.Pos b (c :: t)) = [].
Proof.
  intros Hc. unfold Patterns.url_host. cbn [Re.matches].
  by rewrite ip_rejects, domain_rejects, localhost_rejects.
Qed.

Lemma url_host_starts_in_ascii_witness :
  (∀ y, y ∈ Re.cases (RT := Re.ascii_tables) true 0x9AC → 128 ≤ y) ∧
  Re.matches (RT := Re.ascii_tables) true Patterns.url_host
    (Re.Pos (Some 47) (0x9AC :: 0x9BE :: cps ".com")) = [].
Proof.
  assert (∀ y, y ∈ Re.cases (RT := Re.ascii_tables) true 0x9AC → 128 ≤ y) as H.
  { intros y Hy. apply list_elem_of_In in Hy. vm_compute in Hy.
    destruct Hy as [<-|[]]. done. }
  split; [exact H|].
  exact (url_host_starts_in_ascii (RT := Re.ascii_tables) (Some 47) 0x9AC
           (0x9BE :: cps ".com") H).
Defined.
